(** * The execution core of the anacostia pipeline: node runtime, signal
    expressions, resource guard, pipeline controller and AndAnd barrier.

    The development embeds [engine/node.py], [engine/pipeline.py] and
    [engine/logic.py] as executable Rocq definitions and proves what the
    specification says about them.  It then goes on to what the code shows
    besides, there and in [resource/filesystem.py],
    [resources/artifact_store.py] and the path computation of
    [metadata/sql_metadata_store.py].  Definitions come first (one module
    per Python module), the lemmas and theorems follow. *)

From stdpp Require Import functions strings gmap list.

#[local] Set Warnings "-clear-no-such-hyp".

Open Scope Z_scope.
Open Scope string_scope.
Open Scope list_scope.
Open Scope nat_scope.

(* ===================================================================== *)
(** * Python values shared by all modules *)
(* ===================================================================== *)

Module Python.

(** The exceptions the modelled code raises or lets through.  All of them are
    subclasses of Python's [Exception], which is what [except Exception]
    catches.  [UserException] stands for whatever a user hook raises. *)
Inductive exn : Type :=
| AssertionError
| TypeError (msg : string)
| ValueError (msg : string)
| InvalidNodeDependencyError (msg : string)
| UserException (tag : string).

Global Instance exn_eq_dec : EqDecision exn.
Proof. solve_decision. Defined.

(** What a call does: it returns a value or raises. *)
Inductive outcome (A : Type) : Type :=
| Return (a : A)
| Raised (e : exn).
Global Arguments Return {A} a.
Global Arguments Raised {A} e.

(** [functools.reduce(function, sequence)] without an initial value: the
    first item seeds the accumulator, an empty sequence is a [TypeError]. *)
Definition reduce {A : Type} (function : A -> A -> A) (sequence : list A)
  : outcome A :=
  match sequence with
  | [] => Raised (TypeError "reduce() of empty sequence with no initial value")
  | x :: rest => Return (fold_left function rest x)
  end.

(** [all(iterable)] and [any(iterable)] on a list of booleans. *)
Definition all (l : list bool) : bool := forallb (fun b => b) l.
Definition any (l : list bool) : bool := existsb (fun b => b) l.

End Python.

(* ===================================================================== *)
(** * engine/constants.py *)
(* ===================================================================== *)

Module Constants.

(** Modelled from the spec: [engine/constants.py] is not among the sources.
    The spec lists the lifecycle values OFF, INIT, RUNNING, PAUSED, STOPPING,
    EXITED and ERROR; [node.py] also uses [Status.SUCCESS] and
    [Status.FAILURE] as the outcome a message carries. *)
Inductive Status : Type :=
| OFF | INIT | RUNNING | PAUSED | STOPPING | EXITED | ERROR
| SUCCESS | FAILURE.

Global Instance Status_eq_dec : EqDecision Status.
Proof. solve_decision. Defined.

(** Modelled from the spec: the operators of a signal expression are AND, OR,
    XOR and NOT. *)
Inductive ASTOperation : Type := NOT | AND | OR | XOR.

Global Instance ASTOperation_eq_dec : EqDecision ASTOperation.
Proof. solve_decision. Defined.

(** Modelled from the spec: [logic.py] signals with [Result.SUCCESS]; the
    spec gives a message the outcomes SUCCESS and FAILURE. *)
Inductive Result : Type := RSUCCESS | RFAILURE.

Global Instance Result_eq_dec : EqDecision Result.
Proof. solve_decision. Defined.

End Constants.

(* ===================================================================== *)
(** * engine/node.py: signal expressions and messages *)
(* ===================================================================== *)

Module Node.
Import Python Constants.

(** A reference to a [BaseNode] object held by another object: the identity
    of the object and its [name], the one attribute read through such a
    reference. *)
Record NodeRef : Type := mkRef { ref_id : nat; ref_name : string }.

Global Instance NodeRef_eq_dec : EqDecision NodeRef.
Proof. solve_decision. Defined.

(** [class SignalAST]: an operation and its parameters, each a node or
    another expression.  The induction principle that reaches into the
    parameter list is [SignalAST_ind_params] below. *)
#[local] Unset Elimination Schemes.
Inductive SignalAST : Type :=
| Build_SignalAST (operation : ASTOperation)
                  (parameters : list (NodeRef + SignalAST)).
#[local] Set Elimination Schemes.

Definition operation (ast : SignalAST) : ASTOperation :=
  match ast with Build_SignalAST op _ => op end.

Definition parameters (ast : SignalAST) : list (NodeRef + SignalAST) :=
  match ast with Build_SignalAST _ ps => ps end.

(** [SignalAST.__init__] stores its two arguments and checks nothing. *)
Definition SignalAST_init (operation : ASTOperation)
  (parameters : list (NodeRef + SignalAST)) : outcome SignalAST :=
  Return (Build_SignalAST operation parameters).

Definition Not (n : NodeRef + SignalAST) : SignalAST :=
  Build_SignalAST NOT [n].
Definition And (args : list (NodeRef + SignalAST)) : SignalAST :=
  Build_SignalAST AND args.
Definition Or (args : list (NodeRef + SignalAST)) : SignalAST :=
  Build_SignalAST OR args.
Definition XOr (args : list (NodeRef + SignalAST)) : SignalAST :=
  Build_SignalAST XOR args.

(** [class Message(BaseModel)]. *)
Record Message : Type := mkMessage {
  sender : string;
  signal_type : string;
  timestamp : Z;
  status : option Status
}.

Global Instance Message_eq_dec : EqDecision Message.
Proof. solve_decision. Defined.

(** The attributes of a [BaseNode] that the modelled methods read or write.
    [_status] is the field behind the [status] property, [ident] the
    identity of the object (the key of its [incoming_signals] queue),
    [self_signal_type] the attribute [self.signal_type].  [dependent_nodes]
    lists the members of the Python set. *)
Record BaseNode : Type := mkBaseNode {
  ident : nat;
  name : string;
  self_signal_type : string;
  auto_trigger : bool;
  triggered : bool;
  _status : Status;
  dependent_nodes : list NodeRef;
  signal_ast : SignalAST;
  successors : list NodeRef;
  received_signals : gmap string Message;
  waiting : bool
}.

(** The value of a leaf: the sender is in [received_signals] and its latest
    message carries SUCCESS. *)
Definition leaf_value (param : NodeRef) (node : BaseNode) : bool :=
  match received_signals node !! ref_name param with
  | Some m => bool_decide (status m = Some SUCCESS)
  | None => false
  end.

(** [SignalAST.evaluate].  The parameters are evaluated first, left to right
    (an exception in one of them leaves the call), then the operation is
    applied.  The final [else: raise ValueError] of the source is not
    reachable for a member of [ASTOperation]. *)
Fixpoint evaluate (self : SignalAST) (node : BaseNode) : outcome bool :=
  match self with
  | Build_SignalAST operation parameters =>
    let fix evaluate_params (params : list (NodeRef + SignalAST))
      : outcome (list bool) :=
      match params with
      | [] => Return []
      | param :: rest =>
        match (match param with
               | inr ast => evaluate ast node
               | inl n => Return (leaf_value n node)
               end) with
        | Raised e => Raised e
        | Return value =>
          match evaluate_params rest with
          | Raised e => Raised e
          | Return values => Return (value :: values)
          end
        end
      end in
    match evaluate_params parameters with
    | Raised e => Raised e
    | Return evaluated_params =>
      match operation with
      | NOT =>
        match evaluated_params with
        | [v] => Return (negb v)
        | _ => Raised AssertionError
        end
      | AND => Return (all evaluated_params)
      | OR => Return (any evaluated_params)
      | XOR => reduce (fun x y => xorb x x) evaluated_params
      end
    end
  end.

(** The evaluation of a parameter list, as a function of its own. *)
Definition evaluate_param (node : BaseNode) (param : NodeRef + SignalAST)
  : outcome bool :=
  match param with
  | inr ast => evaluate ast node
  | inl n => Return (leaf_value n node)
  end.

Fixpoint evaluate_params (node : BaseNode)
  (params : list (NodeRef + SignalAST)) : outcome (list bool) :=
  match params with
  | [] => Return []
  | param :: rest =>
    match evaluate_param node param with
    | Raised e => Raised e
    | Return value =>
      match evaluate_params node rest with
      | Raised e => Raised e
      | Return values => Return (value :: values)
      end
    end
  end.

(** The last step of [evaluate]: the operation on the evaluated values. *)
Definition apply_operation (operation : ASTOperation)
  (evaluated_params : list bool) : outcome bool :=
  match operation with
  | NOT =>
    match evaluated_params with
    | [v] => Return (negb v)
    | _ => Raised AssertionError
    end
  | AND => Return (all evaluated_params)
  | OR => Return (any evaluated_params)
  | XOR => reduce (fun x y => xorb x x) evaluated_params
  end.

(** [SignalAST._nodes]: the nodes of the expression, left to right. *)
Fixpoint _nodes (self : SignalAST) : list NodeRef :=
  match self with
  | Build_SignalAST _ parameters =>
    (fix params_nodes (params : list (NodeRef + SignalAST)) : list NodeRef :=
       match params with
       | [] => []
       | inl n :: rest => n :: params_nodes rest
       | inr ast :: rest => _nodes ast ++ params_nodes rest
       end) parameters
  end.

(** [SignalAST.nodes]: the set of these nodes, each listed once. *)
Definition nodes (self : SignalAST) : list NodeRef := remove_dups (_nodes self).

(** [BaseNode.__init__], for [listen_to] given as a list.  The gate is the AND
    of the items, whatever their number; [dependent_nodes] collects the nodes
    of the items.  The constructor also appends the new node to the
    [successors] of each dependent node; those are other objects, and
    [with_successors] below stands for what later constructors append to
    this one. *)
Definition BaseNode_init (ident : nat) (name : string) (signal_type : string)
  (listen_to : list (NodeRef + SignalAST)) (auto_trigger : bool) : BaseNode :=
  mkBaseNode ident name signal_type auto_trigger
             (if auto_trigger then true else false)
             OFF
             (remove_dups
                (concat ((fun item : NodeRef + SignalAST =>
                            match item with
                            | inr ast => nodes ast
                            | inl n => [n]
                            end) <$> listen_to)))
             (And listen_to)
             []
             ∅
             false.

(** The invariant the spec puts on expressions: NOT has one parameter, the
    other operations at least one, in every subtree. *)
Definition arity_ok (operation : ASTOperation) (n : nat) : bool :=
  match operation with
  | NOT => Nat.eqb n 1
  | AND | OR | XOR => Nat.leb 1 n
  end.

Fixpoint well_formed (ast : SignalAST) : bool :=
  match ast with
  | Build_SignalAST operation parameters =>
    arity_ok operation (length parameters)
    && (fix all_well_formed (params : list (NodeRef + SignalAST)) : bool :=
          match params with
          | [] => true
          | inl _ :: rest => all_well_formed rest
          | inr sub :: rest => well_formed sub && all_well_formed rest
          end) parameters
  end.

(** The parity the spec asks of XOR: an odd number of true values. *)
Definition parity (values : list bool) : bool :=
  Nat.odd (length (filter (fun b => b = true) values)).

(* --------------------------------------------------------------------- *)
(** ** The worker and the objects it shares with other threads *)
(* --------------------------------------------------------------------- *)

(** What another thread can do to this node while its worker sleeps: the
    controller calls [pause], [resume], [stop] or [trigger], a predecessor's
    [send_signals] puts a message into this node's queue. *)
Inductive Command : Type :=
| Cpause | Cresume | Cstop | Ctrigger
| Cput (m : Message).

(** The hooks a subclass overrides.  In the source [pre_trigger],
    [pre_execution], [execute], [post_execution], [on_success] and
    [on_failure] carry [@pausable]; [setup] and [on_exit] do not. *)
Inductive Hook : Type :=
| Hsetup | Hpre_trigger | Hpre_execution | Hexecute | Hpost_execution
| Hon_success | Hon_failure (e : option exn) | Hon_exit.

(** What the worker does that others can observe, in order. *)
Inductive Event : Type :=
| Call (h : Hook)
| SetStatus (s : Status)
| Put (target : NodeRef) (m : Message)
| Print (e : exn).

Global Instance Hook_eq_dec : EqDecision Hook.
Proof. solve_decision. Defined.
Global Instance Event_eq_dec : EqDecision Event.
Proof. solve_decision. Defined.

Section Worker.

(** [U] is the part of the object that belongs to the subclass: the hooks
    read and write it, return a value or raise, and touch nothing else. *)
Context {U : Type}.

Record Hooks : Type := mkHooks {
  setup : U -> outcome unit * U;
  pre_trigger : U -> outcome bool * U;
  pre_execution : U -> outcome unit * U;
  execute : U -> outcome bool * U;
  post_execution : U -> outcome unit * U;
  on_success : U -> outcome unit * U;
  on_failure : option exn -> U -> outcome unit * U;
  on_exit : U -> outcome unit * U
}.

(** The state one worker thread acts on.  [queues] holds the
    [incoming_signals] queue of every node, by identity, oldest message
    first.  [pending] is what the other threads will do during each of the
    worker's coming [time.sleep] calls: other threads are taken to act while
    the worker sleeps.  [datetime_now] is the clock, read once per message.
    [trace] records the observable steps. *)
Record World : Type := mkWorld {
  self : BaseNode;
  user : U;
  queues : gmap nat (list Message);
  pending : list (list Command);
  datetime_now : nat -> Z;
  clock_reads : nat;
  trace : list Event
}.

(** A method of the worker: it returns, raises, never gets past a pause
    ([Blocked]) or runs out of the iterations allowed to it. *)
Inductive Res (A : Type) : Type :=
| Ok (a : A) (w : World)
| Exc (e : exn) (w : World)
| Blocked
| OutOfFuel.
Global Arguments Ok {A} a w.
Global Arguments Exc {A} e w.
Global Arguments Blocked {A}.
Global Arguments OutOfFuel {A}.

Definition M (A : Type) : Type := World -> Res A.

Definition ret {A} (a : A) : M A := fun w => Ok a w.

Definition bind {A B} (k : A -> M B) (m : M A) : M B :=
  fun w =>
    match m w with
    | Ok a w' => k a w'
    | Exc e w' => Exc e w'
    | Blocked => Blocked
    | OutOfFuel => OutOfFuel
    end.

(** Sequencing is written [x ← m; k] and [m;; k]. *)
#[global] Instance M_ret : MRet M := @ret.
#[global] Instance M_bind : MBind M := @bind.

(** [try: body except Exception as e: handler(e)].  What the body did before
    it raised stays done. *)
Definition try_except {A} (body : M A) (handler : exn -> M A) : M A :=
  fun w =>
    match body w with
    | Exc e w' => handler e w'
    | r => r
    end.

(** *** Field updates *)

Definition update_self (f : BaseNode -> BaseNode) (w : World) : World :=
  mkWorld (f (self w)) (user w) (queues w) (pending w) (datetime_now w)
          (clock_reads w) (trace w).

Definition update_user (u : U) (w : World) : World :=
  mkWorld (self w) u (queues w) (pending w) (datetime_now w)
          (clock_reads w) (trace w).

Definition update_queues (q : gmap nat (list Message)) (w : World) : World :=
  mkWorld (self w) (user w) q (pending w) (datetime_now w)
          (clock_reads w) (trace w).

Definition update_pending (p : list (list Command)) (w : World) : World :=
  mkWorld (self w) (user w) (queues w) p (datetime_now w)
          (clock_reads w) (trace w).

Definition update_clock_reads (n : nat) (w : World) : World :=
  mkWorld (self w) (user w) (queues w) (pending w) (datetime_now w)
          n (trace w).

Definition record (ev : Event) (w : World) : World :=
  mkWorld (self w) (user w) (queues w) (pending w) (datetime_now w)
          (clock_reads w) (trace w ++ [ev]).

Definition with_status (s : Status) (n : BaseNode) : BaseNode :=
  mkBaseNode (ident n) (name n) (self_signal_type n) (auto_trigger n)
             (triggered n) s (dependent_nodes n) (signal_ast n)
             (successors n) (received_signals n) (waiting n).

Definition with_triggered (b : bool) (n : BaseNode) : BaseNode :=
  mkBaseNode (ident n) (name n) (self_signal_type n) (auto_trigger n)
             b (_status n) (dependent_nodes n) (signal_ast n)
             (successors n) (received_signals n) (waiting n).

Definition with_received_signals (r : gmap string Message) (n : BaseNode)
  : BaseNode :=
  mkBaseNode (ident n) (name n) (self_signal_type n) (auto_trigger n)
             (triggered n) (_status n) (dependent_nodes n) (signal_ast n)
             (successors n) r (waiting n).

Definition with_successors (l : list NodeRef) (n : BaseNode) : BaseNode :=
  mkBaseNode (ident n) (name n) (self_signal_type n) (auto_trigger n)
             (triggered n) (_status n) (dependent_nodes n) (signal_ast n)
             l (received_signals n) (waiting n).

Definition with_waiting (b : bool) (n : BaseNode) : BaseNode :=
  mkBaseNode (ident n) (name n) (self_signal_type n) (auto_trigger n)
             (triggered n) (_status n) (dependent_nodes n) (signal_ast n)
             (successors n) (received_signals n) b.

(** *** Queues *)

(** [Queue.put(msg)] on the queue of the node with identity [target]. *)
Definition queue_put (target : nat) (msg : Message)
  (q : gmap nat (list Message)) : gmap nat (list Message) :=
  <[target := (q !!! target) ++ [msg]]> q.

(** The worker's own [self.incoming_signals]. *)
Definition incoming_signals (w : World) : list Message :=
  queues w !!! ident (self w).

(** *** Other threads *)

(** [pause], [resume], [stop] and [trigger] as the source defines them, and
    a [put] into this node's queue. *)
Definition apply_command (w : World) (c : Command) : World :=
  match c with
  | Cpause => update_self (with_status PAUSED) w
  | Cresume => update_self (with_status RUNNING) w
  | Cstop => update_self (with_status STOPPING) w
  | Ctrigger => update_self (with_triggered true) w
  | Cput m => update_queues (queue_put (ident (self w)) m (queues w)) w
  end.

(** [time.sleep]: the other threads run their next batch of commands. *)
Definition sleep_world (w : World) : World :=
  match pending w with
  | [] => w
  | batch :: rest => fold_left apply_command batch (update_pending rest w)
  end.

Definition sleep : M unit := fun w => Ok () (sleep_world w).

(** *** The [status] property, hooks and printing *)

Definition get_status : M Status := fun w => Ok (_status (self w)) w.

Definition set_status (value : Status) : M unit :=
  fun w => Ok () (record (SetStatus value) (update_self (with_status value) w)).

Definition set_waiting (b : bool) : M unit :=
  fun w => Ok () (update_self (with_waiting b) w).

Definition get_triggered : M bool := fun w => Ok (triggered (self w)) w.

(** Calling a hook: it runs on the subclass's part of the object. *)
Definition call {A} (h : Hook) (body : U -> outcome A * U) : M A :=
  fun w =>
    let w1 := record (Call h) w in
    match body (user w1) with
    | (Return a, u) => Ok a (update_user u w1)
    | (Raised e, u) => Exc e (update_user u w1)
    end.

Definition print (e : exn) : M unit := fun w => Ok () (record (Print e) w).

(** *** [@pausable] *)

(** [while self.status == Status.PAUSED: time.sleep(0.1)].  The loop is left
    once a sleep ends with another status; when the other threads have
    nothing more to do ([n] counts their remaining batches) and the status is
    still PAUSED, it is never left. *)
Fixpoint wait_while_paused (n : nat) (w : World) : option World :=
  if decide (_status (self w) = PAUSED) then
    match n with
    | O => None
    | S n' => wait_while_paused n' (sleep_world w)
    end
  else Some w.

Definition pausable {A} (func : M A) : M A :=
  fun w =>
    match wait_while_paused (length (pending w)) w with
    | None => Blocked
    | Some w' => func w'
    end.

(** *** The methods of [BaseNode] *)

Context (hooks : Hooks).

(** The loop of [check_signals]: take the queued signals one by one and keep
    the latest of each sender. *)
Fixpoint register_signals (sigs : list Message)
  (received : gmap string Message) : gmap string Message :=
  match sigs with
  | [] => received
  | sig :: rest => register_signals rest (<[sender sig := sig]> received)
  end.

Definition drain_incoming_signals (w : World) : World :=
  update_queues (<[ident (self w) := []]> (queues w))
    (update_self
       (with_received_signals
          (register_signals (incoming_signals w) (received_signals (self w))))
       w).

Definition check_signals_body : M bool :=
  fun w =>
    if decide (0 < length (dependent_nodes (self w))) then
      if decide (incoming_signals w = []) then Ok false w
      else
        let w' := drain_incoming_signals w in
        match evaluate (signal_ast (self w')) (self w') with
        | Return signals_eval => Ok signals_eval w'
        | Raised e => Exc e w'
        end
    else Ok true w.

Definition check_signals : M bool := pausable check_signals_body.

(** The message [send_signals] builds. *)
Definition make_message (w : World) (status : Status) : Message :=
  mkMessage (name (self w)) (self_signal_type (self w))
            (datetime_now w (clock_reads w)) (Some status).

Definition put_to (msg : Message) (w : World) (n : NodeRef) : World :=
  record (Put n msg) (update_queues (queue_put (ref_id n) msg (queues w)) w).

Definition send_signals_body (status : Status) : M unit :=
  fun w =>
    let msg := make_message w status in
    let w1 := update_clock_reads (S (clock_reads w)) w in
    Ok () (fold_left (put_to msg) (successors (self w1)) w1).

Definition send_signals (status : Status) : M unit :=
  pausable (send_signals_body status).

Definition reset_trigger : M unit :=
  fun w =>
    if auto_trigger (self w) then Ok () w
    else Ok () (update_self (with_triggered false) w).

(** The [try] statement of [run]: lines 366 to 379. *)
Definition try_execute : M unit :=
  try_except
    (ret ← pausable (call Hexecute (execute hooks));
     if ret : bool then
       pausable (call Hon_success (on_success hooks));;
       pausable (call Hpost_execution (post_execution hooks));;
       send_signals SUCCESS
     else
       pausable (call (Hon_failure None) (on_failure hooks None));;
       pausable (call Hpost_execution (post_execution hooks));;
       send_signals FAILURE)
    (fun e =>
       pausable (call (Hon_failure (Some e)) (on_failure hooks (Some e)));;
       pausable (call Hpost_execution (post_execution hooks));;
       send_signals FAILURE).

(** How a pass through the body of [while True] ends: with [continue], or by
    reaching the test for EXITED at its end. *)
Inductive Flow : Type := Continue | Fallthrough.

(** What the loop does next. *)
Inductive Next : Type := Break | Again.

(** The [if]/[elif] chain on the status: lines 344 to 389. *)
Definition dispatch : M Flow :=
  st ← get_status;
  if decide (st = RUNNING) then
    ok ← pausable (call Hpre_trigger (pre_trigger hooks));
    if negb ok then
      set_waiting true;; mret Continue
    else
      set_waiting false;;
      t ← get_triggered;
      if t : bool then
        sig ← check_signals;
        if negb sig then
          set_waiting true;; mret Continue
        else
          set_waiting false;;
          pausable (call Hpre_execution (pre_execution hooks));;
          try_execute;;
          reset_trigger;;
          mret Fallthrough
      else mret Fallthrough
  else if decide (st = PAUSED) then
    sleep;; mret Fallthrough
  else if decide (st = STOPPING) then
    call Hon_exit (on_exit hooks);;
    set_status EXITED;;
    mret Fallthrough
  else mret Fallthrough.

(** One pass through the body of [while True]: lines 344 to 394. *)
Definition iteration : M Next :=
  flow ← dispatch;
  match flow with
  | Continue => mret Again
  | Fallthrough =>
    st ← get_status;
    if decide (st = EXITED) then mret Break
    else sleep;; mret Again
  end.

(** [while True], for at most [fuel] passes. *)
Fixpoint loop (fuel : nat) : M unit :=
  match fuel with
  | O => fun _ => OutOfFuel
  | S fuel' =>
    next ← iteration;
    match next with
    | Break => mret ()
    | Again => loop fuel'
    end
  end.

(** The statements of the RUNNING branch that come before the [try]
    statement, on their own: [None] when control arrives at the [try], the
    way the pass goes on otherwise.  [dispatch_before_try] relates them to
    [dispatch]. *)
Definition before_try : M (option Flow) :=
  ok ← pausable (call Hpre_trigger (pre_trigger hooks));
  if negb ok then
    set_waiting true;; mret (Some Continue)
  else
    set_waiting false;;
    t ← get_triggered;
    if t : bool then
      sig ← check_signals;
      if negb sig then
        set_waiting true;; mret (Some Continue)
      else
        set_waiting false;;
        pausable (call Hpre_execution (pre_execution hooks));;
        mret None
    else mret (Some Fallthrough).

(** The world [reset_trigger] leaves. *)
Definition reset_trigger_world (w : World) : World :=
  if auto_trigger (self w) then w else update_self (with_triggered false) w.

(** [BaseNode.run].  [fuel] bounds the passes through the loop. *)
Definition run (fuel : nat) : M unit :=
  set_status INIT;;
  started ← try_except
              (call Hsetup (setup hooks);; mret true)
              (fun e => print e;; set_status ERROR;; mret false);
  if started : bool then
    set_status RUNNING;;
    loop fuel
  else mret ().

End Worker.

Global Arguments Hooks U : clear implicits.
Global Arguments World U : clear implicits.

Global Arguments M U A : clear implicits.

(** The hooks as [BaseNode] defines them: they do nothing, [pre_trigger] and
    [execute] return True. *)
Definition default_hooks {U : Type} : Hooks U := {|
  setup u := (Return (), u);
  pre_trigger u := (Return true, u);
  pre_execution u := (Return (), u);
  execute u := (Return true, u);
  post_execution u := (Return (), u);
  on_success u := (Return (), u);
  on_failure _ u := (Return (), u);
  on_exit u := (Return (), u)
|}.

End Node.

(* ===================================================================== *)
(** * engine/node.py: the guard of a ResourceNode *)
(* ===================================================================== *)

Module Resource.
Import Python.

Section ResourceNode.

(** [P] is the payload the resource node owns. *)
Context {P : Type}.

(** The attributes [ResourceNode.__init__] adds: the [Event] (its flag) and
    the reference count.  The two [RLock]s only make each update atomic. *)
Record ResourceNode : Type := mkResourceNode {
  event : bool;
  reference_count : Z;
  payload : P
}.

(** A method of the node, before decoration. *)
Definition Method (R : Type) : Type := ResourceNode -> outcome R * ResourceNode.

(** What threads of successor nodes do while this thread waits: they enter
    and leave methods decorated with [exeternally_accessible]. *)
Inductive PeerStep : Type := Enter | Leave.

(** The steps of [await_references], in order. *)
Inductive Step : Type :=
| Waited      (** [self.event.wait()] returned *)
| Called      (** [func] was entered *)
| Cleared.    (** [self.event.clear()] was called *)

Record World : Type := mkWorld {
  node : ResourceNode;
  peers : list PeerStep;
  steps : list Step
}.

Inductive Res (R : Type) : Type :=
| Ok (result : R) (w : World)
| Exc (e : exn) (w : World)
| Blocked.
Global Arguments Ok {R} result w.
Global Arguments Exc {R} e w.
Global Arguments Blocked {R}.

Definition set_event (b : bool) (n : ResourceNode) : ResourceNode :=
  mkResourceNode b (reference_count n) (payload n).

Definition set_reference_count (c : Z) (n : ResourceNode) : ResourceNode :=
  mkResourceNode (event n) c (payload n).

(** The first critical section of [exeternally_accessible]. *)
Definition enter (n : ResourceNode) : ResourceNode :=
  set_reference_count (reference_count n + 1) n.

(** Its second critical section: the count goes down, and the event is set
    when it reaches zero. *)
Definition leave (n : ResourceNode) : ResourceNode :=
  let n1 := set_reference_count (reference_count n - 1) n in
  if decide (reference_count n1 = 0%Z) then set_event true n1 else n1.

Definition peer_step (n : ResourceNode) (s : PeerStep) : ResourceNode :=
  match s with
  | Enter => enter n
  | Leave => leave n
  end.

(** [exeternally_accessible(func)] called on one thread.  There is no
    [finally]: when [func] raises the count stays up. *)
Definition exeternally_accessible {R} (func : Method R) : Method R :=
  fun n =>
    match func (enter n) with
    | (Return result, n1) => (Return result, leave n1)
    | (Raised e, n1) => (Raised e, n1)
    end.

(** [self.event.wait()]: returns at once when the flag is set, otherwise the
    peers run until one of them sets it; when they never do, it blocks. *)
Fixpoint event_wait (ps : list PeerStep) (n : ResourceNode)
  : option (ResourceNode * list PeerStep) :=
  if event n then Some (n, ps)
  else
    match ps with
    | [] => None
    | s :: rest => event_wait rest (peer_step n s)
    end.

(** [await_references(func)]: wait, call [func], then clear the event if it
    is (still) set, and return what [func] returned. *)
Definition await_references {R} (func : Method R) : World -> Res R :=
  fun w =>
    match event_wait (peers w) (node w) with
    | None => Blocked
    | Some (n1, rest) =>
      match func n1 with
      | (Raised e, n2) => Exc e (mkWorld n2 rest (steps w ++ [Waited; Called]))
      | (Return result, n2) =>
        if event n2 then
          Ok result (mkWorld (set_event false n2) rest
                             (steps w ++ [Waited; Called; Cleared]))
        else
          Ok result (mkWorld n2 rest (steps w ++ [Waited; Called]))
      end
    end.

(** A method that reports whether the event is set while it runs. *)
Definition observe_event : Method bool := fun n => (Return (event n), n).

End ResourceNode.

Global Arguments ResourceNode P : clear implicits.
Global Arguments World P : clear implicits.
Global Arguments Method P R : clear implicits.

End Resource.

(* ===================================================================== *)
(** * networkx, as far as pipeline.py uses it *)
(* ===================================================================== *)

Module NetworkX.

(** A [DiGraph] over node identities: the nodes in insertion order and the
    edges in insertion order, each kept once. *)
Record DiGraph : Type := mkDiGraph {
  nodes : list nat;
  edges : list (nat * nat)
}.

Definition empty : DiGraph := mkDiGraph [] [].

Definition add_node (n : nat) (g : DiGraph) : DiGraph :=
  if decide (n ∈ nodes g) then g else mkDiGraph (nodes g ++ [n]) (edges g).

(** [add_edge(u, v)] adds the end points when they are not in the graph. *)
Definition add_edge (u v : nat) (g : DiGraph) : DiGraph :=
  let g' := add_node v (add_node u g) in
  if decide ((u, v) ∈ edges g') then g'
  else mkDiGraph (nodes g') (edges g' ++ [(u, v)]).

Definition successors (g : DiGraph) (n : nat) : list nat :=
  (filter (fun e : nat * nat => e.1 = n) (edges g)).*2.

(** Every end point of an edge is a node: what [add_node] and [add_edge]
    keep true. *)
Definition closed (g : DiGraph) : Prop :=
  ∀ u v, (u, v) ∈ edges g → u ∈ nodes g ∧ v ∈ nodes g.

(** A graph as [add_node] and [add_edge] keep it. *)
Definition well_built (g : DiGraph) : Prop := closed g ∧ NoDup (nodes g).

Definition edge (g : DiGraph) (u v : nat) : Prop := (u, v) ∈ edges g.

(** A directed cycle: a node that reaches itself along at least one edge. *)
Definition has_cycle (g : DiGraph) : Prop := ∃ v, tc (edge g) v v.

(** [u] stands before [v] in [l]. *)
Definition before (u v : nat) (l : list nat) : Prop :=
  ∃ l1 l2 l3, l = l1 ++ u :: l2 ++ v :: l3.

(** The two library functions [Pipeline] calls. *)
Class Algorithms : Type := {
  is_directed_acyclic_graph : DiGraph → bool;
  topological_sort : DiGraph → list nat
}.

(** What the library documents about them: a graph is reported acyclic
    exactly when it has no directed cycle, and the topological sort of an
    acyclic graph lists every node once with every edge pointing forward. *)
Class Contract (A : Algorithms) : Prop := {
  is_directed_acyclic_graph_spec g :
    closed g → NoDup (nodes g) →
    is_directed_acyclic_graph g = true ↔ ¬ has_cycle g;
  topological_sort_nodes g :
    closed g → NoDup (nodes g) → is_directed_acyclic_graph g = true →
    topological_sort g ≡ₚ nodes g;
  topological_sort_edges g u v :
    closed g → NoDup (nodes g) → is_directed_acyclic_graph g = true →
    (u, v) ∈ edges g → before u v (topological_sort g)
}.

(** An implementation that meets the contract (Kahn's algorithm), used to
    run the controller on concrete graphs. *)
Definition ready (g : DiGraph) (remaining : list nat) (v : nat) : bool :=
  forallb (fun e : nat * nat =>
             negb (bool_decide (e.2 = v ∧ e.1 ∈ remaining))) (edges g).

Fixpoint kahn (fuel : nat) (g : DiGraph) (remaining : list nat)
  : list nat * list nat :=
  match fuel with
  | O => ([], remaining)
  | S fuel' =>
    match List.find (ready g remaining) remaining with
    | None => ([], remaining)
    | Some v =>
      let '(sorted, rest) :=
        kahn fuel' g (filter (fun x => x ≠ v) remaining) in
      (v :: sorted, rest)
    end
  end.

Definition kahn_sort (g : DiGraph) : list nat * list nat :=
  kahn (length (nodes g)) g (nodes g).

Definition kahn_algorithms : Algorithms := {|
  is_directed_acyclic_graph g := bool_decide ((kahn_sort g).2 = []);
  topological_sort g := (kahn_sort g).1
|}.

End NetworkX.

(* ===================================================================== *)
(** * engine/pipeline.py *)
(* ===================================================================== *)

Module Pipeline.
Import Python Constants.

(** Modelled from the spec: [engine/base.py], the node class [pipeline.py]
    imports, is not among the sources.  Of such a node the controller reads
    [predecessors], writes [successors] and the logger, and calls [start],
    [exit] and [join]; the spec has the controller signal STOPPING to a node
    it terminates, which is what [BaseNode.stop] of [node.py] does. *)
Record BaseNode : Type := mkBaseNode {
  predecessors : list nat;
  successors : list nat;
  logger : option string;
  status : Status
}.

Definition with_successors (l : list nat) (n : BaseNode) : BaseNode :=
  mkBaseNode (predecessors n) l (logger n) (status n).

Definition with_logger (lg : string) (n : BaseNode) : BaseNode :=
  mkBaseNode (predecessors n) (successors n) (Some lg) (status n).

Definition with_status (s : Status) (n : BaseNode) : BaseNode :=
  mkBaseNode (predecessors n) (successors n) (logger n) s.

(** The node objects, by identity. *)
Abbreviation Heap := (nat → BaseNode).

(** The [nodes] argument is an [Iterable]: a collection that can be walked
    again and again (a list, a tuple, a set), or an iterator (a generator, a
    [map] object), which is empty after its first walk. *)
Inductive Iterable : Type :=
| Sequence (items : list nat)
| Iterator (items : list nat).

(** [for node in nodes]: the items this walk yields, and the iterable left
    behind. *)
Definition iterate (nodes : Iterable) : list nat * Iterable :=
  match nodes with
  | Sequence items => (items, Sequence items)
  | Iterator items => (items, Iterator [])
  end.

Record Pipeline : Type := mkPipeline {
  graph : NetworkX.DiGraph;
  nodes : list nat
}.

(** The inner loop of the second [for]: an edge from each predecessor. *)
Definition add_predecessor_edges (heap : Heap) (g : NetworkX.DiGraph)
  (node : nat) : NetworkX.DiGraph :=
  fold_left (fun g predecessor => NetworkX.add_edge predecessor node g)
            (predecessors (heap node)) g.

Definition set_successors (g : NetworkX.DiGraph) (heap : Heap) (node : nat)
  : Heap :=
  <[node := with_successors (NetworkX.successors g node) (heap node)]> heap.

Definition set_logger (lg : string) (heap : Heap) (node : nat) : Heap :=
  <[node := with_logger lg (heap node)]> heap.

(** [Pipeline.__init__].  It returns the pipeline or raises; either way the
    node objects and the iterable are left as the loops made them. *)
Definition Pipeline_init `{NetworkX.Algorithms} (nodes : Iterable)
  (logger : option string) (heap : Heap)
  : outcome Pipeline * Heap * Iterable :=
  let graph := NetworkX.empty in
  let '(items, nodes) := iterate nodes in
  let graph := fold_left (fun g node => NetworkX.add_node node g) items graph in
  let '(items, nodes) := iterate nodes in
  let graph := fold_left (add_predecessor_edges heap) items graph in
  let '(items, nodes) := iterate nodes in
  let heap := fold_left (set_successors graph) items heap in
  let '(heap, nodes) :=
    match logger with
    | Some lg =>
      let '(items, nodes) := iterate nodes in
      (fold_left (set_logger lg) items heap, nodes)
    | None => (heap, nodes)
    end in
  if negb (NetworkX.is_directed_acyclic_graph graph) then
    (Raised (InvalidNodeDependencyError
               "Node Dependencies do not form a Directed Acyclic Graph"),
     heap, nodes)
  else
    (Return (mkPipeline graph (NetworkX.topological_sort graph)), heap, nodes).

(** The graph the first two loops of [__init__] build. *)
Definition built_graph (heap : Heap) (nodes : Iterable) : NetworkX.DiGraph :=
  let '(items, nodes) := iterate nodes in
  let graph := fold_left (fun g node => NetworkX.add_node node g) items
                         NetworkX.empty in
  let '(items, nodes) := iterate nodes in
  fold_left (add_predecessor_edges heap) items graph.

(** What the controller does to the node threads, in order. *)
Inductive Event : Type :=
| Print (s : string)
| Start (node : nat)
| Exit (node : nat)
| Join (node : nat).

Global Instance Event_eq_dec : EqDecision Event.
Proof. solve_decision. Defined.

Definition launch_nodes (self : Pipeline) : list Event :=
  Start <$> nodes self.




(** The predecessor relation the constructor turns into edges: [u] is among
    the predecessors of [v], and [v] is one of the nodes handed in. *)
Definition depends (heap : Heap) (items : list nat) (u v : nat) : Prop :=
  v ∈ items ∧ u ∈ predecessors (heap v).

(** [e1] occurs in [tr], and [e2] occurs later. *)
Definition precedes (e1 e2 : Event) (tr : list Event) : Prop :=
  ∃ l1 l2 l3, tr = l1 ++ e1 :: l2 ++ e2 :: l3.

End Pipeline.

(* ===================================================================== *)
(** * engine/logic.py *)
(* ===================================================================== *)

Module Logic.
Import Python Constants.

(** What reaches the barrier while it sleeps: a signal from a predecessor or
    one back from a successor. *)
Inductive Delivery : Type :=
| FromPredecessor (n : nat) (r : Result)
| FromSuccessor (n : nat) (r : Result).

(** What the barrier does, in order. *)
Inductive Event : Type :=
| CheckedPredecessors (answer : bool)
| CheckedSuccessors (answer : bool)
| Log (message : string)
| SignalSuccessor (n : nat) (r : Result)
| SignalPredecessor (n : nat) (r : Result).

Global Instance Event_eq_dec : EqDecision Event.
Proof. solve_decision. Defined.

(** Modelled from the spec: [engine/base.py], whose [BaseNode] gives
    [AndAndNode] its [check_predecessors_signals], [signal_successors],
    [check_successors_signals] and [signal_predecessors], is not among the
    sources.  The node keeps the latest signal of each predecessor and of
    each successor. *)
Record AndAndNode : Type := mkAndAndNode {
  predecessors : list nat;
  successors : list nat;
  predecessors_signals : gmap nat Result;
  successors_signals : gmap nat Result;
  pending : list (list Delivery);
  trace : list Event
}.

Definition record (ev : list Event) (self : AndAndNode) : AndAndNode :=
  mkAndAndNode (predecessors self) (successors self)
               (predecessors_signals self) (successors_signals self)
               (pending self) (trace self ++ ev).

Definition deliver (self : AndAndNode) (d : Delivery) : AndAndNode :=
  match d with
  | FromPredecessor n r =>
    mkAndAndNode (predecessors self) (successors self)
                 (<[n := r]> (predecessors_signals self))
                 (successors_signals self) (pending self) (trace self)
  | FromSuccessor n r =>
    mkAndAndNode (predecessors self) (successors self)
                 (predecessors_signals self)
                 (<[n := r]> (successors_signals self))
                 (pending self) (trace self)
  end.

(** [time.sleep(0.2)]: the other threads deliver their next batch. *)
Definition sleep (self : AndAndNode) : AndAndNode :=
  match pending self with
  | [] => self
  | batch :: rest =>
    fold_left deliver batch
      (mkAndAndNode (predecessors self) (successors self)
                    (predecessors_signals self) (successors_signals self)
                    rest (trace self))
  end.

(** Modelled from the spec: phase 1 waits "until every predecessor has
    signaled SUCCESS", so the check answers whether each has. *)
Definition check_predecessors_signals (self : AndAndNode) : bool :=
  forallb (fun p => bool_decide (predecessors_signals self !! p = Some RSUCCESS))
          (predecessors self).

(** Modelled from the spec: phase 3 waits "until every successor has
    signaled SUCCESS back". *)
Definition check_successors_signals (self : AndAndNode) : bool :=
  forallb (fun s => bool_decide (successors_signals self !! s = Some RSUCCESS))
          (successors self).

(** Modelled from the spec: phase 2 emits the result "to every successor". *)
Definition signal_successors (r : Result) (self : AndAndNode) : AndAndNode :=
  record ((fun n => SignalSuccessor n r) <$> successors self) self.

(** Modelled from the spec: phase 4 emits the result "back to every
    predecessor". *)
Definition signal_predecessors (r : Result) (self : AndAndNode) : AndAndNode :=
  record ((fun n => SignalPredecessor n r) <$> predecessors self) self.

Definition log (message : string) (self : AndAndNode) : AndAndNode :=
  record [Log message] self.

(** [while check() is False: time.sleep(0.2)], the loop [run] has twice.
    Each answer of the check is recorded.  [n] counts the batches the other
    threads still have; when none is left and the check still fails, the
    loop is never left. *)
Fixpoint wait_until (check : AndAndNode → bool) (answered : bool → Event)
  (n : nat) (self : AndAndNode) : option AndAndNode :=
  let answer := check self in
  let self := record [answered answer] self in
  if answer then Some self
  else
    match n with
    | O => None
    | S n' => wait_until check answered n' (sleep self)
    end.

(** [while self.check_predecessors_signals() is False: time.sleep(0.2)]. *)
Definition wait_predecessors : nat → AndAndNode → option AndAndNode :=
  wait_until check_predecessors_signals CheckedPredecessors.

(** [while self.check_successors_signals() is False: time.sleep(0.2)]. *)
Definition wait_successors : nat → AndAndNode → option AndAndNode :=
  wait_until check_successors_signals CheckedSuccessors.

(** One pass through the body of [while True] in [AndAndNode.run]. *)
Definition iteration (self : AndAndNode) : option AndAndNode :=
  self ← wait_predecessors (length (pending self)) self;
  let self := log "all resource nodes have finished updating its state." self in
  let self := signal_successors RSUCCESS self in
  self ← wait_successors (length (pending self)) self;
  let self := log "all action nodes have finished using the current state." self in
  Some (signal_predecessors RSUCCESS self).

(** [AndAndNode.run], cut after [passes] passes: the loop has no exit. *)
Fixpoint run (passes : nat) (self : AndAndNode) : option AndAndNode :=
  match passes with
  | O => Some self
  | S k => self ← iteration self; run k self
  end.

End Logic.

(* ===================================================================== *)
(** * engine/node.py: the objects a constructor call touches *)
(* ===================================================================== *)

Module Objects.
Import Python Constants Node.

(** A node object in the store: the attributes of [Node.BaseNode] and the two
    counters [__init__] sets besides them. *)
Record Object : Type := mkObject {
  node : BaseNode;
  num_successors : nat;
  num_predecessors : nat
}.

(** The objects constructed so far, by identity. *)
Abbreviation Store := (gmap nat Object).

(** The body of the loop over [self.dependent_nodes]:
    [node.successors.append(self); node.num_successors += 1]. *)
Definition add_successor (self : NodeRef) (o : Object) : Object :=
  mkObject (with_successors (successors (node o) ++ [self]) (node o))
           (S (num_successors o))
           (num_predecessors o).

(** [BaseNode.__init__] with its effect on the other objects.  The loop walks
    a Python set, in an order the language does not fix; each pass writes to
    a different object, so the order makes no difference to the store.  The
    new object is entered with the counters the last statements give it. *)
Definition BaseNode_new (ident : nat) (name : string) (signal_type : string)
  (listen_to : list (NodeRef + SignalAST)) (auto_trigger : bool)
  (store : Store) : Store :=
  let self := BaseNode_init ident name signal_type listen_to auto_trigger in
  let store :=
    fold_left (fun store d => alter (add_successor (mkRef ident name))
                                    (ref_id d) store)
              (dependent_nodes self) store in
  <[ident := mkObject self 0 0]> store.

(** One constructor call of a program that builds nodes. *)
Record Construction : Type := mkConstruction {
  call_ident : nat;
  call_name : string;
  call_signal_type : string;
  call_listen_to : list (NodeRef + SignalAST);
  call_auto_trigger : bool
}.

Definition construct (store : Store) (c : Construction) : Store :=
  BaseNode_new (call_ident c) (call_name c) (call_signal_type c)
               (call_listen_to c) (call_auto_trigger c) store.

Definition program (calls : list Construction) : Store := fold_left construct calls ∅.

(** [r] refers to an object of the store. *)
Definition live (store : Store) (r : NodeRef) : bool :=
  match store !! ref_id r with
  | Some o => bool_decide (name (node o) = ref_name r)
  | None => false
  end.

(** What Python guarantees of a constructor call: the object is new, and
    the nodes named in [listen_to] exist. *)
Definition well_scoped_call (store : Store) (c : Construction) : bool :=
  bool_decide (store !! call_ident c = None)
  && forallb (live store)
       (dependent_nodes
          (BaseNode_init (call_ident c) (call_name c) (call_signal_type c)
                         (call_listen_to c) (call_auto_trigger c))).

Fixpoint well_scoped (store : Store) (calls : list Construction) : bool :=
  match calls with
  | [] => true
  | c :: rest => well_scoped_call store c && well_scoped (construct store c) rest
  end.

(** The reference other objects hold to the object stored at [n]. *)
Definition ref_of (n : nat) (o : Object) : NodeRef := mkRef n (name (node o)).

(** The wiring of a store: every object lists as successors, once each and
    counted, the objects that depend on it, and depends on objects of the
    store only. *)
Definition wired (store : Store) : Prop :=
  ∀ n o, store !! n = Some o →
    ident (node o) = n ∧
    num_successors o = length (successors (node o)) ∧
    num_predecessors o = 0 ∧
    NoDup (successors (node o)) ∧
    (∀ m, m ∈ successors (node o) ↔
          ∃ om, store !! ref_id m = Some om ∧ ref_of (ref_id m) om = m ∧
                ref_of n o ∈ dependent_nodes (node om)) ∧
    (∀ r, r ∈ dependent_nodes (node o) → live store r = true).

End Objects.

(* ===================================================================== *)
(** * resource/filesystem.py *)
(* ===================================================================== *)

Module Filesystem.

(** [str.startswith] and [str.endswith]. *)
Definition startswith (prefix s : string) : bool := String.prefix prefix s.
Definition endswith (suffix s : string) : bool :=
  String.prefix (String.rev suffix) (String.rev s).

(** [os.path.join(a, b)] of [posixpath]. *)
Definition join (a b : string) : string :=
  if startswith "/" b then b
  else if bool_decide (a = "") || endswith "/" a then a ++ b
  else a ++ "/" ++ b.

Section Dict.
Context {V : Type}.

(** A Python dict with string keys: the items in insertion order, every key
    once. *)
Definition dict : Type := list (string * V).

(** [d[key] = value]: a key the dict has keeps its place. *)
Fixpoint setitem (key : string) (value : V) (d : dict) : dict :=
  match d with
  | [] => [(key, value)]
  | (k, v) :: rest =>
    if decide (k = key) then (key, value) :: rest
    else (k, v) :: setitem key value rest
  end.

(** [d.get(key)]. *)
Fixpoint get (d : dict) (key : string) : option V :=
  match d with
  | [] => None
  | (k, v) :: rest => if decide (k = key) then Some v else get rest key
  end.

(** The keys, as iterating over the dict gives them. *)
Definition keys (d : dict) : list string := d.*1.

End Dict.
Global Arguments dict : clear implicits.

Section Files.
(** The type of modification times, which the code only compares. *)
Context {Time : Type} `{EqDecision Time}.

(** What the functions read of the file system: [os.walk(directory)], as
    the list of its [(root, files)] (the middle component is not used), and
    [os.path.getmtime], which raises [OSError] for a path it cannot stat
    ([None]). *)
Record FileSystem : Type := mkFileSystem {
  walk : string → list (string * list string);
  getmtime : string → option Time
}.

(** [file_states[filepath] = os.path.getmtime(filepath)]. *)
Definition record_mtime (fs : FileSystem) (file_states : option (dict Time))
  (filepath : string) : option (dict Time) :=
  file_states ← file_states;
  mtime ← getmtime fs filepath;
  Some (setitem filepath mtime file_states).

(** The body of the inner loop of [get_file_states]. *)
Definition visit_file (fs : FileSystem) (root : string)
  (file_states : option (dict Time)) (filename : string)
  : option (dict Time) :=
  let filepath := join root filename in
  record_mtime fs file_states filepath.

(** [get_file_states]; [None] when [getmtime] raised. *)
Definition get_file_states (fs : FileSystem) (directory : string)
  : option (dict Time) :=
  fold_left (fun file_states entry =>
               fold_left (visit_file fs entry.1) entry.2 file_states)
            (walk fs directory) (Some []).

Definition get_new_files (fs : FileSystem) (directory : string)
  (prev_states : dict Time) : option (list string) :=
  current_states ← get_file_states fs directory;
  Some (filter (fun filepath => filepath ∉ keys prev_states)
               (keys current_states)).

Definition get_modified_files (fs : FileSystem) (directory : string)
  (prev_states : dict Time) : option (list string) :=
  current_states ← get_file_states fs directory;
  Some (filter (fun filepath =>
                  get prev_states filepath ≠ get current_states filepath)
               (keys current_states)).

Definition get_removed_files (fs : FileSystem) (directory : string)
  (prev_states : dict Time) : option (list string) :=
  current_states ← get_file_states fs directory;
  Some (filter (fun filepath => filepath ∉ keys current_states)
               (keys prev_states)).

(** The paths [get_file_states] comes by, in the order of the walk. *)
Definition walked (fs : FileSystem) (directory : string) : list string :=
  '(root, files) ← walk fs directory; join root <$> files.

End Files.
Global Arguments FileSystem : clear implicits.

End Filesystem.

(* ===================================================================== *)
(** * resources/artifact_store.py *)
(* ===================================================================== *)

Module ArtifactStore.

(** An item of ["files"] in [data_store.json], with the three keys [setup]
    and [on_modified] write. *)
Record FileEntry : Type := mkFileEntry {
  filepath : string;
  state : string;
  created_at : string
}.

(** The document [json.load] reads and [json.dump] writes. *)
Record JsonData : Type := mkJsonData {
  node : string;
  resource_path : string;
  node_initialization_time : string;
  files : list FileEntry
}.

(** The node: its name, the file at [data_store_json_path] ([None] before
    [setup] has created it) and what it has logged. *)
Record ArtifactStoreNode : Type := mkArtifactStoreNode {
  name : string;
  data_store_json : option JsonData;
  logged : list string
}.

(** How a call ends: it returns, or [open] raises because the file is not
    there. *)
Inductive Ended : Type := Returned | FileNotFoundError.

Definition with_state (s : string) (e : FileEntry) : FileEntry :=
  mkFileEntry (filepath e) s (created_at e).

Definition with_files (fs : list FileEntry) (d : JsonData) : JsonData :=
  mkJsonData (node d) (resource_path d) (node_initialization_time d) fs.

(** Modelled from the spec: [log] belongs to the missing [engine/base.py];
    the spec leaves logging sinks outside the core.  The message is kept
    with the node. *)
Definition log (message : string) (self : ArtifactStoreNode)
  : ArtifactStoreNode :=
  mkArtifactStoreNode (name self) (data_store_json self)
                      (logged self ++ [message]).

Definition write_json (d : JsonData) (self : ArtifactStoreNode)
  : ArtifactStoreNode :=
  mkArtifactStoreNode (name self) (Some d) (logged self).

(** One pass of a loop of [update_state] over [json_data["files"]]: an entry
    in state [from] is logged and set to [to]. *)
Definition move (from to : string) (st : ArtifactStoreNode * list FileEntry)
  (file_entry : FileEntry) : ArtifactStoreNode * list FileEntry :=
  if decide (state file_entry = from) then
    (log (name st.1 ++ " " ++ from ++ " -> " ++ to ++ ": "
          ++ filepath file_entry) st.1,
     st.2 ++ [with_state to file_entry])
  else (st.1, st.2 ++ [file_entry]).

(** [update_state]. *)
Definition update_state (self : ArtifactStoreNode)
  : Ended * ArtifactStoreNode :=
  let self := log ("Updating state of node '" ++ name self ++ "'") self in
  match data_store_json self with
  | None => (FileNotFoundError, self)
  | Some json_data =>
    let '(self, files) :=
      fold_left (move "current" "old") (files json_data) (self, []) in
    let '(self, files) :=
      fold_left (move "new" "current") files (self, []) in
    (Returned, write_json (with_files files json_data) self)
  end.

(** The event the observer hands to [on_modified]. *)
Record FileSystemEvent : Type := mkFileSystemEvent {
  is_directory : bool;
  src_path : string
}.

(** [str.endswith]. *)
Definition endswith (suffix s : string) : bool :=
  String.prefix (String.rev suffix) (String.rev s).

(** The body of [on_modified]; [now] is what [str(datetime.now())] gives.
    The decorator around it is of the missing [engine/base.py].  The
    [except] branch is not entered: every entry has its ["filepath"]. *)
Definition on_modified (now : string) (event : FileSystemEvent)
  (self : ArtifactStoreNode) : Ended * ArtifactStoreNode :=
  if negb (is_directory event) then
    match data_store_json self with
    | None => (FileNotFoundError, self)
    | Some json_data =>
      let logged_files := filepath <$> files json_data in
      let json_data :=
        if negb (endswith ".json" (src_path event))
           && bool_decide (src_path event ∉ logged_files)
        then
          with_files (files json_data
                      ++ [mkFileEntry (src_path event) "new" now])
                     json_data
        else json_data in
      (Returned, write_json json_data self)
    end
  else (Returned, self).

End ArtifactStore.

(* ===================================================================== *)
(** * metadata/sql_metadata_store.py: the directory of the database *)
(* ===================================================================== *)

Module SqlMetadataStore.
Import Stdlib.Strings.Ascii.

(** A Python [str], as the list of its characters. *)
Abbreviation str := (list Ascii.ascii).

Definition literal (s : string) : str := String.list_ascii_of_string s.

(** [s.lstrip(chars)], [s.rstrip(chars)] and [s.strip(chars)]: the
    characters of [chars] are taken off the ends, as a set, not as a
    prefix. *)
Fixpoint lstrip (chars : str) (s : str) : str :=
  match s with
  | [] => []
  | c :: rest => if decide (c ∈ chars) then lstrip chars rest else s
  end.

Definition rstrip (chars : str) (s : str) : str :=
  reverse (lstrip chars (reverse s)).

Definition strip (chars : str) (s : str) : str :=
  rstrip chars (lstrip chars s).

(** [s.split(sep)] for a separator of one character. *)
Fixpoint split (sep : Ascii.ascii) (s : str) : list str :=
  match s with
  | [] => [[]]
  | c :: rest =>
    if decide (c = sep) then [] :: split sep rest
    else
      match split sep rest with
      | [] => [[c]]
      | word :: words => (c :: word) :: words
      end
  end.

(** [sep.join(words)]. *)
Fixpoint join (sep : str) (words : list str) : str :=
  match words with
  | [] => []
  | [word] => word
  | word :: words => word ++ sep ++ join sep words
  end.

(** The first three statements of [SqliteMetadataStore.setup]: the
    directory it then looks for and creates. *)
Definition setup_path (uri : str) : str :=
  let path := strip (literal "sqlite:///") uri in
  let path := take (length (split "/"%char path) - 1) (split "/"%char path) in
  join (literal "/") path.

End SqlMetadataStore.

(* ===================================================================== *)
(** * Concrete nodes and graphs used in the examples *)
(* ===================================================================== *)

Module Examples.
Import Python Constants Node.

Definition A : NodeRef := mkRef 1 "A".
Definition B : NodeRef := mkRef 2 "B".
Definition C : NodeRef := mkRef 3 "C".

Definition message_from (n : NodeRef) (s : Status) : Message :=
  mkMessage (ref_name n) "DEFAULT_SIGNAL" 0 (Some s).

(** A node constructed with [listen_to = A ^ B], running, that has so far
    received SUCCESS from [A] and nothing from [B]. *)
Definition listens_to_A_xor_B : BaseNode :=
  with_received_signals {[ "A" := message_from A SUCCESS ]}
    (with_status RUNNING
       (BaseNode_init 3 "C" "DEFAULT_SIGNAL" [inr (XOr [inl A; inl B])] true)).

(** A running node constructed with [listen_to = A] that has received
    nothing yet. *)
Definition listens_to_A_fresh : BaseNode :=
  with_status RUNNING (BaseNode_init 3 "C" "DEFAULT_SIGNAL" [inl A] true).

(** The same node after its queue was drained in an earlier pass: SUCCESS
    from [A] is in [received_signals]. *)
Definition listens_to_A : BaseNode :=
  with_received_signals {[ "A" := message_from A SUCCESS ]} listens_to_A_fresh.

(** A running source node, constructed without [listen_to], to which the
    constructors of [B] and [C] have added themselves as successors. *)
Definition source : BaseNode :=
  with_successors [B; C]
    (with_status RUNNING (BaseNode_init 1 "A" "DEFAULT_SIGNAL" [] true)).

(** A worker on [node], with empty queues, nothing pending from other
    threads and nothing done yet.  The subclass part of the object counts the
    calls of [post_execution]. *)
Definition world_of (node : BaseNode) : World nat :=
  mkWorld node 0 ∅ [] (fun _ => 0%Z) 0 [].

(** The same, with [msgs] waiting in the queue of [node]. *)
Definition world_with_queue (node : BaseNode) (msgs : list Message)
  : World nat :=
  mkWorld node 0 {[ ident node := msgs ]} [] (fun _ => 0%Z) 0 [].


(** [on_success] raises. *)
Definition hooks_on_success_raises : Hooks nat := {|
  setup u := (Return (), u);
  pre_trigger u := (Return true, u);
  pre_execution u := (Return (), u);
  execute u := (Return true, u);
  post_execution u := (Return (), S u);
  on_success u := (Raised (UserException "on_success"), u);
  on_failure _ u := (Return (), u);
  on_exit u := (Return (), u)
|}.

(** [post_execution] raises, every time it is called. *)
Definition hooks_post_execution_raises : Hooks nat := {|
  setup u := (Return (), u);
  pre_trigger u := (Return true, u);
  pre_execution u := (Return (), u);
  execute u := (Return true, u);
  post_execution u := (Raised (UserException "post_execution"), S u);
  on_success u := (Return (), u);
  on_failure _ u := (Return (), u);
  on_exit u := (Return (), u)
|}.

(** [post_execution] raises the first time it is called and returns from
    then on. *)
Definition hooks_post_execution_raises_once : Hooks nat := {|
  setup u := (Return (), u);
  pre_trigger u := (Return true, u);
  pre_execution u := (Return (), u);
  execute u := (Return true, u);
  post_execution u :=
    match u with
    | O => (Raised (UserException "post_execution"), S u)
    | S _ => (Return (), S u)
    end;
  on_success u := (Return (), u);
  on_failure _ u := (Return (), u);
  on_exit u := (Return (), u)
|}.

(** [setup] raises. *)
Definition hooks_setup_raises : Hooks nat := {|
  setup u := (Raised (UserException "setup"), u);
  pre_trigger u := (Return true, u);
  pre_execution u := (Return (), u);
  execute u := (Return true, u);
  post_execution u := (Return (), S u);
  on_success u := (Return (), u);
  on_failure _ u := (Return (), u);
  on_exit u := (Return (), u)
|}.


(** A resource node whose event is set and that nobody is reading. *)
Definition resource_drained : Resource.World unit :=
  Resource.mkWorld (Resource.mkResourceNode true 0 ()) [] [].

(** A resource node with one reader inside; a second reader will enter, and
    both will leave. *)
Definition resource_in_use : Resource.World unit :=
  Resource.mkWorld (Resource.mkResourceNode false 1 ())
                   [Resource.Enter; Resource.Leave; Resource.Leave] [].

(** Node objects for the controller: nobody has set their successors or
    started them. *)
Definition fresh_node (predecessors : list nat) : Pipeline.BaseNode :=
  Pipeline.mkBaseNode predecessors [] None OFF.

(** Two nodes that name each other as predecessor. *)
Definition cyclic_heap : nat → Pipeline.BaseNode :=
  fun n =>
    match n with
    | 1 => fresh_node [2]
    | 2 => fresh_node [1]
    | _ => fresh_node []
    end.

(** The chain 1 → 2 → 3. *)
Definition chain_heap : nat → Pipeline.BaseNode :=
  fun n =>
    match n with
    | 2 => fresh_node [1]
    | 3 => fresh_node [2]
    | _ => fresh_node []
    end.

(** A barrier between the producers 1, 2 and the consumer 3.  Producer 1 has
    signaled; producer 2 will, during the first sleep; the consumer answers
    two sleeps later. *)
Definition barrier : Logic.AndAndNode :=
  Logic.mkAndAndNode [1; 2] [3] {[ 1 := RSUCCESS ]} ∅
    [[Logic.FromPredecessor 2 RSUCCESS]; [];
     [Logic.FromSuccessor 3 RSUCCESS]] [].


(** The node [listens_to_A] when it has also received FAILURE from [B], a
    node its gate does not mention. *)
Definition listens_to_A_heard_B : BaseNode :=
  with_received_signals {[ "A" := message_from A SUCCESS;
                           "B" := message_from B FAILURE ]}
                        listens_to_A_fresh.

(** A worker on [node] with what other threads will do during its coming
    sleeps. *)
Definition world_with_pending (node : BaseNode)
  (pending : list (list Command)) : World nat :=
  mkWorld node 0 ∅ pending (fun _ => 0%Z) 0 [].

(** A source node constructed with [auto_trigger=False] on which
    [trigger()] has been called. *)
Definition manual_source : BaseNode :=
  with_successors [B]
    (with_triggered true
       (with_status RUNNING
          (BaseNode_init 1 "A" "DEFAULT_SIGNAL" [] false))).

(** A resource node nobody is reading, its event not set; one reader will
    pass through, a second will enter later. *)
Definition resource_idle : Resource.World unit :=
  Resource.mkWorld (Resource.mkResourceNode false 0 ())
                   [Resource.Enter; Resource.Leave; Resource.Enter] [].

(** The constructor calls [a = Node("A")], [b = Node("B", listen_to=a)],
    [c = Node("C", listen_to=a ^ b)]. *)
Definition three_constructions : list Objects.Construction :=
  [Objects.mkConstruction 1 "A" "DEFAULT_SIGNAL" [] true;
   Objects.mkConstruction 2 "B" "DEFAULT_SIGNAL" [inl A] true;
   Objects.mkConstruction 3 "C" "DEFAULT_SIGNAL"
                          [inr (XOr [inl A; inl B])] true].

(** A directory with two files, and the same directory after [b.csv] was
    written to, [a.csv] deleted and [c.csv] created. *)
Definition directory_then : Filesystem.FileSystem Z :=
  Filesystem.mkFileSystem
    (fun _ => [("data", ["a.csv"; "b.csv"])])
    (fun p => if decide (p = "data/a.csv") then Some 10%Z
              else if decide (p = "data/b.csv") then Some 11%Z
              else None).

Definition directory_now : Filesystem.FileSystem Z :=
  Filesystem.mkFileSystem
    (fun _ => [("data", ["b.csv"]); ("data/sub", ["c.csv"])])
    (fun p => if decide (p = "data/b.csv") then Some 12%Z
              else if decide (p = "data/sub/c.csv") then Some 13%Z
              else None).

(** An artifact store with one file of each state. *)
Definition artifact_store : ArtifactStore.ArtifactStoreNode :=
  ArtifactStore.mkArtifactStoreNode "store"
    (Some (ArtifactStore.mkJsonData "store" "/data" "t0"
             [ArtifactStore.mkFileEntry "/data/1.csv" "old" "t0";
              ArtifactStore.mkFileEntry "/data/2.csv" "current" "t1";
              ArtifactStore.mkFileEntry "/data/3.csv" "new" "t2"]))
    [].

End Examples.

(* ===================================================================== *)
(** * Signal expressions: lemmas *)
(* ===================================================================== *)

Section SignalFacts.
Import Python Constants Node.

(** Induction on an expression, with the hypothesis for every expression
    among the parameters. *)
Lemma SignalAST_ind_params (P : SignalAST → Prop) :
  (∀ op ps,
      Forall (fun p => match p with inr a => P a | inl _ => True end) ps →
      P (Build_SignalAST op ps)) →
  ∀ ast, P ast.
Proof.
  intros step. fix IH 1. intros [op ps]. apply step.
  induction ps as [|[n|a] ps IHps]; constructor; auto.
Qed.

(** [evaluate] is the evaluation of the parameters followed by the
    operation. *)
Lemma evaluate_unfold op ps node :
  evaluate (Build_SignalAST op ps) node =
  match evaluate_params node ps with
  | Raised e => Raised e
  | Return evaluated_params => apply_operation op evaluated_params
  end.
Proof.
  cbn [evaluate].
  match goal with
  | |- match ?f ps with _ => _ end = _ =>
    assert (Hparams : ∀ l, f l = evaluate_params node l)
  end.
  { induction l as [|[n|a] l IHl]; cbn; [done| |]; rewrite IHl; done. }
  rewrite Hparams. destruct (evaluate_params node ps); [|done].
  destruct op; done.
Qed.

Lemma evaluate_params_length node ps vs :
  evaluate_params node ps = Return vs → length vs = length ps.
Proof.
  revert vs. induction ps as [|p ps IH]; intros vs; cbn.
  - intros [= <-]. done.
  - destruct (evaluate_param node p); [|done].
    destruct (evaluate_params node ps) as [vs'|]; [|done].
    intros [= <-]. cbn. f_equal. by apply IH.
Qed.

(** Folding [x ^ x] over at least one more value gives False, whatever the
    values. *)
Lemma fold_xor_self (rest : list bool) (x : bool) :
  rest ≠ [] → fold_left (fun x y => xorb x x) rest x = false.
Proof.
  intros Hne. destruct rest as [|y rest]; [done|]. cbn.
  rewrite xorb_nilpotent. clear. induction rest as [|z rest IH]; [done|].
  cbn. exact IH.
Qed.

Lemma well_formed_unfold op ps :
  well_formed (Build_SignalAST op ps) = true ↔
  arity_ok op (length ps) = true ∧
  Forall (fun p => match p with
                   | inr a => well_formed a = true
                   | inl _ => True
                   end) ps.
Proof.
  cbn [well_formed]. rewrite andb_true_iff.
  apply and_iff_compat_l.
  induction ps as [|[n|a] ps IH]; cbn.
  - split; [constructor|done].
  - rewrite IH. split; [by constructor|by inversion 1].
  - rewrite andb_true_iff, IH. split.
    + intros [? ?]. by constructor.
    + by inversion 1.
Qed.

(** The parameters of a well-formed expression all evaluate, provided its
    sub-expressions do. *)
Lemma evaluate_params_total node ps :
  Forall (fun p => match p with
                   | inr a => ∃ b, evaluate a node = Return b
                   | inl _ => True
                   end) ps →
  ∃ vs, evaluate_params node ps = Return vs.
Proof.
  induction 1 as [|p ps Hp _ [vs IH]]; cbn.
  - by eexists.
  - destruct p as [n|a]; cbn.
    + rewrite IH. by eexists.
    + destruct Hp as [b ->]. rewrite IH. by eexists.
Qed.

Lemma apply_operation_total op vs :
  arity_ok op (length vs) = true → ∃ b, apply_operation op vs = Return b.
Proof.
  destruct op; cbn.
  - destruct vs as [|v [|v' vs]]; cbn; try done. by eexists.
  - by eexists.
  - by eexists.
  - destruct vs as [|v vs]; cbn; [done|]. by eexists.
Qed.

Lemma evaluate_well_formed ast node :
  well_formed ast = true → ∃ b, evaluate ast node = Return b.
Proof.
  induction ast as [op ps IH] using SignalAST_ind_params.
  rewrite well_formed_unfold. intros [Harity Hps].
  rewrite evaluate_unfold.
  destruct (evaluate_params_total node ps) as [vs Hvs].
  { rewrite Forall_forall in IH, Hps |- *. intros [n|a] Hin; [done|].
    apply (IH _ Hin), (Hps _ Hin). }
  rewrite Hvs. apply apply_operation_total.
  by rewrite (evaluate_params_length _ _ _ Hvs).
Qed.

(** With two parameters or more the XOR of the source is False. *)
Lemma evaluate_xor_many node ps vs :
  evaluate_params node ps = Return vs → 2 ≤ length ps →
  evaluate (Build_SignalAST XOR ps) node = Return false.
Proof.
  intros Hvs Hlen. rewrite evaluate_unfold, Hvs.
  apply evaluate_params_length in Hvs.
  destruct vs as [|v rest]; [cbn in Hvs; lia|].
  cbn [apply_operation reduce]. rewrite fold_xor_self; [done|].
  destruct rest; [cbn in Hvs; lia|done].
Qed.

(** With one parameter it is the value of that parameter. *)
Lemma evaluate_xor_one node p v :
  evaluate_param node p = Return v →
  evaluate (Build_SignalAST XOR [p]) node = Return v.
Proof. intros Hv. rewrite evaluate_unfold. cbn. by rewrite Hv. Qed.

End SignalFacts.

(* ===================================================================== *)
(** * Signal expressions: what the specification says *)
(* ===================================================================== *)

Section SignalClaims.
Import Python Constants Node Examples.

(** C1 (XOR is the parity of its children), evaluated on the source at
    [A ^ B] with SUCCESS received from [A] only: the children evaluate to
    True and False, an odd number of them is true, and [evaluate] answers
    False. *)
Theorem evaluate_xor_is_not_parity :
  evaluate_params listens_to_A_xor_B [inl A; inl B] = Return [true; false] ∧
  parity [true; false] = true ∧
  evaluate (XOr [inl A; inl B]) listens_to_A_xor_B = Return false.
Proof. vm_compute. done. Qed.

(** The constructor of a node without [listen_to] builds an AND without
    parameters as its gate, which the invariant of the spec excludes and
    which evaluates to True. *)
Lemma BaseNode_init_without_listen_to ident name signal_type auto_trigger node :
  signal_ast (BaseNode_init ident name signal_type [] auto_trigger) = And [] ∧
  dependent_nodes (BaseNode_init ident name signal_type [] auto_trigger) = [] ∧
  well_formed (And []) = false ∧
  evaluate (And []) node = Return true.
Proof. done. Qed.

(** C3 as stated fails on the source.  An XOR without parameters and a NOT
    with two have the wrong arity; the constructor accepts both, and it is
    [evaluate] that raises. *)
Lemma wrong_arity_is_accepted_at_construction :
  arity_ok XOR (length (@nil (NodeRef + SignalAST))) = false ∧
  SignalAST_init XOR [] = Return (XOr []) ∧
  evaluate (XOr []) listens_to_A_xor_B
  = Raised (TypeError "reduce() of empty sequence with no initial value") ∧
  arity_ok NOT (length [inl A; inl B : NodeRef + SignalAST]) = false ∧
  SignalAST_init NOT [inl A; inl B]
  = Return (Build_SignalAST NOT [inl A; inl B]) ∧
  evaluate (Build_SignalAST NOT [inl A; inl B]) listens_to_A_xor_B
  = Raised AssertionError.
Proof. vm_compute. done. Qed.

(** C3, as the source has it.  A well-formed expression evaluates to a
    boolean for every node.  The constructor checks no arity: it accepts
    every operation with every parameter list.  A wrong arity shows at
    evaluation time, if at all: a NOT whose parameters evaluate and are not
    exactly one fails its assertion, an XOR without parameters raises a
    [TypeError], an AND without parameters is True and an OR without
    parameters False. *)
Theorem evaluate_total_arity_checked_late :
  (∀ ast node, well_formed ast = true → ∃ b, evaluate ast node = Return b) ∧
  (∀ op params, SignalAST_init op params = Return (Build_SignalAST op params)) ∧
  (∀ params node values,
      evaluate_params node params = Return values →
      length params ≠ 1 →
      evaluate (Build_SignalAST NOT params) node = Raised AssertionError) ∧
  (∀ node,
      evaluate (XOr []) node
      = Raised (TypeError "reduce() of empty sequence with no initial value") ∧
      evaluate (And []) node = Return true ∧
      evaluate (Or []) node = Return false).
Proof.
  split; [apply evaluate_well_formed|]. split; [done|]. split; [|done].
  intros params node values Hvalues Hlen.
  rewrite evaluate_unfold, Hvalues.
  apply evaluate_params_length in Hvalues.
  destruct values as [|v [|v' values]]; cbn in *; [done|lia|done].
Qed.

(** [evaluate_total_arity_checked_late] on [And(A, Or(B, Not(C)))]. *)
Lemma evaluate_total_arity_checked_late_witness :
  ∃ b,
    evaluate (And [inl A; inr (Or [inl B; inr (Not (inl C))])])
             listens_to_A_xor_B
    = Return b.
Proof.
  apply (proj1 evaluate_total_arity_checked_late). reflexivity.
Defined.

End SignalClaims.

(* ===================================================================== *)
(** * The worker: lemmas *)
(* ===================================================================== *)

Section WorkerFacts.
Import Python Constants Node.
Context {U : Type}.
Implicit Types (w : World U) (hooks : Hooks U).

Lemma wait_while_paused_unpaused n w :
  _status (self w) ≠ PAUSED → wait_while_paused n w = Some w.
Proof. intros Hst. destruct n; cbn; by destruct (decide _). Qed.

(** A call that is not held in a pause is the call of the method. *)
Lemma pausable_unpaused {A} (func : M U A) w :
  _status (self w) ≠ PAUSED → pausable func w = func w.
Proof. intros Hst. unfold pausable. by rewrite wait_while_paused_unpaused. Qed.

(** The loop of [send_signals]: it touches the queues and the trace only,
    one [put] per successor, in order. *)
Lemma fold_put_to msg (l : list NodeRef) w :
  let w' := fold_left (put_to msg) l w in
  self w' = self w ∧ user w' = user w ∧ pending w' = pending w ∧
  clock_reads w' = clock_reads w ∧ datetime_now w' = datetime_now w ∧
  trace w' = trace w ++ ((fun n => Put n msg) <$> l) ∧
  queues w' = fold_left (fun q n => queue_put (ref_id n) msg q) l (queues w).
Proof.
  revert w. induction l as [|n l IH]; intros w; cbn.
  - by rewrite app_nil_r.
  - destruct (IH (put_to msg w n)) as (-> & -> & -> & -> & -> & -> & ->).
    cbn. by rewrite <- app_assoc.
Qed.

(** [send_signals] never raises: it returns once it is past its pause. *)
Lemma send_signals_unpaused s w :
  _status (self w) ≠ PAUSED →
  send_signals s w =
  Ok () (fold_left (put_to (make_message w s)) (successors (self w))
                   (update_clock_reads (S (clock_reads w)) w)).
Proof. intros Hst. unfold send_signals. by rewrite pausable_unpaused. Qed.

Lemma send_signals_never_raises s w e w' : send_signals s w ≠ Exc e w'.
Proof.
  unfold send_signals, pausable.
  by destruct (wait_while_paused _ _).
Qed.

(** A hook called outside a pause. *)
Lemma pausable_call_unpaused {A} h (body : U → outcome A * U) w :
  _status (self w) ≠ PAUSED →
  pausable (call h body) w =
  match body (user w) with
  | (Return a, u) => Ok a (update_user u (record (Call h) w))
  | (Raised e, u) => Exc e (update_user u (record (Call h) w))
  end.
Proof. intros Hst. by rewrite pausable_unpaused. Qed.

(** The queues after [send_signals]: every successor finds the message at
    the end of its queue, the queue of any other node is as it was. *)
Lemma queue_put_last target msg (q : gmap nat (list Message)) :
  last (queue_put target msg q !!! target) = Some msg.
Proof.
  unfold queue_put. rewrite lookup_total_insert_eq. apply last_snoc.
Qed.

Lemma fold_queue_put_keeps_last msg (l : list NodeRef) k
  (q : gmap nat (list Message)) :
  last (q !!! k) = Some msg →
  last (fold_left (fun q n => queue_put (ref_id n) msg q) l q !!! k) = Some msg.
Proof.
  revert q. induction l as [|n l IH]; intros q Hq; cbn; [done|].
  apply IH. unfold queue_put.
  destruct (decide (ref_id n = k)) as [->|Hne].
  - rewrite lookup_total_insert_eq. apply last_snoc.
  - by rewrite lookup_total_insert_ne.
Qed.

Lemma fold_queue_put_last msg (l : list NodeRef) n
  (q : gmap nat (list Message)) :
  n ∈ l →
  last (fold_left (fun q n => queue_put (ref_id n) msg q) l q !!! ref_id n)
  = Some msg.
Proof.
  revert q. induction l as [|n' l IH]; intros q Hin; [by inversion Hin|].
  cbn. apply elem_of_cons in Hin as [->|Hin].
  - apply fold_queue_put_keeps_last, queue_put_last.
  - by apply IH.
Qed.

Lemma fold_queue_put_other msg (l : list NodeRef) k
  (q : gmap nat (list Message)) :
  k ∉ ref_id <$> l →
  fold_left (fun q n => queue_put (ref_id n) msg q) l q !!! k = q !!! k.
Proof.
  revert q. induction l as [|n l IH]; intros q Hk; cbn; [done|].
  cbn in Hk. apply not_elem_of_cons in Hk as [Hne Hk].
  rewrite IH by done. unfold queue_put. by rewrite lookup_total_insert_ne.
Qed.

(** When no successor is listed twice each queue grows by exactly the one
    message. *)
Lemma fold_queue_put_once msg (l : list NodeRef) n
  (q : gmap nat (list Message)) :
  NoDup (ref_id <$> l) → n ∈ l →
  fold_left (fun q n => queue_put (ref_id n) msg q) l q !!! ref_id n
  = (q !!! ref_id n) ++ [msg].
Proof.
  revert q. induction l as [|n' l IH]; intros q Hnd Hin; [by inversion Hin|].
  cbn in *. apply NoDup_cons in Hnd as [Hfresh Hnd].
  apply elem_of_cons in Hin as [->|Hin].
  - rewrite fold_queue_put_other by done.
    unfold queue_put. by rewrite lookup_total_insert_eq.
  - rewrite IH by done. unfold queue_put.
    rewrite lookup_total_insert_ne; [done|].
    intros Heq. apply Hfresh. rewrite Heq. by apply list_elem_of_fmap_2.
Qed.

(** Registering one more signal overwrites what its sender had. *)
Lemma register_signals_snoc sigs sig (received : gmap string Message) :
  register_signals (sigs ++ [sig]) received
  = <[sender sig := sig]> (register_signals sigs received).
Proof.
  revert received. induction sigs as [|s sigs IH]; intros received; cbn;
    [done|]. by rewrite IH.
Qed.

(** After the queue is drained [received_signals] holds, for each sender, the
    latest of its queued messages, and what it held before for the others. *)
Lemma register_signals_lookup sigs (received : gmap string Message) s :
  register_signals sigs received !! s
  = match last (filter (fun m => sender m = s) sigs) with
    | Some m => Some m
    | None => received !! s
    end.
Proof.
  induction sigs as [|sig sigs IH] using rev_ind; [done|].
  rewrite register_signals_snoc, filter_app, filter_cons, filter_nil.
  destruct (decide (sender sig = s)) as [<-|Hne].
  - by rewrite lookup_insert_eq, last_snoc.
  - rewrite lookup_insert_ne by done. by rewrite app_nil_r.
Qed.

(** [check_signals] leaves the status alone. *)
Lemma check_signals_status w b w1 :
  _status (self w) ≠ PAUSED → check_signals w = Ok b w1 →
  _status (self w1) = _status (self w).
Proof.
  intros Hst. unfold check_signals. rewrite pausable_unpaused by done.
  unfold check_signals_body.
  repeat case_match; intros; simplify_eq; done.
Qed.

End WorkerFacts.

Section WorkerLoop.
Import Python Constants Node.
Context {U : Type} (hooks : Hooks U).
Implicit Types (w : World U).

(** In the RUNNING branch [dispatch] runs [before_try] and then, when
    control arrives there, the [try] statement and [reset_trigger]. *)
Lemma dispatch_before_try w :
  _status (self w) = RUNNING →
  dispatch hooks w =
  (r ← before_try hooks;
   match r with
   | None => try_execute hooks;; reset_trigger;; mret Fallthrough
   | Some flow => mret flow
   end) w.
Proof.
  intros Hst. unfold dispatch, before_try.
  unfold mbind, M_bind, bind, mret, M_ret, ret, get_status.
  rewrite Hst. rewrite decide_True by done.
  destruct (pausable _ w) as [[] w1| | |]; cbn; try done.
  destruct (triggered (self w1)); cbn; try done.
  destruct (check_signals _) as [[] w3| | |]; cbn; try done.
  destruct (pausable _ _) as [[] w4| | |]; cbn; done.
Qed.

(** The statements before the [try] leave the status alone. *)
Lemma before_try_status w r w1 :
  _status (self w) ≠ PAUSED → before_try hooks w = Ok r w1 →
  _status (self w1) = _status (self w).
Proof.
  intros Hst. unfold before_try.
  unfold mbind, M_bind, bind, mret, M_ret, ret, get_triggered, set_waiting.
  rewrite pausable_call_unpaused by done.
  destruct (pre_trigger hooks (user w)) as [[[]|e] u]; cbn; try done.
  - destruct (triggered (self w)); cbn.
    + destruct (check_signals _) as [[] w3| | |] eqn:Hsig; cbn; try done.
      * apply check_signals_status in Hsig; [|done]. cbn in Hsig.
        rewrite pausable_call_unpaused by (cbn; congruence).
        destruct (pre_execution hooks _) as [[[]|e] u']; cbn; try done.
        intros; simplify_eq. cbn. done.
      * apply check_signals_status in Hsig; [|done]. cbn in Hsig.
        intros; simplify_eq. cbn. done.
    + intros; simplify_eq. done.
  - intros; simplify_eq. done.
Qed.

(** The handler of the [try] statement, when its two hooks return: the
    FAILURE message goes to every successor. *)
Lemma handler_returns w e u2 u3 :
  _status (self w) ≠ PAUSED →
  on_failure hooks (Some e) (user w) = (Return (), u2) →
  post_execution hooks u2 = (Return (), u3) →
  ∃ w2,
    (pausable (call (Hon_failure (Some e)) (on_failure hooks (Some e)));;
     pausable (call Hpost_execution (post_execution hooks));;
     send_signals FAILURE) w = Ok () w2 ∧
    trace w2 = trace w ++ [Call (Hon_failure (Some e)); Call Hpost_execution]
               ++ ((fun n => Put n (make_message w FAILURE))
                     <$> successors (self w)) ∧
    queues w2 = fold_left (fun q n =>
                             queue_put (ref_id n) (make_message w FAILURE) q)
                          (successors (self w)) (queues w) ∧
    user w2 = u3 ∧ self w2 = self w ∧ pending w2 = pending w.
Proof.
  intros Hst Hfail Hpost.
  unfold mbind, M_bind, bind.
  rewrite pausable_call_unpaused, Hfail by done.
  rewrite pausable_call_unpaused by done. cbn [user update_user].
  rewrite Hpost. rewrite send_signals_unpaused by done.
  eexists. split; [done|].
  match goal with
  | |- context [fold_left (put_to ?m) ?l ?w0] =>
    destruct (fold_put_to m l w0) as (-> & -> & -> & _ & _ & -> & ->)
  end.
  cbn. rewrite <- !app_assoc. done.
Qed.

End WorkerLoop.

(* ===================================================================== *)
(** * The worker: what the specification says *)
(* ===================================================================== *)

Section WorkerClaims.
Import Python Constants Node.
Context {U : Type} (hooks : Hooks U).
Implicit Types (w : World U).

Lemma reset_trigger_returns w : reset_trigger w = Ok () (reset_trigger_world w).
Proof. unfold reset_trigger, reset_trigger_world. by destruct (auto_trigger _). Qed.

(** A pass that arrives at the [try] statement and gets through it goes on
    to [reset_trigger] and the sleep at the end of the body, and the loop
    takes its next pass. *)
Lemma pass_through_try fuel w w1 w2 :
  _status (self w) = RUNNING →
  before_try hooks w = Ok None w1 →
  try_execute hooks w1 = Ok () w2 →
  _status (self w2) = RUNNING →
  iteration hooks w = Ok Again (sleep_world (reset_trigger_world w2)) ∧
  loop hooks (S fuel) w = loop hooks fuel (sleep_world (reset_trigger_world w2)).
Proof.
  intros Hst Hbefore Htry Hst2.
  assert (Hit : iteration hooks w
                = Ok Again (sleep_world (reset_trigger_world w2))).
  { unfold iteration. unfold mbind at 1, M_bind at 1, bind at 1.
    rewrite dispatch_before_try by done.
    unfold mbind, M_bind, bind. rewrite Hbefore, Htry, reset_trigger_returns.
    cbn. unfold reset_trigger_world.
    destruct (auto_trigger (self w2)); cbn; rewrite Hst2; done. }
  split; [done|].
  cbn [loop]. unfold mbind, M_bind, bind. by rewrite Hit.
Qed.


(** When the statements after a True [execute] raise, it is [on_success] or
    [post_execution] that raised: [send_signals] has no way to. *)
Lemma success_branch_raises wa e wx :
  _status (self wa) ≠ PAUSED →
  (pausable (call Hon_success (on_success hooks));;
   pausable (call Hpost_execution (post_execution hooks));;
   send_signals SUCCESS) wa = Exc e wx →
  (∃ ux, on_success hooks (user wa) = (Raised e, ux) ∧
         wx = update_user ux (record (Call Hon_success) wa)) ∨
  (∃ ua ux, on_success hooks (user wa) = (Return (), ua) ∧
            post_execution hooks ua = (Raised e, ux) ∧
            wx = update_user ux
                   (record (Call Hpost_execution)
                      (update_user ua (record (Call Hon_success) wa)))).
Proof.
  intros Hst. unfold mbind, M_bind, bind.
  rewrite pausable_call_unpaused by done.
  destruct (on_success hooks (user wa)) as [[[]|e1] ua] eqn:Hsucc.
  - rewrite pausable_call_unpaused by done. cbn [user update_user].
    destruct (post_execution hooks ua) as [[[]|e2] ux] eqn:Hpost.
    + intros Hsend. by apply send_signals_never_raises in Hsend.
    + intros [= <- <-]. right. by exists ua, ux.
  - intros [= <- <-]. left. by exists ua.
Qed.

(** When a hook of the handler raises in its turn, nothing catches it: the
    exception leaves the [try] statement, and with it the pass, the loop and
    [run]; no FAILURE message is put anywhere. *)
Lemma handler_raises w e e' :
  _status (self w) ≠ PAUSED →
  (∃ u2, on_failure hooks (Some e) (user w) = (Raised e', u2)) ∨
  (∃ u2 u3, on_failure hooks (Some e) (user w) = (Return (), u2) ∧
            post_execution hooks u2 = (Raised e', u3)) →
  ∃ w',
    (pausable (call (Hon_failure (Some e)) (on_failure hooks (Some e)));;
     pausable (call Hpost_execution (post_execution hooks));;
     send_signals FAILURE) w = Exc e' w' ∧
    queues w' = queues w ∧
    (trace w' = trace w ++ [Call (Hon_failure (Some e))] ∨
     trace w' = trace w ++ [Call (Hon_failure (Some e)); Call Hpost_execution]).
Proof.
  intros Hst Hraise. unfold mbind, M_bind, bind.
  rewrite pausable_call_unpaused by done.
  destruct Hraise as [(u2 & ->)|(u2 & u3 & -> & Hpost)].
  - eexists. split; [done|]. split; [done|]. by left.
  - rewrite pausable_call_unpaused by done. cbn [user update_user].
    rewrite Hpost. eexists. split; [done|]. split; [done|]. right.
    cbn. by rewrite <- app_assoc.
Qed.

Lemma loop_raises fuel w e w' :
  iteration hooks w = Exc e w' → loop hooks (S fuel) w = Exc e w'.
Proof. intros Hit. cbn [loop]. unfold mbind, M_bind, bind. by rewrite Hit. Qed.

(** C10, as the source has it.  When [execute] returns True and
    [on_success] or [post_execution] then raises [e], the handler runs:
    [on_failure(e)] is called and [post_execution()] is called (again); when
    these two calls return, a FAILURE message goes to every successor, no
    SUCCESS message having gone out, and the loop takes its next pass.  Both
    [on_success] and [on_failure] are called in this one pass. *)
Theorem success_path_raise_is_handled fuel w w1 u1 e wx u2 u3 :
  _status (self w) = RUNNING →
  before_try hooks w = Ok None w1 →
  execute hooks (user w1) = (Return true, u1) →
  (pausable (call Hon_success (on_success hooks));;
   pausable (call Hpost_execution (post_execution hooks));;
   send_signals SUCCESS) (update_user u1 (record (Call Hexecute) w1))
  = Exc e wx →
  on_failure hooks (Some e) (user wx) = (Return (), u2) →
  post_execution hooks u2 = (Return (), u3) →
  ∃ w2 mid,
    try_execute hooks w1 = Ok () w2 ∧
    (mid = [] ∨ mid = [Call Hpost_execution]) ∧
    trace w2 = trace w1
               ++ [Call Hexecute; Call Hon_success] ++ mid
               ++ [Call (Hon_failure (Some e)); Call Hpost_execution]
               ++ ((fun n => Put n (make_message w1 FAILURE))
                     <$> successors (self w1)) ∧
    queues w2 = fold_left (fun q n =>
                             queue_put (ref_id n) (make_message w1 FAILURE) q)
                          (successors (self w1)) (queues w1) ∧
    (∀ n, n ∈ successors (self w1) →
          last (queues w2 !!! ref_id n) = Some (make_message w1 FAILURE)) ∧
    iteration hooks w = Ok Again (sleep_world (reset_trigger_world w2)) ∧
    loop hooks (S fuel) w
    = loop hooks fuel (sleep_world (reset_trigger_world w2)).
Proof.
  intros Hst Hbefore Hexec Hraise Hfail Hpost.
  assert (Hst1 : _status (self w1) = RUNNING).
  { rewrite (before_try_status hooks w None w1); [done| |done].
    by rewrite Hst. }
  set (wa := update_user u1 (record (Call Hexecute) w1)) in *.
  assert (Hsta : _status (self wa) ≠ PAUSED) by (cbn; by rewrite Hst1).
  assert (∃ mid, (mid = [] ∨ mid = [Call Hpost_execution]) ∧
                 self wx = self w1 ∧ queues wx = queues w1 ∧
                 datetime_now wx = datetime_now w1 ∧
                 clock_reads wx = clock_reads w1 ∧
                 trace wx = trace w1 ++ [Call Hexecute; Call Hon_success] ++ mid)
    as (mid & Hmid & Hselfx & Hqx & Hnowx & Hreadsx & Htracex).
  { destruct (success_branch_raises wa e wx Hsta Hraise)
      as [(ux & _ & ->)|(ua & ux & _ & _ & ->)].
    - exists []. cbn. rewrite <- !app_assoc. auto 10.
    - exists [Call Hpost_execution]. cbn. rewrite <- !app_assoc. auto 10. }
  destruct (handler_returns hooks wx e u2 u3)
    as (w2 & Hrun & Htrace & Hqueues & Huser & Hself & Hpending);
    [by rewrite Hselfx, Hst1|done|done|].
  assert (Hmsg : make_message wx FAILURE = make_message w1 FAILURE).
  { unfold make_message. by rewrite Hselfx, Hnowx, Hreadsx. }
  rewrite Hmsg, Hselfx in Htrace, Hqueues. rewrite Hqx in Hqueues.
  assert (Htry : try_execute hooks w1 = Ok () w2).
  { unfold try_execute, try_except.
    unfold mbind at 1, M_bind at 1, bind at 1.
    rewrite pausable_call_unpaused, Hexec by (by rewrite Hst1).
    fold wa. cbv beta iota. rewrite Hraise. exact Hrun. }
  exists w2, mid. split; [done|]. split; [done|]. split.
  { rewrite Htrace, Htracex. rewrite <- !app_assoc. done. }
  split; [done|]. split.
  { intros n Hn. rewrite Hqueues. by apply fold_queue_put_last. }
  apply (pass_through_try fuel w w1 w2); try done.
  rewrite Hself, Hselfx. done.
Qed.

(** C6.  When [setup] raises, [run] sets INIT, calls [setup], prints, sets
    ERROR and returns, whatever the number of passes allowed to the loop: the
    loop is never entered.  Nothing is put into any queue, and the exception
    does not leave [run]. *)
Theorem setup_raises_ends_in_error fuel w e u1 :
  setup hooks (user w) = (Raised e, u1) →
  ∃ w',
    run hooks fuel w = Ok () w' ∧
    _status (self w') = ERROR ∧
    trace w' = trace w ++ [SetStatus INIT; Call Hsetup; Print e;
                           SetStatus ERROR] ∧
    queues w' = queues w ∧
    user w' = u1.
Proof.
  intros Hsetup. unfold run, try_except.
  unfold mbind, M_bind, bind, mret, M_ret, ret, set_status, call, print.
  cbn. rewrite Hsetup. cbn.
  eexists. split; [done|]. cbn. rewrite <- !app_assoc. done.
Qed.

(** C2, as the source has it.  With no dependent nodes the check returns
    True.  With dependent nodes and an empty queue it returns False at once:
    nothing is drained and the gate is not evaluated.  With dependent nodes
    and a queue that is not empty it drains the queue into
    [received_signals] and returns what the gate evaluates to (or raises what
    the evaluation raises). *)
Theorem check_signals_gate w :
  (dependent_nodes (self w) = [] → check_signals_body w = Ok true w) ∧
  (dependent_nodes (self w) ≠ [] → incoming_signals w = [] →
   check_signals_body w = Ok false w) ∧
  (dependent_nodes (self w) ≠ [] → incoming_signals w ≠ [] →
   incoming_signals (drain_incoming_signals w) = [] ∧
   received_signals (self (drain_incoming_signals w))
   = register_signals (incoming_signals w) (received_signals (self w)) ∧
   check_signals_body w
   = match evaluate (signal_ast (self w)) (self (drain_incoming_signals w)) with
     | Return signals_eval => Ok signals_eval (drain_incoming_signals w)
     | Raised e => Exc e (drain_incoming_signals w)
     end).
Proof.
  assert (Hlen : dependent_nodes (self w) ≠ [] →
                 0 < length (dependent_nodes (self w))).
  { destruct (dependent_nodes (self w)); [done|]. cbn. lia. }
  unfold check_signals_body. split; [|split].
  - intros ->. done.
  - intros Hdep Hempty. by rewrite !decide_True by auto.
  - intros Hdep Hqueue. split; [|split].
    + unfold incoming_signals, drain_incoming_signals. cbn.
      by rewrite lookup_total_insert_eq.
    + done.
    + rewrite decide_True by auto. by rewrite decide_False by done.
Qed.

(** The decorated method is the body, unless the node is paused. *)
Lemma check_signals_unpaused w :
  _status (self w) ≠ PAUSED → check_signals w = check_signals_body w.
Proof. apply pausable_unpaused. Qed.

End WorkerClaims.

Section WorkerExamples.
Import Python Constants Node Examples.

(** C2 as stated fails on the source.  The node listens to [A], SUCCESS from
    [A] was registered in an earlier pass and the queue is empty: the gate
    evaluates to True against [received_signals], and the check returns
    False without evaluating it. *)
Lemma check_signals_false_though_gate_true :
  dependent_nodes (self (world_of listens_to_A)) ≠ [] ∧
  evaluate (signal_ast listens_to_A)
           (self (drain_incoming_signals (world_of listens_to_A)))
  = Return true ∧
  check_signals (world_of listens_to_A) = Ok false (world_of listens_to_A).
Proof. split; [done|]. split; reflexivity. Qed.

(** [check_signals_gate] on a queue holding FAILURE, then SUCCESS from [A]:
    the later message is the one registered and the gate opens. *)
Lemma check_signals_gate_witness :
  check_signals_body
    (world_with_queue listens_to_A_fresh
                      [message_from A FAILURE; message_from A SUCCESS])
  = Ok true (drain_incoming_signals
               (world_with_queue listens_to_A_fresh
                  [message_from A FAILURE; message_from A SUCCESS])).
Proof.
  destruct (check_signals_gate
              (world_with_queue listens_to_A_fresh
                 [message_from A FAILURE; message_from A SUCCESS]))
    as (_ & _ & Hdrain).
  destruct Hdrain as (_ & _ & ->); [done|done|]. reflexivity.
Defined.



(** C10 as stated fails on the source.  [execute] returns True and
    [post_execution] raises, as it does each time it is called.  The handler
    calls [on_failure] and then [post_execution] again, which raises again:
    the exception leaves [run], the worker is gone, and no message was put
    into any queue. *)
Lemma post_execution_raising_again_emits_nothing :
  execute hooks_post_execution_raises (user (world_of source))
  = (Return true, 0) ∧
  ∃ w',
    run hooks_post_execution_raises 1 (world_of source)
    = Exc (UserException "post_execution") w' ∧
    trace w' = [SetStatus INIT; Call Hsetup; SetStatus RUNNING;
                Call Hpre_trigger; Call Hpre_execution; Call Hexecute;
                Call Hon_success; Call Hpost_execution;
                Call (Hon_failure (Some (UserException "post_execution")));
                Call Hpost_execution] ∧
    queues w' = ∅.
Proof.
  split; [done|]. eexists.
  split; [vm_compute; reflexivity|]. split; reflexivity.
Qed.

(** [success_path_raise_is_handled] on a source node whose [on_success]
    raises: [execute] returned True, and the successor [B] finds a FAILURE
    message. *)
Lemma success_path_raise_is_handled_witness :
  ∃ w2 : World nat,
    last (queues w2 !!! ref_id B)
    = Some (mkMessage "A" "DEFAULT_SIGNAL" 0 (Some FAILURE)) ∧
    loop hooks_on_success_raises 1 (world_of source)
    = loop hooks_on_success_raises 0 (sleep_world (reset_trigger_world w2)).
Proof.
  edestruct (success_path_raise_is_handled hooks_on_success_raises 0
               (world_of source))
    as (w2 & mid & _ & _ & _ & _ & Hlast & _ & Hloop).
  1-6: vm_compute; reflexivity.
  exists w2. split; [|exact Hloop].
  apply (Hlast B). cbn. set_solver.
Defined.

(** The same theorem when it is [post_execution] that raises, once: its
    second call, in the handler, returns. *)
Example post_execution_raising_once_is_handled :
  ∃ w2 : World nat,
    try_execute hooks_post_execution_raises_once (world_of source) = Ok () w2 ∧
    trace w2 = [Call Hexecute; Call Hon_success; Call Hpost_execution;
                Call (Hon_failure (Some (UserException "post_execution")));
                Call Hpost_execution;
                Put B (mkMessage "A" "DEFAULT_SIGNAL" 0 (Some FAILURE));
                Put C (mkMessage "A" "DEFAULT_SIGNAL" 0 (Some FAILURE))].
Proof. eexists. split; [vm_compute; reflexivity|reflexivity]. Qed.

(** [setup_raises_ends_in_error] on a node whose [setup] raises. *)
Lemma setup_raises_ends_in_error_witness :
  ∃ w' : World nat,
    run hooks_setup_raises 7 (world_of source) = Ok () w' ∧
    _status (self w') = ERROR ∧
    queues w' = ∅.
Proof.
  destruct (setup_raises_ends_in_error hooks_setup_raises 7 (world_of source)
              (UserException "setup") 0 eq_refl)
    as (w' & Hrun & Hst & _ & Hq & _).
  exists w'. done.
Defined.

End WorkerExamples.

(* ===================================================================== *)
(** * The guard of a ResourceNode *)
(* ===================================================================== *)

Section ResourceClaims.
Import Python Resource.
Context {P : Type}.
Implicit Types (n : ResourceNode P) (w : World P).

(** A wait that had to block ends at the [Leave] that brings the reference
    count to zero. *)
Lemma event_wait_drained ps n n1 rest :
  event n = false → event_wait ps n = Some (n1, rest) →
  event n1 = true ∧ reference_count n1 = 0%Z.
Proof.
  revert n. induction ps as [|s ps IH]; intros n Hev; cbn; rewrite Hev;
    [done|].
  destruct (event (peer_step n s)) eqn:Hev'.
  - destruct ps; cbn; rewrite Hev'; intros [= <- <-]; (split; [done|]).
    all: destruct s; cbn in *; [congruence|].
    all: unfold leave in *; destruct (decide _); cbn in *; congruence.
  - by apply IH.
Qed.

Lemma event_wait_set ps n n1 rest :
  event_wait ps n = Some (n1, rest) → event n1 = true.
Proof.
  destruct (event n) eqn:Hev.
  - destruct ps; cbn; rewrite Hev; by intros [= <- <-].
  - intros Hwait. by apply (event_wait_drained ps n n1 rest).
Qed.

(** C7, as the source has it.  The guard blocks until the event is set; a
    wait that had to block ends when the reference count reaches zero.  It
    then calls the method, with the event still set, and clears the event
    only after the method has returned, if it is still set.  When the method
    raises, the event is not cleared.  When the event is never set, the
    guard never returns and the method is not called. *)
Theorem await_references_order {R} (func : Method P R) w :
  (∀ n1 rest,
      event_wait (peers w) (node w) = Some (n1, rest) →
      event n1 = true ∧
      (event (node w) = false → reference_count n1 = 0%Z) ∧
      await_references func w
      = match func n1 with
        | (Return result, n2) =>
          Ok result
             (mkWorld (set_event false n2) rest
                      (steps w ++ Waited :: Called ::
                         (if event n2 then [Cleared] else [])))
        | (Raised e, n2) =>
          Exc e (mkWorld n2 rest (steps w ++ [Waited; Called]))
        end) ∧
  (event_wait (peers w) (node w) = None →
   await_references func w = Blocked).
Proof.
  split.
  - intros n1 rest Hwait. split; [by eapply event_wait_set|]. split.
    + intros Hev. by eapply event_wait_drained.
    + unfold await_references. rewrite Hwait.
      destruct (func n1) as [[result|e] n2]; [|done].
      destruct n2 as [[] c p]; done.
  - intros Hwait. unfold await_references. by rewrite Hwait.
Qed.

End ResourceClaims.

Section ResourceExamples.
Import Python Resource Examples.

(** C7 as stated fails on the source.  The event is set, so the wait returns
    at once; the method that reports the event finds it set while it runs,
    and [clear] comes after the call. *)
Lemma await_references_clears_after_the_call :
  await_references observe_event resource_drained
  = Ok true (mkWorld (mkResourceNode false 0 ()) []
                     [Waited; Called; Cleared]).
Proof. reflexivity. Qed.

(** [await_references_order] on a node that is in use: the guard waits for
    the two readers to leave and calls the method with a count of zero. *)
Lemma await_references_order_witness :
  await_references (fun n => (Return (reference_count n), n)) resource_in_use
  = Ok 0%Z (mkWorld (mkResourceNode false 0 ()) []
                    [Waited; Called; Cleared]).
Proof.
  destruct (await_references_order
              (fun n => (Return (reference_count n), n)) resource_in_use)
    as [Hreturns _].
  destruct (Hreturns (mkResourceNode true 0 ()) [] eq_refl) as (_ & _ & ->).
  reflexivity.
Defined.

End ResourceExamples.

(* ===================================================================== *)
(** * Graphs: an implementation that meets the library contract *)
(* ===================================================================== *)

Section GraphFacts.
Import NetworkX.
Implicit Types (g : DiGraph) (l : list nat).

(** [before], by positions. *)
Lemma before_lookup u v l :
  before u v l ↔ ∃ i j, i < j ∧ l !! i = Some u ∧ l !! j = Some v.
Proof.
  split.
  - intros (l1 & l2 & l3 & ->).
    exists (length l1), (length l1 + S (length l2)). split; [lia|]. split.
    + by apply list_lookup_middle.
    + rewrite lookup_app_r by lia.
      replace (length l1 + S (length l2) - length l1) with (S (length l2))
        by lia.
      cbn. by apply list_lookup_middle.
  - intros (i & j & Hlt & Hi & Hj).
    exists (take i l), (take (j - S i) (drop (S i) l)),
           (drop (S (j - S i)) (drop (S i) l)).
    rewrite <- (take_drop_middle l i u Hi) at 1. f_equal. f_equal.
    symmetry. apply take_drop_middle.
    rewrite lookup_drop. rewrite <- Hj. f_equal. lia.
Qed.

Lemma before_trans a b c l :
  NoDup l → before a b l → before b c l → before a c l.
Proof.
  rewrite !before_lookup.
  intros Hnd (i & j & Hij & Hi & Hj) (j' & k & Hjk & Hj' & Hk).
  assert (j = j') as <- by eauto using NoDup_lookup.
  exists i, k. split; [lia|done].
Qed.

Lemma before_irrefl a l : NoDup l → ¬ before a a l.
Proof.
  rewrite before_lookup. intros Hnd (i & j & Hij & Hi & Hj).
  assert (i = j) by eauto using NoDup_lookup. lia.
Qed.

Lemma before_cons a u v l : before u v l → before u v (a :: l).
Proof. intros (l1 & l2 & l3 & ->). by exists (a :: l1), l2, l3. Qed.

Lemma before_head u v l : v ∈ l → before u v (u :: l).
Proof.
  intros (l2 & l3 & ->)%list_elem_of_split. by exists [], l2, l3.
Qed.

Lemma ready_true g remaining v :
  ready g remaining v = true ↔ ∀ u, (u, v) ∈ edges g → u ∉ remaining.
Proof.
  unfold ready. rewrite forallb_forall. split.
  - intros Hall u Hin Hu. apply list_elem_of_In in Hin.
    specialize (Hall _ Hin). cbn in Hall.
    rewrite bool_decide_eq_true_2 in Hall; done.
  - intros Hall [u v'] Hin. apply list_elem_of_In in Hin. cbn.
    apply negb_true_iff, bool_decide_eq_false. intros [-> Hu].
    by apply (Hall u).
Qed.

Lemma ready_false g remaining v :
  ready g remaining v = false → ∃ u, (u, v) ∈ edges g ∧ u ∈ remaining.
Proof.
  unfold ready. induction (edges g) as [|[u v'] es IH]; cbn; [done|].
  rewrite andb_false_iff. intros [Hhead|Htail].
  - apply negb_false_iff, bool_decide_eq_true in Hhead as [-> Hu].
    exists u. split; [left|done].
  - destruct (IH Htail) as (u' & Hin & Hu'). exists u'. split; [by right|done].
Qed.

Lemma filter_ne_perm v l :
  NoDup l → v ∈ l → v :: filter (fun x => x ≠ v) l ≡ₚ l.
Proof.
  induction 1 as [|x l Hx Hnd IH]; [by inversion 1|].
  rewrite filter_cons. intros [->|Hin]%elem_of_cons.
  - rewrite decide_False by naive_solver. f_equiv.
    clear IH. induction l as [|y l IHl]; [done|].
    apply not_elem_of_cons in Hx as [Hne Hx]. apply NoDup_cons in Hnd as [_ ?].
    rewrite filter_cons, decide_True by done. f_equiv. by apply IHl.
  - rewrite decide_True by (intros ->; done).
    rewrite Permutation_swap. f_equiv. by apply IH.
Qed.

(** What Kahn's loop returns: the nodes it sorted and the nodes it could not
    sort are the nodes it was given; every edge into a sorted node from a
    node it was given points forward; and, unless the fuel ran out, none of
    the nodes left over is free of predecessors among them. *)
Lemma kahn_spec fuel g remaining sorted rest :
  NoDup remaining → kahn fuel g remaining = (sorted, rest) →
  sorted ++ rest ≡ₚ remaining ∧
  (∀ u v, (u, v) ∈ edges g → v ∈ sorted → u ∈ remaining →
          before u v sorted) ∧
  (length remaining ≤ fuel → ∀ v, v ∈ rest → ready g rest v = false).
Proof.
  revert remaining sorted rest.
  induction fuel as [|fuel IH]; intros remaining sorted rest Hnd; cbn.
  - intros [= <- <-]. split; [done|]. split; [by inversion 2|].
    intros Hlen. destruct remaining; [by inversion 1|cbn in Hlen; lia].
  - destruct (find (ready g remaining) remaining) as [v0|] eqn:Hfind.
    + apply find_some in Hfind as [Hv0 Hready].
      apply list_elem_of_In in Hv0.
      destruct (kahn fuel g (filter (fun x => x ≠ v0) remaining))
        as [sorted' rest'] eqn:Hkahn.
      intros [= <- <-].
      destruct (IH _ _ _ (NoDup_filter _ _ Hnd) Hkahn)
        as (Hperm & Horder & Hstuck).
      pose proof (filter_ne_perm v0 remaining Hnd Hv0) as Hsplit.
      split; [|split].
      * cbn. by rewrite Hperm.
      * intros u v Hedge Hv Hu.
        apply elem_of_cons in Hv as [->|Hv].
        { rewrite ready_true in Hready. by destruct (Hready u). }
        destruct (decide (u = v0)) as [->|Hne]; [by apply before_head|].
        apply before_cons, Horder; [done..|].
        apply list_elem_of_filter. done.
      * intros Hlen. apply Hstuck.
        apply Permutation_length in Hsplit. cbn in Hsplit. lia.
    + intros [= <- <-]. split; [done|]. split; [by inversion 2|].
      intros _ v Hv. apply list_elem_of_In in Hv.
      by apply (find_none _ _ Hfind).
Qed.

(** When every node of a list that is not empty has a predecessor in the
    list, the graph cannot be free of cycles. *)
Lemma stuck_has_cycle g l x :
  ¬ has_cycle g →
  x ∈ l → (∀ v, v ∈ l → ∃ u, (u, v) ∈ edges g ∧ u ∈ l) → False.
Proof.
  intros Hacyclic Hx Hpred.
  set (R := fun v u : nat => (u, v) ∈ edges g ∧ u ∈ l).
  assert (Hflip : ∀ a b, tc R a b → tc (edge g) b a ∧ b ∈ l).
  { induction 1 as [a b [? ?]|a b c [? ?] _ [IH ?]].
    - split; [by apply tc_once|done].
    - split; [|done]. eapply tc_r; [exact IH|done]. }
  assert (Hsn : ∀ a, sn R a).
  { intros a. apply tc_finite_sn.
    - intros b Hb. apply Hacyclic. exists b. by destruct (Hflip b b Hb).
    - exists l. intros b Hb. by destruct (Hflip a b Hb). }
  revert Hx. induction (Hsn x) as [x _ IH]. intros Hx.
  destruct (Hpred x Hx) as (u & Hedge & Hu).
  by apply (IH u).
Qed.

End GraphFacts.

Section KahnContract.
Import NetworkX.

(** Kahn's algorithm meets the contract of the library. *)
Lemma kahn_contract : Contract kahn_algorithms.
Proof.
  split.
  - intros g Hclosed Hnd. cbn. unfold kahn_sort.
    destruct (kahn (length (nodes g)) g (nodes g)) as [sorted rest] eqn:Hk.
    destruct (kahn_spec _ _ _ _ _ Hnd Hk) as (Hperm & Horder & Hstuck).
    cbn. rewrite bool_decide_eq_true. split.
    + intros ->. rewrite app_nil_r in Hperm. intros [v Hv].
      assert (Hnd' : NoDup sorted) by (by rewrite Hperm).
      assert (Hforward : ∀ a b, tc (edge g) a b → before a b sorted).
      { induction 1 as [a b Hab|a b c Hab _ IH].
        - destruct (Hclosed a b Hab). apply Horder; [done| |done].
          by rewrite Hperm.
        - apply (before_trans a b c); [done| |done].
          destruct (Hclosed a b Hab). apply Horder; [done| |done].
          by rewrite Hperm. }
      by apply (before_irrefl v sorted Hnd'), Hforward.
    + intros Hacyclic. destruct rest as [|x rest']; [done|]. exfalso.
      apply (stuck_has_cycle g (x :: rest') x Hacyclic); [left|].
      intros v Hv. apply ready_false, Hstuck; [lia|done].
  - intros g Hclosed Hnd. cbn. unfold kahn_sort.
    destruct (kahn (length (nodes g)) g (nodes g)) as [sorted rest] eqn:Hk.
    destruct (kahn_spec _ _ _ _ _ Hnd Hk) as (Hperm & _ & _).
    cbn. rewrite bool_decide_eq_true. intros ->.
    by rewrite app_nil_r in Hperm.
  - intros g u v Hclosed Hnd. cbn. unfold kahn_sort.
    destruct (kahn (length (nodes g)) g (nodes g)) as [sorted rest] eqn:Hk.
    destruct (kahn_spec _ _ _ _ _ Hnd Hk) as (Hperm & Horder & _).
    cbn. rewrite bool_decide_eq_true. intros -> Huv.
    rewrite app_nil_r in Hperm. destruct (Hclosed u v Huv).
    apply Horder; [done| |done]. by rewrite Hperm.
Qed.

End KahnContract.

(* ===================================================================== *)
(** * The pipeline controller: lemmas *)
(* ===================================================================== *)

Section BuiltGraph.
Import Python Constants NetworkX.
Implicit Types (g : DiGraph) (heap : nat → Pipeline.BaseNode).

Lemma add_node_nodes n g v : v ∈ nodes (add_node n g) ↔ v = n ∨ v ∈ nodes g.
Proof.
  unfold add_node. destruct (decide (n ∈ nodes g)); cbn.
  - naive_solver.
  - rewrite elem_of_app, list_elem_of_singleton. naive_solver.
Qed.

Lemma add_node_edges n g : edges (add_node n g) = edges g.
Proof. unfold add_node. by destruct (decide _). Qed.

Lemma add_node_well_built n g : well_built g → well_built (add_node n g).
Proof.
  intros [Hclosed Hnd]. split.
  - intros u v. rewrite add_node_edges, !add_node_nodes.
    intros Huv. destruct (Hclosed u v Huv). auto.
  - unfold add_node. destruct (decide (n ∈ nodes g)); [done|]. cbn.
    apply NoDup_app. split; [done|]. split; [|apply NoDup_singleton].
    intros x Hx ->%list_elem_of_singleton. done.
Qed.

Lemma add_edge_nodes a b g v :
  v ∈ nodes (add_edge a b g) ↔ v = a ∨ v = b ∨ v ∈ nodes g.
Proof.
  unfold add_edge. destruct (decide _); cbn; rewrite !add_node_nodes;
    naive_solver.
Qed.

Lemma add_edge_edges a b g e :
  e ∈ edges (add_edge a b g) ↔ e = (a, b) ∨ e ∈ edges g.
Proof.
  unfold add_edge. rewrite !add_node_edges.
  destruct (decide ((a, b) ∈ edges g)); cbn; rewrite ?add_node_edges.
  - naive_solver.
  - rewrite elem_of_app, list_elem_of_singleton. naive_solver.
Qed.

Lemma add_edge_well_built a b g : well_built g → well_built (add_edge a b g).
Proof.
  intros Hg. split.
  - intros u v. rewrite add_edge_edges, !add_edge_nodes.
    intros [[= -> ->]|Huv]; [auto|].
    destruct Hg as [Hclosed _]. destruct (Hclosed u v Huv). auto.
  - apply (add_node_well_built a), (add_node_well_built b) in Hg.
    unfold add_edge. destruct (decide _); apply Hg.
Qed.

(** The first loop: a node per item, no edge. *)
Lemma add_nodes_spec items g :
  well_built g →
  let g' := fold_left (fun g node => add_node node g) items g in
  well_built g' ∧ edges g' = edges g ∧
  (∀ v, v ∈ nodes g' ↔ v ∈ items ∨ v ∈ nodes g).
Proof.
  revert g. induction items as [|n items IH]; intros g Hg; cbn.
  - split; [done|]. split; [done|]. intros v. rewrite elem_of_nil. naive_solver.
  - destruct (IH (add_node n g)) as (Hwb & -> & Hnodes);
      [by apply add_node_well_built|].
    split; [done|]. split; [apply add_node_edges|].
    intros v. rewrite Hnodes, add_node_nodes, elem_of_cons. naive_solver.
Qed.

(** The inner loop of the second: an edge from each predecessor. *)
Lemma add_predecessor_edges_spec heap g node :
  well_built g →
  let g' := Pipeline.add_predecessor_edges heap g node in
  well_built g' ∧
  (∀ u v, (u, v) ∈ edges g' ↔
          (v = node ∧ u ∈ Pipeline.predecessors (heap node)) ∨
          (u, v) ∈ edges g).
Proof.
  unfold Pipeline.add_predecessor_edges.
  generalize (Pipeline.predecessors (heap node)) as ps.
  intros ps. revert g. induction ps as [|p ps IH]; intros g Hg; cbn.
  - split; [done|]. intros u v. rewrite elem_of_nil. naive_solver.
  - destruct (IH (add_edge p node g)) as (Hwb & Hedges);
      [by apply add_edge_well_built|].
    split; [done|]. intros u v.
    rewrite Hedges, add_edge_edges, elem_of_cons. naive_solver.
Qed.

(** The second loop: the edges are the predecessor relation of the items. *)
Lemma add_all_predecessor_edges_spec heap items g :
  well_built g →
  let g' := fold_left (Pipeline.add_predecessor_edges heap) items g in
  well_built g' ∧
  (∀ u v, (u, v) ∈ edges g' ↔
          Pipeline.depends heap items u v ∨ (u, v) ∈ edges g).
Proof.
  unfold Pipeline.depends.
  revert g. induction items as [|n items IH]; intros g Hg; cbn.
  - split; [done|]. intros u v. rewrite elem_of_nil. naive_solver.
  - destruct (add_predecessor_edges_spec heap g n Hg) as (Hwb1 & Hedges1).
    destruct (IH _ Hwb1) as (Hwb & Hedges).
    split; [done|]. intros u v.
    rewrite Hedges, Hedges1, elem_of_cons. naive_solver.
Qed.

Lemma empty_well_built : well_built empty.
Proof. split; [by inversion 1|apply NoDup_nil_2]. Qed.

(** From a collection that can be walked again the constructor builds the
    graph of the predecessor relation. *)
Lemma built_graph_sequence heap items :
  well_built (Pipeline.built_graph heap (Pipeline.Sequence items)) ∧
  ∀ u v, edge (Pipeline.built_graph heap (Pipeline.Sequence items)) u v ↔
         Pipeline.depends heap items u v.
Proof.
  unfold Pipeline.built_graph, edge. cbn.
  destruct (add_nodes_spec items empty empty_well_built) as (Hwb & He & _).
  destruct (add_all_predecessor_edges_spec heap items _ Hwb) as (Hwb' & Hedges).
  split; [done|]. intros u v. rewrite Hedges, He. cbn.
  rewrite elem_of_nil. naive_solver.
Qed.

(** From an iterator it builds a graph without edges: the second walk
    yields nothing. *)
Lemma built_graph_iterator heap items :
  well_built (Pipeline.built_graph heap (Pipeline.Iterator items)) ∧
  edges (Pipeline.built_graph heap (Pipeline.Iterator items)) = [].
Proof.
  unfold Pipeline.built_graph. cbn.
  destruct (add_nodes_spec items empty empty_well_built) as (Hwb & He & _).
  done.
Qed.

Context `{!Algorithms}.

(** The outcome of the constructor is decided by the graph it built. *)
Lemma Pipeline_init_outcome nodes logger heap :
  (Pipeline.Pipeline_init nodes logger heap).1.1
  = if is_directed_acyclic_graph (Pipeline.built_graph heap nodes) then
      Return (Pipeline.mkPipeline
                (Pipeline.built_graph heap nodes)
                (topological_sort (Pipeline.built_graph heap nodes)))
    else
      Raised (InvalidNodeDependencyError
                "Node Dependencies do not form a Directed Acyclic Graph").
Proof.
  unfold Pipeline.Pipeline_init, Pipeline.built_graph.
  destruct nodes, logger; cbn; by destruct (is_directed_acyclic_graph _).
Qed.

End BuiltGraph.

Section Controller.
Import Python Constants NetworkX.
Implicit Types (heap : nat → Pipeline.BaseNode).





End Controller.

(* ===================================================================== *)
(** * The pipeline controller: what the specification says *)
(* ===================================================================== *)

Section ControllerClaims.
Import Python Constants NetworkX.
Context `{A : Algorithms} `{!Contract A}.
Implicit Types (heap : nat → Pipeline.BaseNode).

Lemma built_graph_well_built heap nodes :
  well_built (Pipeline.built_graph heap nodes).
Proof.
  destruct nodes as [items|items].
  - apply built_graph_sequence.
  - apply built_graph_iterator.
Qed.

(** From a list (or any collection that can be walked again) whose
    predecessor relation has a cycle, the constructor raises
    [InvalidNodeDependencyError]; nothing in [__init__] catches it. *)
Lemma Pipeline_init_sequence_rejects_cycle items logger heap :
  (∃ v, tc (Pipeline.depends heap items) v v) →
  (Pipeline.Pipeline_init (Pipeline.Sequence items) logger heap).1.1
  = Raised (InvalidNodeDependencyError
              "Node Dependencies do not form a Directed Acyclic Graph").
Proof.
  intros [v Hv]. rewrite Pipeline_init_outcome.
  destruct (built_graph_sequence heap items) as ([Hclosed Hnd] & Hedges).
  destruct (is_directed_acyclic_graph _) eqn:Hdag; [exfalso|done].
  apply is_directed_acyclic_graph_spec in Hdag; [|done..].
  apply Hdag. exists v.
  assert (Htc : ∀ a b, tc (Pipeline.depends heap items) a b →
                       tc (edge (Pipeline.built_graph
                                   heap (Pipeline.Sequence items))) a b).
  { induction 1 as [a b Hab|a b c Hab _ IH].
    - apply tc_once. by apply Hedges.
    - eapply tc_l; [|exact IH]. by apply Hedges. }
  by apply Htc.
Qed.

(** From an iterator the constructor never raises, whatever the predecessor
    relation: the graph it checks has no edge. *)
Lemma Pipeline_init_iterator_returns items logger heap :
  ∃ p, (Pipeline.Pipeline_init (Pipeline.Iterator items) logger heap).1.1
       = Return p ∧ edges (Pipeline.graph p) = [].
Proof.
  rewrite Pipeline_init_outcome.
  destruct (built_graph_iterator heap items) as ([Hclosed Hnd] & Hedges).
  destruct (is_directed_acyclic_graph _) eqn:Hdag.
  - eexists. split; [done|]. done.
  - exfalso. apply not_true_iff_false in Hdag. apply Hdag.
    apply is_directed_acyclic_graph_spec; [done..|].
    intros [v Hv]. unfold edge in Hv. rewrite Hedges in Hv.
    destruct Hv as [?? He|?? ? He _]; by apply elem_of_nil in He.
Qed.


End ControllerClaims.

Section ControllerExamples.
Import Python Constants NetworkX Examples.

(** C5 on the source: the two nodes name each other as predecessor.  Handed
    over as a list they are rejected; handed over as an iterator (a
    generator, say) they are accepted, the pipeline is built and the cycle
    goes unnoticed. *)
Theorem Pipeline_init_iterator_misses_cycle :
  tc (Pipeline.depends cyclic_heap [1; 2]) 1 1 ∧
  (Pipeline.Pipeline_init (H := kahn_algorithms)
     (Pipeline.Sequence [1; 2]) None cyclic_heap).1.1
  = Raised (InvalidNodeDependencyError
              "Node Dependencies do not form a Directed Acyclic Graph") ∧
  (Pipeline.Pipeline_init (H := kahn_algorithms)
     (Pipeline.Iterator [1; 2]) None cyclic_heap).1.1
  = Return (Pipeline.mkPipeline (mkDiGraph [1; 2] []) [1; 2]).
Proof.
  split; [|split; reflexivity].
  apply (tc_l _ 1 2 1); [|apply tc_once]; split; cbn; set_solver.
Qed.


End ControllerExamples.

(* ===================================================================== *)
(** * The AndAnd barrier *)
(* ===================================================================== *)

Section Barrier.
Import Python Constants Logic.
Implicit Types (self : AndAndNode) (check : AndAndNode → bool).

Lemma fold_deliver_fields batch self :
  let self' := fold_left deliver batch self in
  predecessors self' = predecessors self ∧
  successors self' = successors self ∧
  pending self' = pending self ∧
  trace self' = trace self.
Proof.
  revert self. induction batch as [|d batch IH]; intros self; cbn; [done|].
  destruct (IH (deliver self d)) as (-> & -> & -> & ->). by destruct d.
Qed.

Lemma sleep_fields self :
  predecessors (sleep self) = predecessors self ∧
  successors (sleep self) = successors self ∧
  trace (sleep self) = trace self ∧
  length (pending (sleep self)) = pred (length (pending self)).
Proof.
  unfold sleep. destruct (pending self) as [|batch rest] eqn:Hp.
  - by rewrite Hp.
  - match goal with
    | |- context [fold_left deliver batch ?s] =>
      destruct (fold_deliver_fields batch s) as (-> & -> & -> & ->)
    end. done.
Qed.

Lemma fold_deliver_record ev batch self :
  fold_left deliver batch (record ev self)
  = record ev (fold_left deliver batch self).
Proof.
  revert self. induction batch as [|d batch IH]; intros self; cbn; [done|].
  rewrite <- IH. f_equal. by destruct d.
Qed.

(** Recording does not depend on when the others deliver. *)
Lemma sleep_record ev self : sleep (record ev self) = record ev (sleep self).
Proof.
  unfold sleep. cbn. destruct (pending self); [done|].
  by rewrite <- fold_deliver_record.
Qed.

Lemma iter_sleep_record k ev self :
  Nat.iter k sleep (record ev self) = record ev (Nat.iter k sleep self).
Proof.
  induction k as [|k IH]; [done|].
  by rewrite !Nat.iter_succ, IH, sleep_record.
Qed.

Lemma iter_sleep_fields k self :
  predecessors (Nat.iter k sleep self) = predecessors self ∧
  successors (Nat.iter k sleep self) = successors self ∧
  trace (Nat.iter k sleep self) = trace self ∧
  length (pending (Nat.iter k sleep self)) = length (pending self) - k.
Proof.
  induction k as [|k (IH1 & IH2 & IH3 & IH4)]; [cbn; repeat split; lia|].
  rewrite Nat.iter_succ.
  destruct (sleep_fields (Nat.iter k sleep self)) as (-> & -> & -> & ->).
  repeat split; try done. lia.
Qed.

Lemma record_record ev1 ev2 self :
  record ev2 (record ev1 self) = record (ev1 ++ ev2) self.
Proof. unfold record. cbn. by rewrite app_assoc. Qed.

(** What a wait that ends has done: it slept [k] times, the check failed
    before each sleep and holds now, and the [k + 1] answers are recorded. *)
Lemma wait_until_Some check answered n self self' :
  (∀ ev s, check (record ev s) = check s) →
  wait_until check answered n self = Some self' →
  ∃ k, k ≤ n ∧
       (∀ j, j < k → check (Nat.iter j sleep self) = false) ∧
       check (Nat.iter k sleep self) = true ∧
       self' = record (replicate k (answered false) ++ [answered true])
                      (Nat.iter k sleep self).
Proof.
  intros Hcheck. revert self. induction n as [|n IH]; intros self; cbn.
  - destruct (check self) eqn:Hc; [|done]. intros [= <-].
    exists 0. split; [lia|]. split; [lia|]. done.
  - destruct (check self) eqn:Hc.
    + intros [= <-]. exists 0. split; [lia|]. split; [lia|]. done.
    + intros Hwait. apply IH in Hwait as (k & Hk & Hfalse & Htrue & ->).
      rewrite sleep_record, iter_sleep_record in *.
      rewrite Hcheck in Htrue.
      exists (S k). split; [lia|]. split; [|split].
      * intros [|j] Hj; [done|].
        specialize (Hfalse j). rewrite iter_sleep_record, Hcheck in Hfalse.
        rewrite Nat.iter_succ_r. apply Hfalse. lia.
      * by rewrite Nat.iter_succ_r.
      * rewrite record_record. by rewrite Nat.iter_succ_r.
Qed.

(** A wait ends when the check comes to hold within the sleeps it has. *)
Lemma wait_until_returns check answered n self k :
  (∀ ev s, check (record ev s) = check s) →
  k ≤ n → check (Nat.iter k sleep self) = true →
  is_Some (wait_until check answered n self).
Proof.
  intros Hcheck. revert self k. induction n as [|n IH]; intros self k Hk; cbn.
  - replace k with 0 by lia. cbn. intros ->. by eexists.
  - destruct (check self) eqn:Hc; [by eexists|].
    destruct k as [|k]; [cbn; congruence|].
    rewrite Nat.iter_succ_r. intros Htrue.
    apply (IH _ k); [lia|].
    by rewrite sleep_record, iter_sleep_record, Hcheck.
Qed.

Lemma check_predecessors_record ev self :
  check_predecessors_signals (record ev self) = check_predecessors_signals self.
Proof. done. Qed.

Lemma check_successors_record ev self :
  check_successors_signals (record ev self) = check_successors_signals self.
Proof. done. Qed.

Lemma check_predecessors_true self :
  check_predecessors_signals self = true ↔
  ∀ p, p ∈ predecessors self → predecessors_signals self !! p = Some RSUCCESS.
Proof.
  unfold check_predecessors_signals. rewrite forallb_forall. split.
  - intros Hall p Hp. apply list_elem_of_In in Hp.
    specialize (Hall p Hp). by apply bool_decide_eq_true in Hall.
  - intros Hall p Hp. apply list_elem_of_In in Hp.
    apply bool_decide_eq_true. by apply Hall.
Qed.

Lemma check_successors_true self :
  check_successors_signals self = true ↔
  ∀ s, s ∈ successors self → successors_signals self !! s = Some RSUCCESS.
Proof.
  unfold check_successors_signals. rewrite forallb_forall. split.
  - intros Hall p Hp. apply list_elem_of_In in Hp.
    specialize (Hall p Hp). by apply bool_decide_eq_true in Hall.
  - intros Hall p Hp. apply list_elem_of_In in Hp.
    apply bool_decide_eq_true. by apply Hall.
Qed.

End Barrier.

Section BarrierClaims.
Import Python Constants Logic.
Implicit Types (self : AndAndNode).

(** C9.  A pass of [AndAndNode.run] that ends has gone through the four
    phases in order, with nothing else in between: it polled until every
    predecessor had signaled SUCCESS ([k1] sleeps), signaled SUCCESS to
    every successor, polled until every successor had signaled SUCCESS back
    ([k2] more sleeps), and signaled SUCCESS to every predecessor.  At the
    moment the successors are signaled all predecessors have signaled, and at
    the moment the predecessors are signaled all successors have.  A pass
    ends whenever the signals it waits for arrive. *)
Theorem AndAnd_iteration_phases self :
  (∀ self',
      iteration self = Some self' →
      ∃ k1 k2,
        (∀ j, j < k1 →
              check_predecessors_signals (Nat.iter j sleep self) = false) ∧
        (∀ p, p ∈ predecessors self →
              predecessors_signals (Nat.iter k1 sleep self) !! p
              = Some RSUCCESS) ∧
        (∀ j, j < k2 →
              check_successors_signals (Nat.iter (k1 + j) sleep self) = false) ∧
        (∀ s, s ∈ successors self →
              successors_signals (Nat.iter (k1 + k2) sleep self) !! s
              = Some RSUCCESS) ∧
        trace self'
        = trace self
          ++ replicate k1 (CheckedPredecessors false)
          ++ [CheckedPredecessors true;
              Log "all resource nodes have finished updating its state."]
          ++ ((fun n => SignalSuccessor n RSUCCESS) <$> successors self)
          ++ replicate k2 (CheckedSuccessors false)
          ++ [CheckedSuccessors true;
              Log "all action nodes have finished using the current state."]
          ++ ((fun n => SignalPredecessor n RSUCCESS) <$> predecessors self)) ∧
  (∀ k1 k,
      k1 ≤ k → k ≤ length (pending self) →
      check_predecessors_signals (Nat.iter k1 sleep self) = true →
      check_successors_signals (Nat.iter k sleep self) = true →
      is_Some (iteration self)).
Proof.
  split.
  - intros self'. unfold iteration.
    destruct (wait_predecessors _ self) as [s1|] eqn:Hw1; [|done]. cbn.
    apply wait_until_Some in Hw1 as (k1 & _ & Hfalse1 & Htrue1 & ->);
      [|apply check_predecessors_record].
    match goal with
    | |- context [wait_successors ?n ?s] =>
      destruct (wait_successors n s) as [s2|] eqn:Hw2; [|done]
    end.
    cbn. intros [= <-].
    apply wait_until_Some in Hw2 as (k2 & _ & Hfalse2 & Htrue2 & ->);
      [|apply check_successors_record].
    unfold signal_successors, signal_predecessors, log in *.
    rewrite !record_record, !iter_sleep_record in *.
    rewrite check_successors_record in Htrue2.
    rewrite <- Nat.iter_add in Htrue2.
    destruct (iter_sleep_fields k1 self) as (Hp1 & Hs1 & Ht1 & _).
    destruct (iter_sleep_fields (k2 + k1) self) as (Hp2 & Hs2 & Ht2 & _).
    exists k1, k2. split; [done|]. split; [|split; [|split]].
    + intros p Hp.
      apply (proj1 (check_predecessors_true _) Htrue1). by rewrite Hp1.
    + intros j Hj. specialize (Hfalse2 j Hj).
      rewrite !iter_sleep_record, check_successors_record in Hfalse2.
      rewrite <- Nat.iter_add in Hfalse2.
      by replace (k1 + j) with (j + k1) by lia.
    + intros s Hs. replace (k1 + k2) with (k2 + k1) by lia.
      apply (proj1 (check_successors_true _) Htrue2). by rewrite Hs2.
    + cbn. rewrite <- Nat.iter_add, Ht2, Hs1, Hp2.
      rewrite <- !app_assoc. done.
  - intros k1 k Hk1 Hk Hpre Hsucc. unfold iteration.
    destruct (wait_until_returns check_predecessors_signals
                CheckedPredecessors (length (pending self)) self k1)
      as [s1 Hw1]; [apply check_predecessors_record|lia|done|].
    unfold wait_predecessors. rewrite Hw1. cbn.
    apply wait_until_Some in Hw1 as (j1 & Hj1 & Hfalse1 & _ & ->);
      [|apply check_predecessors_record].
    assert (j1 ≤ k1).
    { destruct (decide (j1 ≤ k1)); [done|].
      rewrite Hfalse1 in Hpre by lia. done. }
    unfold signal_successors, log. rewrite !record_record.
    match goal with
    | |- context [wait_successors ?n ?s] =>
      destruct (wait_until_returns check_successors_signals
                  CheckedSuccessors n s (k - j1)) as [s2 Hw2]
    end.
    + apply check_successors_record.
    + cbn. destruct (iter_sleep_fields j1 self) as (_ & _ & _ & ->). lia.
    + rewrite iter_sleep_record, check_successors_record.
      rewrite <- Nat.iter_add. by replace (k - j1 + j1) with k by lia.
    + unfold wait_successors. rewrite Hw2. by eexists.
Qed.

End BarrierClaims.

Section BarrierExamples.
Import Python Constants Logic Examples.

(** [AndAnd_iteration_phases] on the barrier between the producers 1, 2 and
    the consumer 3: one sleep until both producers have signaled, two more
    until the consumer has answered. *)
Lemma AndAnd_iteration_phases_witness :
  ∃ self',
    iteration barrier = Some self' ∧
    trace self'
    = [CheckedPredecessors false; CheckedPredecessors true;
       Log "all resource nodes have finished updating its state.";
       SignalSuccessor 3 RSUCCESS;
       CheckedSuccessors false; CheckedSuccessors false;
       CheckedSuccessors true;
       Log "all action nodes have finished using the current state.";
       SignalPredecessor 1 RSUCCESS; SignalPredecessor 2 RSUCCESS].
Proof.
  destruct (AndAnd_iteration_phases barrier) as [_ Hreturns].
  destruct (Hreturns 1 3) as [self' Hit]; [lia|cbn; lia|reflexivity..|].
  exists self'. split; [done|].
  vm_compute in Hit. injection Hit as <-. reflexivity.
Defined.

End BarrierExamples.

(* ===================================================================== *)
(** * Signal expressions: further properties *)
(* ===================================================================== *)

Section SignalAlgebra.
Import Python Constants Node.

Lemma elem_of_concat {A} (x : A) (ls : list (list A)) :
  x ∈ concat ls ↔ ∃ l, x ∈ l ∧ l ∈ ls.
Proof.
  induction ls as [|l ls IH]; cbn.
  - rewrite elem_of_nil. split; [done|]. intros (l & _ & Hl).
    by apply elem_of_nil in Hl.
  - rewrite elem_of_app, IH. split.
    + intros [Hx|(l' & Hx & Hl')]; [exists l|exists l']; set_solver.
    + intros (l' & Hx & [->|Hl']%elem_of_cons); [by left|right; eauto].
Qed.

(** The nodes of an expression are the nodes of its parameters, in order. *)
Lemma _nodes_unfold op ps :
  _nodes (Build_SignalAST op ps)
  = concat ((fun p : NodeRef + SignalAST =>
               match p with
               | inl n => [n]
               | inr a => _nodes a
               end) <$> ps).
Proof.
  cbn [_nodes]. induction ps as [|[n|a] ps IH]; cbn; [done| |]; by rewrite IH.
Qed.

Lemma evaluate_params_ext node1 node2 ps :
  Forall (fun p => evaluate_param node1 p = evaluate_param node2 p) ps →
  evaluate_params node1 ps = evaluate_params node2 ps.
Proof.
  induction 1 as [|p ps Hp _ IH]; cbn; [done|]. by rewrite Hp, IH.
Qed.

(** X1.  [evaluate] reads nothing of the node but the received signals of
    the nodes that occur in the expression: two nodes that agree on those
    give the same result, be it a value or an exception. *)
Theorem evaluate_reads_only_its_nodes ast node1 node2 :
  (∀ n, n ∈ _nodes ast →
        received_signals node1 !! ref_name n
        = received_signals node2 !! ref_name n) →
  evaluate ast node1 = evaluate ast node2.
Proof.
  induction ast as [op ps IH] using SignalAST_ind_params.
  rewrite _nodes_unfold. intros Hagree. rewrite !evaluate_unfold.
  rewrite (evaluate_params_ext node1 node2 ps); [done|].
  rewrite Forall_forall in IH |- *. intros p Hp.
  destruct p as [n|a]; cbn.
  - unfold leaf_value. rewrite Hagree; [done|].
    apply elem_of_concat. exists [n]. split; [set_solver|].
    apply list_elem_of_fmap. by exists (inl n).
  - apply (IH _ Hp). intros n Hn. apply Hagree.
    apply elem_of_concat. exists (_nodes a). split; [done|].
    apply list_elem_of_fmap. by exists (inr a).
Qed.

(** The parameters wrapped in NOT evaluate to the complements. *)
Lemma evaluate_params_Not node ps :
  evaluate_params node ((fun p => inr (Not p)) <$> ps)
  = match evaluate_params node ps with
    | Return vs => Return (negb <$> vs)
    | Raised e => Raised e
    end.
Proof.
  induction ps as [|p ps IH]; cbn [fmap list_fmap evaluate_params]; [done|].
  rewrite IH. cbn [evaluate_param]. unfold Not. rewrite evaluate_unfold.
  cbn [evaluate_params].
  destruct (evaluate_param node p) as [v|e]; cbn; [|done].
  by destruct (evaluate_params node ps).
Qed.

Lemma negb_all vs : negb (all vs) = any (negb <$> vs).
Proof.
  unfold all, any. induction vs as [|[] vs IH]; cbn; [done|exact IH|done].
Qed.

Lemma negb_any vs : negb (any vs) = all (negb <$> vs).
Proof.
  unfold all, any. induction vs as [|[] vs IH]; cbn; [done|done|exact IH].
Qed.

(** X2.  The gates obey De Morgan's laws and double negation, exceptions
    included: [~(a & b & ...)] evaluates as [~a | ~b | ...],
    [~(a | b | ...)] as [~a & ~b & ...], and [~~a] as [a]. *)
Theorem evaluate_de_morgan ps p node :
  evaluate (Not (inr (And ps))) node
  = evaluate (Or ((fun p => inr (Not p)) <$> ps)) node ∧
  evaluate (Not (inr (Or ps))) node
  = evaluate (And ((fun p => inr (Not p)) <$> ps)) node ∧
  evaluate (Not (inr (Not p))) node = evaluate_param node p.
Proof.
  unfold Not, And, Or. rewrite !evaluate_unfold.
  cbn [evaluate_params evaluate_param]. rewrite !evaluate_unfold.
  rewrite !evaluate_params_Not. cbn [evaluate_params].
  split; [|split].
  - destruct (evaluate_params node ps) as [vs|e]; cbn; [|done].
    by rewrite negb_all.
  - destruct (evaluate_params node ps) as [vs|e]; cbn; [|done].
    by rewrite negb_any.
  - destruct (evaluate_param node p) as [v|e]; cbn; [|done].
    by rewrite negb_involutive.
Qed.

(** X3.  A node constructed with a list of plain nodes as [listen_to] has
    the AND of these nodes as its gate: the gate never raises, and it is True
    exactly when the latest message received from every one of them carries
    SUCCESS. *)
Theorem default_gate_is_all_success ident name signal_type ns auto node :
  ∃ b,
    evaluate (signal_ast (BaseNode_init ident name signal_type
                                        (inl <$> ns) auto)) node
    = Return b ∧
    (b = true ↔
     ∀ n, n ∈ ns →
          ∃ m, received_signals node !! ref_name n = Some m ∧
               status m = Some SUCCESS).
Proof.
  cbn [BaseNode_init signal_ast]. unfold And. rewrite evaluate_unfold.
  assert (Hps : evaluate_params node (inl <$> ns)
                = Return ((fun n => leaf_value n node) <$> ns)).
  { induction ns as [|n ns IH]; [done|].
    cbn [fmap list_fmap evaluate_params evaluate_param].
    cbn in IH. by rewrite IH. }
  rewrite Hps. cbn [apply_operation]. eexists. split; [done|].
  unfold all. rewrite forallb_forall. split.
  - intros Hall n Hn.
    assert (Hv : leaf_value n node = true).
    { apply Hall, list_elem_of_In, list_elem_of_fmap. by exists n. }
    unfold leaf_value in Hv.
    destruct (received_signals node !! ref_name n) as [m|]; [|done].
    exists m. split; [done|]. by apply bool_decide_eq_true in Hv.
  - intros Hall b Hb%list_elem_of_In.
    apply list_elem_of_fmap in Hb as (n & -> & Hn).
    destruct (Hall n Hn) as (m & Hm & Hs). unfold leaf_value.
    rewrite Hm. by apply bool_decide_eq_true.
Qed.

(** X4.  The constructor makes [dependent_nodes] the set of the nodes that
    occur in the gate: each of them once, and no other. *)
Theorem BaseNode_init_dependent_nodes ident name signal_type listen_to auto :
  NoDup (dependent_nodes
           (BaseNode_init ident name signal_type listen_to auto)) ∧
  ∀ n, n ∈ dependent_nodes
             (BaseNode_init ident name signal_type listen_to auto) ↔
       n ∈ _nodes (signal_ast
                     (BaseNode_init ident name signal_type listen_to auto)).
Proof.
  cbn [BaseNode_init dependent_nodes signal_ast].
  split; [apply NoDup_remove_dups|]. intros n.
  unfold And. rewrite _nodes_unfold, elem_of_remove_dups.
  rewrite !elem_of_concat. split.
  - intros (l & Hn & Hl). apply list_elem_of_fmap in Hl as ([m|a] & -> & Hin).
    + exists [m]. split; [done|]. apply list_elem_of_fmap. by exists (inl m).
    + unfold nodes in Hn. rewrite elem_of_remove_dups in Hn.
      exists (_nodes a). split; [done|].
      apply list_elem_of_fmap. by exists (inr a).
  - intros (l & Hn & Hl). apply list_elem_of_fmap in Hl as ([m|a] & -> & Hin).
    + exists [m]. split; [done|]. apply list_elem_of_fmap. by exists (inl m).
    + exists (nodes a). split; [by apply elem_of_remove_dups|].
      apply list_elem_of_fmap. by exists (inr a).
Qed.

(** X5.  As the source reduces, an XOR of two parameters or more is never
    True: a gate [a ^ b] never opens. *)
Theorem xor_of_many_is_never_true ps node :
  2 ≤ length ps → evaluate (XOr ps) node ≠ Return true.
Proof.
  intros Hlen. unfold XOr.
  destruct (evaluate_params node ps) as [vs|e] eqn:Hvs.
  - by rewrite (evaluate_xor_many node ps vs Hvs Hlen).
  - by rewrite evaluate_unfold, Hvs.
Qed.

End SignalAlgebra.

(* ===================================================================== *)
(** * The worker: further properties *)
(* ===================================================================== *)

Section WorkerMore.
Import Python Constants Node.
Context {U : Type}.
Implicit Types (w : World U) (hooks : Hooks U).

Lemma fold_apply_command_fields batch w :
  let w' := fold_left apply_command batch w in
  user w' = user w ∧ trace w' = trace w ∧ pending w' = pending w ∧
  ident (self w') = ident (self w) ∧
  successors (self w') = successors (self w) ∧
  (∀ k, k ≠ ident (self w) → queues w' !!! k = queues w !!! k) ∧
  (_status (self w') = _status (self w) ∨
   _status (self w') ∈ [PAUSED; RUNNING; STOPPING]).
Proof.
  revert w. induction batch as [|c batch IH]; intros w; cbn.
  - repeat split; auto.
  - destruct (IH (apply_command w c)) as (Hu & Ht & Hp & Hi & Hs & Hq & Hst).
    rewrite Hu, Ht, Hp, Hi, Hs.
    split; [by destruct c|]. split; [by destruct c|]. split; [by destruct c|].
    split; [by destruct c|]. split; [by destruct c|]. split.
    + intros k Hk. rewrite Hq by (by destruct c).
      destruct c; cbn; try done.
      unfold queue_put. by rewrite lookup_total_insert_ne.
    + destruct Hst as [->|Hin]; [|by right].
      destruct c; cbn; set_solver.
Qed.

(** [time.sleep] lets the others change the status, the trigger flag and
    this node's own queue, and nothing else. *)
Lemma sleep_world_fields w :
  user (sleep_world w) = user w ∧ trace (sleep_world w) = trace w ∧
  length (pending (sleep_world w)) = pred (length (pending w)) ∧
  ident (self (sleep_world w)) = ident (self w) ∧
  successors (self (sleep_world w)) = successors (self w) ∧
  (∀ k, k ≠ ident (self w) →
        queues (sleep_world w) !!! k = queues w !!! k) ∧
  (_status (self (sleep_world w)) = _status (self w) ∨
   _status (self (sleep_world w)) ∈ [PAUSED; RUNNING; STOPPING]).
Proof.
  unfold sleep_world. destruct (pending w) as [|batch rest] eqn:Hp.
  - rewrite Hp. repeat split; auto.
  - destruct (fold_apply_command_fields batch (update_pending rest w))
      as (-> & -> & -> & -> & -> & Hq & Hst).
    repeat split; done.
Qed.

Lemma wait_while_paused_resumed n w k :
  k ≤ n →
  (∀ j, j < k → _status (self (Nat.iter j sleep_world w)) = PAUSED) →
  _status (self (Nat.iter k sleep_world w)) ≠ PAUSED →
  wait_while_paused n w = Some (Nat.iter k sleep_world w).
Proof.
  revert n w. induction k as [|k IH]; intros n w Hk Hpaused Hfree.
  - cbn in Hfree. by apply wait_while_paused_unpaused.
  - destruct n as [|n]; [lia|]. cbn [wait_while_paused].
    rewrite decide_True by (apply (Hpaused 0); lia).
    rewrite Nat.iter_succ_r. apply IH; [lia| |by rewrite <- Nat.iter_succ_r].
    intros j Hj. rewrite <- Nat.iter_succ_r. apply Hpaused. lia.
Qed.

Lemma wait_while_paused_forever n w :
  (∀ j, j ≤ n → _status (self (Nat.iter j sleep_world w)) = PAUSED) →
  wait_while_paused n w = None.
Proof.
  revert w. induction n as [|n IH]; intros w Hpaused; cbn [wait_while_paused].
  - by rewrite decide_True by (apply (Hpaused 0); lia).
  - rewrite decide_True by (apply (Hpaused 0); lia).
    apply IH. intros j Hj. rewrite <- Nat.iter_succ_r. apply Hpaused. lia.
Qed.

(** X6.  A method decorated with [@pausable], called while the node is
    PAUSED, does nothing until a sleep ends with another status; it then
    runs in the state that sleep left, having done nothing before.  When the
    node stays PAUSED for good, the method is never run. *)
Theorem pausable_waits_for_resume {A} (func : M U A) w :
  (∀ k,
      k ≤ length (pending w) →
      (∀ j, j < k → _status (self (Nat.iter j sleep_world w)) = PAUSED) →
      _status (self (Nat.iter k sleep_world w)) ≠ PAUSED →
      pausable func w = func (Nat.iter k sleep_world w)) ∧
  ((∀ j, j ≤ length (pending w) →
         _status (self (Nat.iter j sleep_world w)) = PAUSED) →
   pausable func w = Blocked).
Proof.
  split.
  - intros k Hk Hpaused Hfree. unfold pausable.
    by rewrite (wait_while_paused_resumed _ w k).
  - intros Hpaused. unfold pausable.
    by rewrite wait_while_paused_forever.
Qed.

(** X7.  A pass that finds the status STOPPING calls [on_exit], sets EXITED
    and leaves the loop, so [run] returns; nothing is put into any queue.
    When [on_exit] raises, nothing catches the exception: it leaves [run]
    with the status still STOPPING, and EXITED is never set. *)
Theorem stopping_pass_exits hooks fuel w :
  _status (self w) = STOPPING →
  (∀ u1, on_exit hooks (user w) = (Return (), u1) →
         ∃ w', loop hooks (S fuel) w = Ok () w' ∧
               _status (self w') = EXITED ∧
               trace w' = trace w ++ [Call Hon_exit; SetStatus EXITED] ∧
               queues w' = queues w ∧ user w' = u1) ∧
  (∀ e u1, on_exit hooks (user w) = (Raised e, u1) →
           ∃ w', loop hooks (S fuel) w = Exc e w' ∧
                 _status (self w') = STOPPING ∧
                 trace w' = trace w ++ [Call Hon_exit] ∧
                 queues w' = queues w).
Proof.
  intros Hst.
  assert (Hdispatch : dispatch hooks w
                      = (call Hon_exit (on_exit hooks);;
                         set_status EXITED;; mret Fallthrough) w).
  { unfold dispatch. unfold mbind at 1, M_bind at 1, bind at 1.
    unfold get_status. rewrite Hst.
    by rewrite !decide_False, decide_True by done. }
  split.
  - intros u1 Hexit.
    assert (Hit : ∃ w', iteration hooks w = Ok Break w' ∧
                        _status (self w') = EXITED ∧
                        trace w' = trace w ++ [Call Hon_exit; SetStatus EXITED] ∧
                        queues w' = queues w ∧ user w' = u1).
    { unfold iteration. unfold mbind at 1, M_bind at 1, bind at 1.
      rewrite Hdispatch.
      unfold mbind, M_bind, bind, mret, M_ret, ret, get_status, set_status,
        call.
      cbn. rewrite Hexit. cbn. rewrite decide_True by done.
      eexists. split; [done|]. cbn. by rewrite <- app_assoc. }
    destruct Hit as (w' & Hit & Hrest). exists w'. split; [|done].
    cbn [loop]. unfold mbind, M_bind, bind. by rewrite Hit.
  - intros e u1 Hexit.
    assert (Hit : ∃ w', iteration hooks w = Exc e w' ∧
                        _status (self w') = STOPPING ∧
                        trace w' = trace w ++ [Call Hon_exit] ∧
                        queues w' = queues w).
    { unfold iteration. unfold mbind at 1, M_bind at 1, bind at 1.
      rewrite Hdispatch.
      unfold mbind, M_bind, bind, mret, M_ret, ret, get_status, set_status,
        call.
      cbn. rewrite Hexit. cbn. eexists. split; [done|]. done. }
    destruct Hit as (w' & Hit & Hrest). exists w'. split; [|done].
    cbn [loop]. unfold mbind, M_bind, bind. by rewrite Hit.
Qed.

(** The loop is left by [break] only, and [break] needs EXITED. *)
Lemma loop_returns_exited hooks fuel w w' :
  loop hooks fuel w = Ok () w' → _status (self w') = EXITED.
Proof.
  revert w. induction fuel as [|fuel IH]; intros w; cbn [loop]; [done|].
  unfold mbind, M_bind, bind.
  destruct (iteration hooks w) as [[] w1| | |] eqn:Hit; try done.
  - intros [= <-]. unfold iteration in Hit.
    unfold mbind, M_bind, bind, mret, M_ret, ret, get_status, sleep in Hit.
    destruct (dispatch hooks w) as [[] w2| | |]; try done.
    destruct (decide (_status (self w2) = EXITED)); by simplify_eq.
  - apply IH.
Qed.

(** X8.  When [run] returns, the status is EXITED or ERROR: the worker has
    no other way to end, short of an exception. *)
Theorem run_returns_exited_or_error hooks fuel w w' :
  run hooks fuel w = Ok () w' →
  _status (self w') = EXITED ∨ _status (self w') = ERROR.
Proof.
  unfold run, try_except.
  unfold mbind, M_bind, bind, mret, M_ret, ret, set_status, call, print.
  cbn. destruct (setup hooks (user w)) as [[[]|e] u1]; cbn.
  - intros Hloop%loop_returns_exited. by left.
  - intros [= <-]. by right.
Qed.

End WorkerMore.

Section WorkerEmission.
Import Python Constants Node.
Context {U : Type} (hooks : Hooks U).
Implicit Types (w : World U).

(** X9.  When [execute] returns and the hooks after it return too, its
    result decides what the successors are told: after True, [on_success],
    [post_execution] and a SUCCESS message to every successor; after False,
    [on_failure()] without an exception, [post_execution] and a FAILURE
    message to every successor. *)
Theorem execute_result_decides_message w (result : bool) u1 u2 u3 :
  _status (self w) ≠ PAUSED →
  execute hooks (user w) = (Return result, u1) →
  (if result then on_success hooks u1 else on_failure hooks None u1)
  = (Return (), u2) →
  post_execution hooks u2 = (Return (), u3) →
  ∃ w2,
    try_execute hooks w = Ok () w2 ∧
    trace w2
    = trace w
      ++ [Call Hexecute;
          Call (if result then Hon_success else Hon_failure None);
          Call Hpost_execution]
      ++ ((fun n => Put n (make_message w (if result then SUCCESS
                                           else FAILURE)))
            <$> successors (self w)) ∧
    (∀ n, n ∈ successors (self w) →
          last (queues w2 !!! ref_id n)
          = Some (make_message w (if result then SUCCESS else FAILURE))) ∧
    user w2 = u3 ∧ self w2 = self w.
Proof.
  intros Hst Hexec Hhook Hpost.
  unfold try_execute, try_except.
  unfold mbind, M_bind, bind.
  rewrite pausable_call_unpaused, Hexec by done.
  destruct result.
  - rewrite pausable_call_unpaused by done. cbn [user update_user].
    rewrite Hhook.
    rewrite pausable_call_unpaused by done. cbn [user update_user].
    rewrite Hpost. rewrite send_signals_unpaused by done.
    match goal with
    | |- context [fold_left (put_to ?m) ?l ?w0] =>
      destruct (fold_put_to m l w0) as (Hs & Hu & _ & _ & _ & Ht & Hq)
    end.
    eexists. split; [done|]. rewrite Ht, Hq, Hs, Hu. cbn.
    split; [by rewrite <- !app_assoc|]. split; [|done].
    intros n Hn. by apply fold_queue_put_last.
  - rewrite pausable_call_unpaused by done. cbn [user update_user].
    rewrite Hhook.
    rewrite pausable_call_unpaused by done. cbn [user update_user].
    rewrite Hpost. rewrite send_signals_unpaused by done.
    match goal with
    | |- context [fold_left (put_to ?m) ?l ?w0] =>
      destruct (fold_put_to m l w0) as (Hs & Hu & _ & _ & _ & Ht & Hq)
    end.
    eexists. split; [done|]. rewrite Ht, Hq, Hs, Hu. cbn.
    split; [by rewrite <- !app_assoc|]. split; [|done].
    intros n Hn. by apply fold_queue_put_last.
Qed.

End WorkerEmission.

Section WorkerQueues.
Import Python Constants Node.
Context {U : Type}.
Implicit Types (w : World U).

Lemma fold_queue_put_count msg (l : list NodeRef) k
  (q : gmap nat (list Message)) :
  fold_left (fun q n => queue_put (ref_id n) msg q) l q !!! k
  = (q !!! k)
    ++ replicate (length (filter (fun n => ref_id n = k) l)) msg.
Proof.
  revert q. induction l as [|n l IH]; intros q; cbn [fold_left].
  - by rewrite app_nil_r.
  - rewrite IH, filter_cons. unfold queue_put.
    destruct (decide (ref_id n = k)) as [->|Hne].
    + rewrite lookup_total_insert_eq. cbn. by rewrite <- app_assoc.
    + by rewrite lookup_total_insert_ne.
Qed.

(** X10.  [send_signals] appends its one message to the queue of each
    successor, once for each time the successor is listed, behind what was
    queued before; the queue of every other node is as it was, and so are the
    node itself and the subclass's state. *)
Theorem send_signals_appends status w :
  _status (self w) ≠ PAUSED →
  ∃ w',
    send_signals status w = Ok () w' ∧
    (∀ k, queues w' !!! k
          = (queues w !!! k)
            ++ replicate
                 (length (filter (fun n => ref_id n = k) (successors (self w))))
                 (make_message w status)) ∧
    self w' = self w ∧ user w' = user w.
Proof.
  intros Hst. rewrite send_signals_unpaused by done.
  match goal with
  | |- context [fold_left (put_to ?m) ?l ?w0] =>
    destruct (fold_put_to m l w0) as (Hs & Hu & _ & _ & _ & _ & Hq)
  end.
  eexists. split; [done|]. rewrite Hs, Hu, Hq. split; [|done].
  intros k. apply fold_queue_put_count.
Qed.

(** X11.  After [check_signals] has drained a queue that was not empty,
    the queue is empty and [received_signals] holds, for every sender, the
    last message it had in the queue, and what was there before for a sender
    with no message in the queue; this whether the gate then evaluates or
    raises. *)
Theorem check_signals_keeps_latest w s :
  dependent_nodes (self w) ≠ [] → incoming_signals w ≠ [] →
  ∃ w',
    ((∃ r, check_signals_body w = Ok r w') ∨
     (∃ e, check_signals_body w = Exc e w')) ∧
    incoming_signals w' = [] ∧
    received_signals (self w') !! s
    = match last (filter (fun m => sender m = s) (incoming_signals w)) with
      | Some m => Some m
      | None => received_signals (self w) !! s
      end.
Proof.
  intros Hdep Hqueue. exists (drain_incoming_signals w). split; [|split].
  - unfold check_signals_body.
    rewrite decide_True by (destruct (dependent_nodes (self w)); [done|cbn; lia]).
    rewrite decide_False by done. cbv zeta.
    destruct (evaluate _ _); eauto.
  - unfold incoming_signals, drain_incoming_signals. cbn.
    by rewrite lookup_total_insert_eq.
  - cbn. apply register_signals_lookup.
Qed.

Lemma evaluate_params_leaf_false node ps vs a :
  evaluate_params node ps = Return vs →
  inl a ∈ ps → leaf_value a node = false → all vs = false.
Proof.
  revert vs. induction ps as [|p ps IH]; intros vs Hvs Hin Hleaf;
    [by apply elem_of_nil in Hin|].
  cbn in Hvs.
  destruct (evaluate_param node p) as [v|] eqn:Hp; [|done].
  destruct (evaluate_params node ps) as [vs'|]; [|done].
  injection Hvs as <-. unfold all. cbn.
  apply elem_of_cons in Hin as [<-|Hin].
  - cbn in Hp. injection Hp as <-. by rewrite Hleaf.
  - rewrite andb_false_iff. right. by apply IH.
Qed.

(** X12.  A failure closes the gate.  When a node listens to [a] directly
    (as an item of [listen_to]) and the last message [a] has in its queue
    does not carry SUCCESS, [check_signals] does not return True, whatever
    the other items are. *)
Theorem failure_of_a_predecessor_closes_the_gate w listen_to a m w' :
  signal_ast (self w) = And listen_to →
  dependent_nodes (self w) ≠ [] →
  inl a ∈ listen_to →
  last (filter (fun m => sender m = ref_name a) (incoming_signals w))
  = Some m →
  status m ≠ Some SUCCESS →
  check_signals_body w ≠ Ok true w'.
Proof.
  intros Hgate Hdep Hin Hlast Hstatus.
  assert (Hqueue : incoming_signals w ≠ []).
  { intros Hnil. by rewrite Hnil in Hlast. }
  unfold check_signals_body.
  rewrite decide_True by (destruct (dependent_nodes (self w)); [done|cbn; lia]).
  rewrite decide_False by done. cbv zeta.
  set (w1 := drain_incoming_signals w).
  assert (Hleaf : leaf_value a (self w1) = false).
  { unfold leaf_value. subst w1. cbn.
    rewrite register_signals_lookup, Hlast.
    by apply bool_decide_eq_false. }
  replace (signal_ast (self w1)) with (And listen_to) by (by rewrite <- Hgate).
  unfold And. rewrite evaluate_unfold.
  destruct (evaluate_params (self w1) listen_to) as [vs|e] eqn:Hvs; [|done].
  cbn [apply_operation].
  rewrite (evaluate_params_leaf_false _ _ _ a Hvs Hin Hleaf). done.
Qed.

End WorkerQueues.

Section WorkerGates.
Import Python Constants Node.
Context {U : Type} (hooks : Hooks U).
Implicit Types (w : World U).

(** [check_signals] records nothing and touches no queue but the node's
    own. *)
Lemma check_signals_fields w b w1 :
  _status (self w) ≠ PAUSED → check_signals w = Ok b w1 →
  trace w1 = trace w ∧ user w1 = user w ∧
  ident (self w1) = ident (self w) ∧
  (∀ k, k ≠ ident (self w) → queues w1 !!! k = queues w !!! k).
Proof.
  intros Hst. unfold check_signals. rewrite pausable_unpaused by done.
  unfold check_signals_body.
  destruct (decide (0 < _)); [|by intros [= <- <-]].
  destruct (decide (incoming_signals w = [])); [by intros [= <- <-]|].
  cbv zeta. destruct (evaluate _ _); [|done]. intros [= <- <-]. cbn.
  repeat split. intros k Hk. by rewrite lookup_total_insert_ne.
Qed.

(** The statements before the [try], when the pass stops there: only
    [pre_trigger] was called, and no queue but the node's own was touched. *)
Lemma before_try_closed w flow w1 :
  _status (self w) ≠ PAUSED →
  before_try hooks w = Ok (Some flow) w1 →
  trace w1 = trace w ++ [Call Hpre_trigger] ∧
  ident (self w1) = ident (self w) ∧
  (∀ k, k ≠ ident (self w) → queues w1 !!! k = queues w !!! k).
Proof.
  intros Hst. unfold before_try.
  unfold mbind, M_bind, bind, mret, M_ret, ret, get_triggered, set_waiting.
  rewrite pausable_call_unpaused by done.
  destruct (pre_trigger hooks (user w)) as [[[]|e] u]; cbn; try done.
  - destruct (triggered (self w)); cbn.
    + destruct (check_signals _) as [[] w3| | |] eqn:Hsig; cbn; try done.
      * destruct (pausable _ _) as [[] w4| | |]; cbn; done.
      * apply check_signals_fields in Hsig as (Ht & _ & Hi & Hq); [|done].
        intros [= <- <-]. cbn in *. done.
    + intros [= <- <-]. done.
  - intros [= <- <-]. done.
Qed.

(** X13.  A pass of a running node whose [pre_trigger] answers False, or
    that is not triggered, or whose signal gate is closed, calls
    [pre_trigger] and no other hook, and puts nothing into the queue of any
    other node; the loop goes on. *)
Theorem closed_gate_runs_nothing w flow w1 :
  _status (self w) = RUNNING →
  before_try hooks w = Ok (Some flow) w1 →
  ∃ w',
    iteration hooks w = Ok Again w' ∧
    trace w' = trace w ++ [Call Hpre_trigger] ∧
    (∀ k, k ≠ ident (self w) → queues w' !!! k = queues w !!! k).
Proof.
  intros Hst Hbefore.
  assert (Hne : _status (self w) ≠ PAUSED) by (by rewrite Hst).
  destruct (before_try_closed w flow w1 Hne Hbefore) as (Htrace & Hid & Hq).
  pose proof (before_try_status hooks w _ w1 Hne Hbefore) as Hst1.
  unfold iteration. unfold mbind at 1, M_bind at 1, bind at 1.
  rewrite dispatch_before_try by done.
  unfold mbind, M_bind, bind, mret, M_ret, ret, get_status, sleep.
  rewrite Hbefore. destruct flow.
  - exists w1. done.
  - rewrite decide_False by (by rewrite Hst1, Hst).
    exists (sleep_world w1). split; [done|].
    destruct (sleep_world_fields w1) as (_ & -> & _ & _ & _ & Hqs & _).
    split; [done|]. intros k Hk. rewrite Hqs by (by rewrite Hid). by apply Hq.
Qed.

(** X14.  Only a RUNNING or STOPPING node calls hooks.  In any other status
    a pass calls none and changes nothing of the subclass's state; it ends
    the loop when the status is EXITED and sleeps otherwise. *)
Theorem idle_pass_calls_no_hook w :
  _status (self w) ≠ RUNNING → _status (self w) ≠ STOPPING →
  ∃ w',
    iteration hooks w
    = Ok (if decide (_status (self w) = EXITED) then Break else Again) w' ∧
    trace w' = trace w ∧ user w' = user w.
Proof.
  intros Hrun Hstop. unfold iteration, dispatch.
  unfold mbind, M_bind, bind, mret, M_ret, ret, get_status, sleep.
  rewrite decide_False by done.
  destruct (decide (_status (self w) = PAUSED)) as [Hp|Hp].
  - destruct (decide (_status (self w) = EXITED)) as [He|He]; [congruence|].
    destruct (sleep_world_fields w) as (Hu & Ht & _ & _ & _ & _ & Hst).
    destruct (decide (_status (self (sleep_world w)) = EXITED)) as [He'|He'].
    + exfalso. destruct Hst as [Heq|Hin]; [congruence|].
      rewrite He' in Hin. set_solver.
    + exists (sleep_world (sleep_world w)). split; [done|].
      destruct (sleep_world_fields (sleep_world w)) as (-> & -> & _).
      done.
  - rewrite decide_False by done.
    destruct (decide (_status (self w) = EXITED)).
    + by exists w.
    + exists (sleep_world w). split; [done|].
      by destruct (sleep_world_fields w) as (-> & -> & _).
Qed.

End WorkerGates.

Section WorkerTrigger.
Import Python Constants Node.
Context {U : Type} (hooks : Hooks U).
Implicit Types (w : World U).

(** Three statements in a row that end with [send_signals] leave the node
    itself and the plans of the other threads as they were. *)
Lemma hooks_then_send_fields {A} h1 (body1 : U → outcome A * U) h2
  (body2 : U → outcome () * U) status w r w' :
  _status (self w) ≠ PAUSED →
  (pausable (call h1 body1);; pausable (call h2 body2);;
   send_signals status) w = r →
  r = Ok () w' ∨ (∃ e, r = Exc e w') →
  self w' = self w ∧ pending w' = pending w.
Proof.
  intros Hst <-. unfold mbind, M_bind, bind.
  rewrite pausable_call_unpaused by done.
  destruct (body1 (user w)) as [[a|e1] u1].
  - rewrite pausable_call_unpaused by done. cbn [user update_user].
    destruct (body2 u1) as [[[]|e2] u2].
    + rewrite send_signals_unpaused by done.
      match goal with
      | |- context [fold_left (put_to ?m) ?l ?w0] =>
        destruct (fold_put_to m l w0) as (Hs & _ & Hp & _)
      end.
      intros [[= <-]|[e [=]]]. split; [exact Hs|exact Hp].
    + intros [[=]|[e [= _ <-]]]. done.
  - intros [[=]|[e [= _ <-]]]. done.
Qed.

(** The [try] statement, when it ends normally, has not touched the node
    itself. *)
Lemma try_execute_fields w w' :
  _status (self w) ≠ PAUSED →
  try_execute hooks w = Ok () w' →
  self w' = self w ∧ pending w' = pending w.
Proof.
  intros Hst. unfold try_execute, try_except.
  unfold mbind at 1, M_bind at 1, bind at 1.
  rewrite pausable_call_unpaused by done.
  destruct (execute hooks (user w)) as [[[]|e] u1].
  - set (wa := update_user u1 (record (Call Hexecute) w)).
    match goal with
    | |- match ?m wa with _ => _ end = _ → _ =>
      destruct (m wa) as [[] w1|e w1| |] eqn:Hbody; try done
    end.
    + intros [= ->].
      apply (hooks_then_send_fields _ _ _ _ SUCCESS wa _ w' Hst Hbody).
      by left.
    + assert (self w1 = self w ∧ pending w1 = pending w) as [Hs Hp].
      { apply (hooks_then_send_fields _ _ _ _ SUCCESS wa _ w1 Hst Hbody).
        right. by exists e. }
      intros Hhandler. rewrite <- Hs, <- Hp.
      apply (hooks_then_send_fields _ _ _ _ FAILURE w1 _ w'
               ltac:(by rewrite Hs) Hhandler).
      by left.
  - set (wa := update_user u1 (record (Call Hexecute) w)).
    match goal with
    | |- match ?m wa with _ => _ end = _ → _ =>
      destruct (m wa) as [[] w1|e w1| |] eqn:Hbody; try done
    end.
    + intros [= ->].
      apply (hooks_then_send_fields _ _ _ _ FAILURE wa _ w' Hst Hbody).
      by left.
    + assert (self w1 = self w ∧ pending w1 = pending w) as [Hs Hp].
      { apply (hooks_then_send_fields _ _ _ _ FAILURE wa _ w1 Hst Hbody).
        right. by exists e. }
      intros Hhandler. rewrite <- Hs, <- Hp.
      apply (hooks_then_send_fields _ _ _ _ FAILURE w1 _ w'
               ltac:(by rewrite Hs) Hhandler).
      by left.
  - set (wa := update_user u1 (record (Call Hexecute) w)).
    intros Hhandler.
    apply (hooks_then_send_fields _ _ _ _ FAILURE wa _ w' Hst Hhandler).
    by left.
Qed.

Lemma check_signals_auto_trigger w b w1 :
  _status (self w) ≠ PAUSED → check_signals w = Ok b w1 →
  auto_trigger (self w1) = auto_trigger (self w).
Proof.
  intros Hst. unfold check_signals. rewrite pausable_unpaused by done.
  unfold check_signals_body.
  repeat case_match; intros; simplify_eq; done.
Qed.

Lemma before_try_auto_trigger w r w1 :
  _status (self w) ≠ PAUSED → before_try hooks w = Ok r w1 →
  auto_trigger (self w1) = auto_trigger (self w).
Proof.
  intros Hst. unfold before_try.
  unfold mbind, M_bind, bind, mret, M_ret, ret, get_triggered, set_waiting.
  rewrite pausable_call_unpaused by done.
  destruct (pre_trigger hooks (user w)) as [[[]|e] u]; cbn; try done.
  - destruct (triggered (self w)); cbn.
    + destruct (check_signals _) as [[] w3| | |] eqn:Hsig; cbn; try done.
      * pose proof Hsig as Hsig'.
        apply check_signals_status in Hsig; [|done]. cbn in Hsig.
        apply check_signals_auto_trigger in Hsig'; [|done]. cbn in Hsig'.
        rewrite pausable_call_unpaused by (cbn; congruence).
        destruct (pre_execution hooks _) as [[[]|e] u']; cbn; try done.
        intros; simplify_eq. cbn. done.
      * apply check_signals_auto_trigger in Hsig; [|done]. cbn in Hsig.
        intros; simplify_eq. cbn. done.
    + intros; simplify_eq. done.
  - intros; simplify_eq. done.
Qed.

(** Only [trigger()] sets the trigger flag. *)
Lemma fold_apply_command_triggered (batch : list Command) w :
  Ctrigger ∉ batch →
  triggered (self (fold_left apply_command batch w)) = triggered (self w).
Proof.
  revert w. induction batch as [|c batch IH]; intros w Hquiet; [done|].
  apply not_elem_of_cons in Hquiet as [Hc Hquiet].
  cbn [fold_left]. rewrite IH by done. by destruct c.
Qed.

(** X15.  A node with [auto_trigger] False runs once per trigger.  After a
    pass that went through the [try] statement, [reset_trigger] has cleared
    the flag: unless another thread calls [trigger()] during the sleep that
    ends the pass, the node starts its next pass untriggered. *)
Theorem manual_trigger_is_consumed w w1 w2 :
  _status (self w) = RUNNING →
  before_try hooks w = Ok None w1 →
  try_execute hooks w1 = Ok () w2 →
  auto_trigger (self w) = false →
  (∀ batch, head (pending w2) = Some batch → Ctrigger ∉ batch) →
  ∃ w3,
    iteration hooks w = Ok Again w3 ∧
    triggered (self w3) = false.
Proof.
  intros Hst Hbefore Htry Hauto Hquiet.
  pose proof (before_try_status hooks w None w1) as Hst1.
  rewrite Hst in Hst1. specialize (Hst1 ltac:(done) Hbefore).
  destruct (try_execute_fields w1 w2) as [Hself Hpending];
    [by rewrite Hst1|done|].
  destruct (pass_through_try hooks 0 w w1 w2) as [Hit _];
    [done|done|done|by rewrite Hself|].
  eexists. split; [exact Hit|].
  assert (Hauto2 : auto_trigger (self w2) = false).
  { rewrite Hself, (before_try_auto_trigger w None w1); [done| |done].
    by rewrite Hst. }
  unfold reset_trigger_world. rewrite Hauto2.
  unfold sleep_world. cbn [pending update_self].
  destruct (pending w2) as [|batch rest]; [done|].
  by rewrite fold_apply_command_triggered by (by apply Hquiet).
Qed.

End WorkerTrigger.

(* ===================================================================== *)
(** * The ResourceNode decorators: further properties *)
(* ===================================================================== *)

Section ResourceMore.
Import Python Resource.
Context {P : Type}.
Implicit Types (n : ResourceNode P).

(** X16.  [exeternally_accessible] counts the caller in and out around a
    method that returns: when the method leaves the count alone, the count is
    afterwards what it was before, and the event is set by this call exactly
    when that count is zero.  When the method raises, the caller is never
    counted out: the count stays one up and the event is not set. *)
Theorem exeternally_accessible_counts {R} (func : Method P R) n :
  (∀ result n1,
      func (enter n) = (Return result, n1) →
      reference_count n1 = reference_count (enter n) →
      ∃ n2,
        exeternally_accessible func n = (Return result, n2) ∧
        reference_count n2 = reference_count n ∧
        payload n2 = payload n1 ∧
        event n2 = (if decide (reference_count n = 0%Z) then true
                    else event n1)) ∧
  (∀ e n1,
      func (enter n) = (Raised e, n1) →
      exeternally_accessible func n = (Raised e, n1)).
Proof.
  split.
  - intros result n1 Hfunc Hcount. unfold exeternally_accessible.
    rewrite Hfunc. eexists. split; [done|].
    unfold leave. cbn in *. rewrite Hcount.
    replace (reference_count n + 1 - 1)%Z with (reference_count n) by lia.
    destruct (decide (reference_count n = 0%Z)); cbn; repeat split; lia.
  - intros e n1 Hfunc. unfold exeternally_accessible. by rewrite Hfunc.
Qed.

(** X17.  One reader passing through is enough to end the wait: with no
    reader inside and the event not set, the guard returns as soon as a
    first reader has entered and left, and calls the method then, whatever
    readers are still to come. *)
Theorem await_references_ends_at_first_drain {R} (func : Method P R)
  (w : World P) rest :
  event (node w) = false → reference_count (node w) = 0%Z →
  peers w = Enter :: Leave :: rest →
  await_references func w
  = match func (set_event true (node w)) with
    | (Return result, n2) =>
      Ok result
         (mkWorld (set_event false n2) rest
                  (steps w ++ Waited :: Called ::
                     (if event n2 then [Cleared] else [])))
    | (Raised e, n2) =>
      Exc e (mkWorld n2 rest (steps w ++ [Waited; Called]))
    end.
Proof.
  intros Hev Hcount Hpeers. unfold await_references. rewrite Hpeers.
  destruct (node w) as [ev c p]. cbn in *. subst ev c. cbn.
  unfold leave, enter. cbn. rewrite decide_True by lia. cbn.
  change (0 + 1 - 1)%Z with 0%Z.
  destruct rest; cbn; destruct (func _) as [[result|e] [[] c p']]; done.
Qed.

End ResourceMore.

(* ===================================================================== *)
(** * The pipeline controller: further properties *)
(* ===================================================================== *)

Section ControllerWiring.
Import Python Constants NetworkX.
Implicit Types (g : DiGraph) (heap : nat → Pipeline.BaseNode).

Lemma successors_edges g n v : v ∈ successors g n ↔ (n, v) ∈ edges g.
Proof.
  unfold successors. rewrite list_elem_of_fmap. split.
  - intros ([a b] & -> & [Ha Hin]%list_elem_of_filter). cbn in *. by subst.
  - intros Hin. exists (n, v). split; [done|].
    by apply list_elem_of_filter.
Qed.

Lemma add_edge_NoDup_edges a b g :
  NoDup (edges g) → NoDup (edges (add_edge a b g)).
Proof.
  intros Hnd. unfold add_edge. rewrite !add_node_edges.
  destruct (decide ((a, b) ∈ edges g)); cbn; rewrite ?add_node_edges; [done|].
  apply NoDup_app. split; [done|]. split; [|apply NoDup_singleton].
  intros x Hx ->%list_elem_of_singleton. done.
Qed.

Lemma add_predecessor_edges_NoDup heap g node :
  NoDup (edges g) →
  NoDup (edges (Pipeline.add_predecessor_edges heap g node)).
Proof.
  unfold Pipeline.add_predecessor_edges.
  generalize (Pipeline.predecessors (heap node)) as ps.
  intros ps. revert g. induction ps as [|p ps IH]; intros g Hg; cbn; [done|].
  by apply IH, add_edge_NoDup_edges.
Qed.

Lemma built_graph_NoDup_edges heap nodes :
  NoDup (edges (Pipeline.built_graph heap nodes)).
Proof.
  assert (Hfold : ∀ items g, NoDup (edges g) →
            NoDup (edges (fold_left (Pipeline.add_predecessor_edges heap)
                                    items g))).
  { induction items as [|n items IH]; intros g Hg; cbn; [done|].
    by apply IH, add_predecessor_edges_NoDup. }
  unfold Pipeline.built_graph.
  destruct nodes as [items|items]; cbn.
  - apply Hfold.
    destruct (add_nodes_spec items empty empty_well_built) as (_ & -> & _).
    apply NoDup_nil_2.
  - destruct (add_nodes_spec items empty empty_well_built) as (_ & -> & _).
    apply NoDup_nil_2.
Qed.

Lemma successors_NoDup g n : NoDup (edges g) → NoDup (successors g n).
Proof.
  intros Hnd. unfold successors.
  apply NoDup_fmap_2_strong; [|by apply NoDup_filter].
  intros [a b] [a' b'] [Ha _]%list_elem_of_filter [Ha' _]%list_elem_of_filter.
  cbn in *. congruence.
Qed.

(** The third loop: each item gets the successors the graph has for it. *)
Lemma fold_set_successors g items heap n :
  fold_left (Pipeline.set_successors g) items heap n
  = if decide (n ∈ items) then
      Pipeline.with_successors (successors g n) (heap n)
    else heap n.
Proof.
  revert heap. induction items as [|m items IH]; intros heap; cbn [fold_left].
  - by rewrite decide_False by apply not_elem_of_nil.
  - rewrite IH. unfold Pipeline.set_successors.
    destruct (decide (n = m)) as [->|Hne].
    + rewrite fn_lookup_insert. rewrite (decide_True (P := m ∈ m :: items))
        by set_solver.
      by destruct (decide (m ∈ items)).
    + rewrite fn_lookup_insert_ne by done.
      destruct (decide (n ∈ items)).
      * by rewrite decide_True by set_solver.
      * by rewrite decide_False by set_solver.
Qed.

(** The fourth loop: each item gets the logger. *)
Lemma fold_set_logger lg items heap n :
  fold_left (Pipeline.set_logger lg) items heap n
  = if decide (n ∈ items) then Pipeline.with_logger lg (heap n) else heap n.
Proof.
  revert heap. induction items as [|m items IH]; intros heap; cbn [fold_left].
  - by rewrite decide_False by apply not_elem_of_nil.
  - rewrite IH. unfold Pipeline.set_logger.
    destruct (decide (n = m)) as [->|Hne].
    + rewrite fn_lookup_insert. rewrite (decide_True (P := m ∈ m :: items))
        by set_solver.
      by destruct (decide (m ∈ items)).
    + rewrite fn_lookup_insert_ne by done.
      destruct (decide (n ∈ items)).
      * by rewrite decide_True by set_solver.
      * by rewrite decide_False by set_solver.
Qed.

Context `{A : Algorithms}.

(** The node objects the constructor leaves behind, for a collection that
    can be walked again. *)
Lemma Pipeline_init_heap items logger heap n :
  (Pipeline.Pipeline_init (Pipeline.Sequence items) logger heap).1.2 n
  = if decide (n ∈ items) then
      let node :=
        Pipeline.with_successors
          (successors (Pipeline.built_graph heap (Pipeline.Sequence items)) n)
          (heap n) in
      match logger with
      | Some lg => Pipeline.with_logger lg node
      | None => node
      end
    else heap n.
Proof.
  unfold Pipeline.Pipeline_init, Pipeline.built_graph. cbn.
  destruct logger as [lg|]; cbn;
    destruct (is_directed_acyclic_graph _); cbn;
    rewrite ?fold_set_logger, fold_set_successors;
    by destruct (decide (n ∈ items)).
Qed.

(** X18.  The constructor rewrites the [successors] of every node it was
    handed: afterwards they are exactly the handed-over nodes that name this
    node among their predecessors, each listed once.  It binds the logger to
    these nodes when one is given, leaves [predecessors] alone and does not
    touch any other node object.  All this is done before the graph is
    checked, so it holds as well when the constructor raises. *)
Theorem Pipeline_init_sets_successors items logger heap n :
  let heap' :=
    (Pipeline.Pipeline_init (Pipeline.Sequence items) logger heap).1.2 in
  Pipeline.predecessors (heap' n) = Pipeline.predecessors (heap n) ∧
  (n ∈ items →
   (∀ v, v ∈ Pipeline.successors (heap' n) ↔
         v ∈ items ∧ n ∈ Pipeline.predecessors (heap v)) ∧
   NoDup (Pipeline.successors (heap' n)) ∧
   Pipeline.logger (heap' n)
   = match logger with
     | Some lg => Some lg
     | None => Pipeline.logger (heap n)
     end) ∧
  (n ∉ items → heap' n = heap n).
Proof.
  cbv zeta. rewrite Pipeline_init_heap.
  destruct (decide (n ∈ items)) as [Hin|Hout].
  - split; [by destruct logger|]. split; [|done]. intros _.
    assert (Hsucc : Pipeline.successors
                      (match logger with
                       | Some lg =>
                         Pipeline.with_logger lg
                           (Pipeline.with_successors
                              (successors
                                 (Pipeline.built_graph
                                    heap (Pipeline.Sequence items)) n)
                              (heap n))
                       | None =>
                         Pipeline.with_successors
                           (successors
                              (Pipeline.built_graph
                                 heap (Pipeline.Sequence items)) n)
                           (heap n)
                       end)
                    = successors (Pipeline.built_graph
                                    heap (Pipeline.Sequence items)) n)
      by (by destruct logger).
    cbv zeta. rewrite Hsucc. split; [|split].
    + intros v. rewrite successors_edges.
      destruct (built_graph_sequence heap items) as (_ & Hedges).
      apply (Hedges n v).
    + apply successors_NoDup, built_graph_NoDup_edges.
    + by destruct logger.
  - split; [done|]. split; [done|]. done.
Qed.

End ControllerWiring.

Section ControllerOrder.
Import Python Constants NetworkX.
Context `{A : Algorithms} `{!Contract A}.
Implicit Types (g : DiGraph) (heap : nat → Pipeline.BaseNode).




Lemma Pipeline_init_returned nodes logger heap p heap1 nodes1 :
  Pipeline.Pipeline_init nodes logger heap = (Return p, heap1, nodes1) →
  is_directed_acyclic_graph (Pipeline.built_graph heap nodes) = true ∧
  p = Pipeline.mkPipeline
        (Pipeline.built_graph heap nodes)
        (topological_sort (Pipeline.built_graph heap nodes)).
Proof.
  intros Hinit.
  pose proof (Pipeline_init_outcome nodes logger heap) as Hout.
  rewrite Hinit in Hout. cbn in Hout.
  destruct (is_directed_acyclic_graph _); [|done].
  by injection Hout as ->.
Qed.


(** X20.  [launch_nodes] starts every node of the pipeline once, and a node
    only after all the nodes that have an edge to it. *)
Theorem launch_nodes_topological nodes logger heap p heap1 nodes1 :
  Pipeline.Pipeline_init nodes logger heap = (Return p, heap1, nodes1) →
  NoDup (Pipeline.launch_nodes p) ∧
  (∀ n, Pipeline.Start n ∈ Pipeline.launch_nodes p ↔
        n ∈ NetworkX.nodes (Pipeline.graph p)) ∧
  (∀ u v, edge (Pipeline.graph p) u v →
          Pipeline.precedes (Pipeline.Start u) (Pipeline.Start v)
                            (Pipeline.launch_nodes p)).
Proof.
  intros (Hdag & ->)%Pipeline_init_returned.
  unfold Pipeline.launch_nodes. cbn [Pipeline.nodes Pipeline.graph].
  destruct (built_graph_well_built heap nodes) as [Hclosed Hnd].
  pose proof (topological_sort_nodes _ Hclosed Hnd Hdag) as Hperm.
  split; [|split].
  - apply NoDup_fmap_2; [|by rewrite Hperm]. by intros ?? [= ->].
  - intros n. rewrite list_elem_of_fmap, <- Hperm. split.
    + by intros (m & [= ->] & ?).
    + intros ?. by exists n.
  - intros u v Huv.
    destruct (topological_sort_edges _ u v Hclosed Hnd Hdag Huv)
      as (l1 & l2 & l3 & ->).
    exists (Pipeline.Start <$> l1), (Pipeline.Start <$> l2),
           (Pipeline.Start <$> l3).
    by rewrite !fmap_app, !fmap_cons, !fmap_app, !fmap_cons.
Qed.

(** X21.  From a list of nodes whose predecessor relation has no cycle the
    constructor returns a pipeline, and in its order every node stands
    behind each of its predecessors. *)
Theorem Pipeline_init_accepts_dag items logger heap :
  ¬ (∃ v, tc (Pipeline.depends heap items) v v) →
  ∃ p heap1 nodes1,
    Pipeline.Pipeline_init (Pipeline.Sequence items) logger heap
    = (Return p, heap1, nodes1) ∧
    ∀ u v, v ∈ items → u ∈ Pipeline.predecessors (heap v) →
           before u v (Pipeline.nodes p).
Proof.
  intros Hacyclic.
  destruct (built_graph_sequence heap items) as ([Hclosed Hnd] & Hedges).
  assert (Hdag : is_directed_acyclic_graph
                   (Pipeline.built_graph heap (Pipeline.Sequence items))
                 = true).
  { apply is_directed_acyclic_graph_spec; [done..|].
    intros [v Hv]. apply Hacyclic. exists v.
    assert (Htc : ∀ a b,
               tc (edge (Pipeline.built_graph
                           heap (Pipeline.Sequence items))) a b →
               tc (Pipeline.depends heap items) a b).
    { induction 1 as [a b Hab|a b c Hab _ IH].
      - apply tc_once. by apply Hedges.
      - eapply tc_l; [|exact IH]. by apply Hedges. }
    by apply Htc. }
  pose proof (Pipeline_init_outcome (Pipeline.Sequence items) logger heap)
    as Hout.
  rewrite Hdag in Hout.
  destruct (Pipeline.Pipeline_init (Pipeline.Sequence items) logger heap)
    as [[out heap1] nodes1].
  cbn in Hout. subst out. eexists _, heap1, nodes1. split; [done|].
  intros u v Hv Hu. cbn [Pipeline.nodes].
  apply topological_sort_edges; [done..|]. by apply Hedges.
Qed.

End ControllerOrder.

(* ===================================================================== *)
(** * The constructor of a node: the wiring of the successors *)
(* ===================================================================== *)

Section ConstructorWiring.
Import Python Constants Node Objects.

Lemma fold_add_successor self deps (store : Store) k :
  NoDup (ref_id <$> deps) →
  fold_left (fun store d => alter (add_successor self) (ref_id d) store)
            deps store !! k
  = if decide (k ∈ ref_id <$> deps) then add_successor self <$> store !! k
    else store !! k.
Proof.
  revert store. induction deps as [|d deps IH]; intros store Hnd; cbn.
  - rewrite decide_False; [done|]. apply not_elem_of_nil.
  - apply NoDup_cons in Hnd as [Hd Hnd]. rewrite IH by done.
    destruct (decide (k = ref_id d)) as [->|Hk].
    + rewrite decide_False by done. rewrite lookup_alter_eq.
      rewrite decide_True; [done|]. left.
    + rewrite lookup_alter_ne by done.
      destruct (decide (k ∈ ref_id <$> deps)) as [Hin|Hin].
      * rewrite decide_True; [done|]. by right.
      * rewrite decide_False; [done|]. by intros [?|?]%elem_of_cons.
Qed.


Lemma live_spec (store : Store) r :
  live store r = true ↔
  ∃ o, store !! ref_id r = Some o ∧ ref_of (ref_id r) o = r.
Proof.
  unfold live, ref_of. destruct r as [i nm]; cbn. split.
  - destruct (store !! i) as [o|]; [|done].
    intros Hnm%bool_decide_eq_true. exists o. by rewrite Hnm.
  - intros (o & -> & [= ->]). by apply bool_decide_eq_true.
Qed.

Lemma live_NoDup_ids (store : Store) deps :
  NoDup deps → (∀ r, r ∈ deps → live store r = true) →
  NoDup (ref_id <$> deps).
Proof.
  intros Hnd Hlive. apply NoDup_fmap_2_strong; [|done].
  intros r1 r2 H1 H2 Hid.
  apply Hlive, live_spec in H1 as (o1 & Ho1 & <-).
  apply Hlive, live_spec in H2 as (o2 & Ho2 & <-).
  rewrite Hid in Ho1. rewrite Ho1 in Ho2. injection Ho2 as ->. by rewrite Hid.
Qed.

Lemma BaseNode_init_successors ident name signal_type listen_to auto :
  successors (BaseNode_init ident name signal_type listen_to auto) = [] ∧
  Node.ident (BaseNode_init ident name signal_type listen_to auto) = ident ∧
  Node.name (BaseNode_init ident name signal_type listen_to auto) = name ∧
  NoDup (dependent_nodes
           (BaseNode_init ident name signal_type listen_to auto)).
Proof. repeat split. apply NoDup_remove_dups. Qed.

Lemma add_successor_fields self o :
  ident (node (add_successor self o)) = ident (node o) ∧
  name (node (add_successor self o)) = name (node o) ∧
  dependent_nodes (node (add_successor self o)) = dependent_nodes (node o) ∧
  successors (node (add_successor self o)) = successors (node o) ++ [self].
Proof. by destruct o as [[]]. Qed.

(** A constructor call keeps the store wired. *)
Lemma construct_wired (store : Store) c :
  wired store → well_scoped_call store c = true → wired (construct store c).
Proof.
  intros Hwired [Hfresh Hlive]%andb_true_iff.
  apply bool_decide_eq_true in Hfresh.
  rewrite forallb_forall in Hlive.
  unfold construct, BaseNode_new.
  destruct c as [i nm st lt auto]; cbn [call_ident call_name call_signal_type
    call_listen_to call_auto_trigger] in *.
  set (self := BaseNode_init i nm st lt auto) in *.
  destruct (BaseNode_init_successors i nm st lt auto)
    as (Hsucc & Hident & Hname & Hnd).
  fold self in Hsucc, Hident, Hname, Hnd.
  assert (Hlive' : ∀ r, r ∈ dependent_nodes self → live store r = true).
  { intros r Hr. apply Hlive. by apply list_elem_of_In. }
  pose proof (live_NoDup_ids store _ Hnd Hlive') as Hids.
  set (store1 := fold_left _ _ store).
  assert (Hstore1 : ∀ k, store1 !! k
            = if decide (k ∈ ref_id <$> dependent_nodes self)
              then add_successor (mkRef i nm) <$> store !! k
              else store !! k).
  { intros k. by apply fold_add_successor. }
  (* an object of the old store, as the new store holds it *)
  assert (Hold : ∀ k o, k ≠ i →
            (<[i := mkObject self 0 0]> store1) !! k = Some o →
            ∃ o0, store !! k = Some o0 ∧
                  ident (node o) = ident (node o0) ∧
                  name (node o) = name (node o0) ∧
                  dependent_nodes (node o) = dependent_nodes (node o0) ∧
                  num_predecessors o = num_predecessors o0 ∧
                  ((k ∈ (ref_id <$> dependent_nodes self) ∧
                    o = add_successor (mkRef i nm) o0) ∨
                   ((k ∉ ref_id <$> dependent_nodes self) ∧ o = o0))).
  { intros k o Hk. rewrite lookup_insert_ne by done. rewrite Hstore1.
    destruct (decide _) as [Hin|Hin].
    - destruct (store !! k) as [o0|]; [|done]. intros [= <-].
      exists o0. destruct (add_successor_fields (mkRef i nm) o0)
        as (? & ? & ? & ?). repeat split; auto.
    - intros Ho. exists o. repeat split; auto. }
  assert (Hkeep : ∀ k o0, store !! k = Some o0 →
            ∃ o, (<[i := mkObject self 0 0]> store1) !! k = Some o ∧
                 name (node o) = name (node o0) ∧
                 dependent_nodes (node o) = dependent_nodes (node o0)).
  { intros k o0 Ho0. assert (k ≠ i) by (intros ->; congruence).
    rewrite lookup_insert_ne by done. rewrite Hstore1, Ho0.
    destruct (decide _); cbn; eexists; (split; [done|]); [|done].
    by destruct (add_successor_fields (mkRef i nm) o0) as (? & ? & ? & ?). }
  assert (Hlive_new : ∀ r, live store r = true →
            live (<[i := mkObject self 0 0]> store1) r = true).
  { intros r (o0 & Ho0 & Hr)%live_spec. apply live_spec.
    destruct (Hkeep _ _ Ho0) as (o & Ho & Hnm & _).
    exists o. split; [done|]. unfold ref_of in *. by rewrite Hnm. }
  assert (Hdep_id : ∀ k o0, store !! k = Some o0 →
            (k ∈ ref_id <$> dependent_nodes self ↔
             ref_of k o0 ∈ dependent_nodes self)).
  { intros k o0 Ho0. split.
    - intros (r & -> & Hr)%list_elem_of_fmap.
      pose proof (Hlive' _ Hr) as (o & Ho & Href)%live_spec.
      rewrite Ho0 in Ho. injection Ho as <-. by rewrite Href.
    - intros Hr. apply list_elem_of_fmap. by exists (ref_of k o0). }
  intros n o Hn.
  destruct (decide (n = i)) as [->|Hni].
  - rewrite lookup_insert_eq in Hn. injection Hn as <-.
    cbn [node num_successors num_predecessors]. rewrite Hsucc.
    split; [done|]. split; [done|]. split; [done|].
    split; [apply NoDup_nil_2|]. split.
    + intros m. split; [by intros ?%elem_of_nil|].
      intros (om & Hom & Href & Hdep). exfalso.
      assert (Hself_live : live store (ref_of i (mkObject self 0 0)) = true).
      { destruct (decide (ref_id m = i)) as [Hmi|Hmi].
        - rewrite Hmi, lookup_insert_eq in Hom. injection Hom as <-.
          by apply Hlive'.
        - destruct (Hold _ _ Hmi Hom) as (o0 & Ho0 & _ & _ & Hd & _).
          rewrite Hd in Hdep.
          destruct (Hwired _ _ Ho0) as (_ & _ & _ & _ & _ & Hcl).
          by apply Hcl. }
      apply live_spec in Hself_live as (o' & Ho' & _). cbn in Ho'. congruence.
    + intros r Hr. by apply Hlive_new, Hlive'.
  - destruct (Hold _ _ Hni Hn) as (o0 & Ho0 & Hid & Hnm & Hd & Hnp & Hcase).
    destruct (Hwired _ _ Ho0) as (Hi0 & Hns0 & Hnp0 & Hnd0 & Hiff0 & Hcl0).
    assert (Hself_notin : mkRef i nm ∉ successors (node o0)).
    { intros (om & Hom & _)%Hiff0. cbn in Hom. congruence. }
    assert (Href : ref_of n o = ref_of n o0) by (unfold ref_of; by rewrite Hnm).
    rewrite Href.
    split; [congruence|].
    split.
    { destruct Hcase as [[_ ->]|[_ ->]]; [|done].
      destruct (add_successor_fields (mkRef i nm) o0) as (_ & _ & _ & ->).
      rewrite length_app. cbn. lia. }
    split; [congruence|].
    split.
    { destruct Hcase as [[_ ->]|[_ ->]]; [|done].
      destruct (add_successor_fields (mkRef i nm) o0) as (_ & _ & _ & ->).
      apply NoDup_app. split; [done|]. split; [|apply NoDup_singleton].
      intros x Hx ->%list_elem_of_singleton. done. }
    split.
    + intros m.
      assert (Hsucc_o : m ∈ successors (node o) ↔
                m ∈ successors (node o0) ∨
                (m = mkRef i nm ∧ n ∈ ref_id <$> dependent_nodes self)).
      { destruct Hcase as [[Hin ->]|[Hin ->]].
        - destruct (add_successor_fields (mkRef i nm) o0) as (_ & _ & _ & ->).
          rewrite elem_of_app, list_elem_of_singleton. naive_solver.
        - naive_solver. }
      rewrite Hsucc_o. split.
      * intros [Hm|[-> Hin]].
        -- apply Hiff0 in Hm as (om0 & Hom0 & Hrefm & Hdep).
           destruct (Hkeep _ _ Hom0) as (om & Hom & Hnmm & Hdm).
           exists om. split; [done|]. split.
           ++ unfold ref_of in *. by rewrite Hnmm.
           ++ by rewrite Hdm.
        -- exists (mkObject self 0 0). cbn [ref_id].
           split; [apply lookup_insert_eq|]. split.
           ++ unfold ref_of. cbn [node]. by rewrite Hname.
           ++ cbn [node]. by apply Hdep_id.
      * intros (om & Hom & Hrefm & Hdep).
        destruct (decide (ref_id m = i)) as [Hmi|Hmi].
        -- right. rewrite Hmi, lookup_insert_eq in Hom. injection Hom as <-.
           cbn [node] in Hdep. split.
           ++ rewrite <- Hrefm. unfold ref_of. cbn [node]. by rewrite Hname, Hmi.
           ++ by eapply Hdep_id.
        -- left. destruct (Hold _ _ Hmi Hom)
             as (om0 & Hom0 & _ & Hnmm & Hdm & _).
           apply Hiff0. exists om0. split; [done|]. split.
           ++ unfold ref_of in *. by rewrite <- Hnmm.
           ++ by rewrite <- Hdm.
    + intros r Hr. rewrite Hd in Hr. by apply Hlive_new, Hcl0.
Qed.

Lemma program_wired_from (store : Store) calls :
  wired store → well_scoped store calls = true →
  wired (fold_left construct calls store).
Proof.
  revert store. induction calls as [|c calls IH]; intros store Hw Hs; cbn.
  - done.
  - cbn in Hs. apply andb_true_iff in Hs as [Hc Hrest].
    apply IH; [by apply construct_wired|done].
Qed.

Lemma wired_empty : wired ∅.
Proof. intros n o Hn. by rewrite lookup_empty in Hn. Qed.

(** X22.  In a store built by constructor calls alone, the successors of a
    node are exactly the nodes constructed with it in their gate, each listed
    once, and [num_successors] is their number.  [num_predecessors] is 0
    whatever the node listens to: the constructor never counts them. *)
Theorem constructors_wire_successors calls n o :
  well_scoped ∅ calls = true →
  program calls !! n = Some o →
  num_successors o = length (successors (node o)) ∧
  num_predecessors o = 0 ∧
  NoDup (successors (node o)) ∧
  ∀ m, m ∈ successors (node o) ↔
       ∃ om, program calls !! ref_id m = Some om ∧
             ref_of (ref_id m) om = m ∧
             ref_of n o ∈ dependent_nodes (node om).
Proof.
  intros Hscoped Hn.
  destruct (program_wired_from ∅ calls wired_empty Hscoped n o Hn)
    as (_ & Hnum & Hpred & Hnd & Hiff & _).
  done.
Qed.

End ConstructorWiring.

(* ===================================================================== *)
(** * The directory watcher: reports on a directory *)
(* ===================================================================== *)

Section FilesystemFacts.
Import Filesystem.
Context {Time : Type} `{EqDecision Time}.
Implicit Types (d : dict Time) (fs : FileSystem Time).

Lemma get_None d key : get d key = None ↔ key ∉ keys d.
Proof.
  unfold keys. induction d as [|[k v] d IH]; cbn.
  - split; [intros _; apply not_elem_of_nil|done].
  - rewrite not_elem_of_cons. destruct (decide (k = key)) as [->|Hk].
    + split; [done|]. by intros [? _].
    + rewrite IH. naive_solver.
Qed.

Lemma keys_setitem key value d x :
  x ∈ keys (setitem key value d) ↔ x = key ∨ x ∈ keys d.
Proof.
  unfold keys. induction d as [|[k v] d IH]; cbn.
  - rewrite list_elem_of_singleton, elem_of_nil. naive_solver.
  - destruct (decide (k = key)) as [->|Hk]; cbn.
    + rewrite !elem_of_cons. naive_solver.
    + rewrite !elem_of_cons, IH. naive_solver.
Qed.

Lemma NoDup_setitem key value d :
  NoDup (keys d) → NoDup (keys (setitem key value d)).
Proof.
  unfold keys. induction d as [|[k v] d IH]; cbn; intros Hnd.
  - apply NoDup_singleton.
  - apply NoDup_cons in Hnd as [Hk Hnd].
    destruct (decide (k = key)) as [->|Hne]; cbn.
    + by apply NoDup_cons.
    + apply NoDup_cons. split; [|by apply IH].
      intros [?|?]%keys_setitem; done.
Qed.

Lemma get_setitem key value d x :
  get (setitem key value d) x
  = if decide (x = key) then Some value else get d x.
Proof.
  induction d as [|[k v] d IH]; cbn.
  - destruct (decide (key = x)), (decide (x = key)); congruence.
  - destruct (decide (k = key)) as [->|Hk]; cbn.
    + destruct (decide (key = x)), (decide (x = key)); congruence.
    + rewrite IH.
      destruct (decide (k = x)), (decide (x = key)); congruence.
Qed.


Lemma fold_visit_walked fs (entries : list (string * list string)) st :
  fold_left (fun file_states entry =>
               fold_left (visit_file fs entry.1) entry.2 file_states)
            entries st
  = fold_left (record_mtime fs)
              ('(root, files) ← entries; join root <$> files) st.
Proof.
  revert st. induction entries as [|[root files] es IH]; intros st; cbn.
  - done.
  - rewrite IH, fold_left_app. f_equal.
    clear. revert st. induction files as [|f files IH]; intros st; cbn.
    + done.
    + by rewrite IH.
Qed.

Lemma get_file_states_walked fs directory :
  get_file_states fs directory
  = fold_left (record_mtime fs) (walked fs directory) (Some []).
Proof. apply fold_visit_walked. Qed.

Lemma fold_record_mtime_None fs ps :
  fold_left (record_mtime fs) ps None = None.
Proof. by induction ps. Qed.

Lemma fold_record_mtime fs ps d0 :
  NoDup (keys d0) →
  match fold_left (record_mtime fs) ps (Some d0) with
  | Some d =>
    NoDup (keys d) ∧
    (∀ p, p ∈ ps → is_Some (getmtime fs p)) ∧
    (∀ p, get d p = if decide (p ∈ ps) then getmtime fs p else get d0 p)
  | None => ∃ p, p ∈ ps ∧ getmtime fs p = None
  end.
Proof.
  revert d0. induction ps as [|q ps IH]; intros d0 Hnd; cbn.
  - split; [done|]. split; [by intros p ?%elem_of_nil|].
    intros p. rewrite decide_False; [done|]. apply not_elem_of_nil.
  - destruct (getmtime fs q) as [t|] eqn:Hq; cbn.
    + specialize (IH (setitem q t d0) (NoDup_setitem _ _ _ Hnd)).
      destruct (fold_left _ ps _) as [d|].
      * destruct IH as (Hnd' & Hsome & Hget). split; [done|]. split.
        -- intros p [->|?]%elem_of_cons; [by rewrite Hq|auto].
        -- intros p. rewrite Hget, get_setitem.
           destruct (decide (p ∈ ps)) as [Hin|Hin].
           ++ rewrite decide_True; [done|]. by right.
           ++ destruct (decide (p = q)) as [->|Hpq].
              ** rewrite decide_True; [done|]. left.
              ** rewrite decide_False; [done|].
                 by intros [?|?]%elem_of_cons.
      * destruct IH as (p & Hp & Hnone). exists p. split; [by right|done].
    + rewrite fold_record_mtime_None. exists q. split; [left|done].
Qed.

Lemma get_file_states_Some fs directory file_states :
  get_file_states fs directory = Some file_states →
  NoDup (keys file_states) ∧
  (∀ p, p ∈ keys file_states ↔ p ∈ walked fs directory) ∧
  (∀ p, p ∈ walked fs directory →
        is_Some (getmtime fs p) ∧ get file_states p = getmtime fs p).
Proof.
  rewrite get_file_states_walked.
  pose proof (fold_record_mtime fs (walked fs directory) [] (NoDup_nil_2))
    as Hfold.
  destruct (fold_left _ _ _) as [d|]; [|done].
  intros [= ->]. destruct Hfold as (Hnd & Hsome & Hget).
  split; [done|]. split.
  - intros p. split.
    + intros Hp. destruct (decide (p ∈ walked fs directory)) as [|Hno]; [done|].
      exfalso. revert Hp. apply get_None. rewrite Hget.
      by rewrite decide_False.
    + intros Hp. destruct (decide (p ∈ keys file_states)) as [|Hno]; [done|].
      apply get_None in Hno. rewrite Hget, decide_True in Hno by done.
      destruct (Hsome p Hp) as [t Ht]. congruence.
  - intros p Hp. split; [auto|]. rewrite Hget. by rewrite decide_True.
Qed.

(** X23.  [get_file_states] returns a dict that holds every file the walk
    comes by, once, with the modification time read for it, and nothing
    else; it raises exactly when the time of one of these files cannot be
    read. *)
Theorem get_file_states_lists_walked_files fs directory :
  match get_file_states fs directory with
  | Some file_states =>
    NoDup (keys file_states) ∧
    (∀ p, p ∈ keys file_states ↔ p ∈ walked fs directory) ∧
    (∀ p, p ∈ walked fs directory →
          is_Some (getmtime fs p) ∧ get file_states p = getmtime fs p)
  | None => ∃ p, p ∈ walked fs directory ∧ getmtime fs p = None
  end.
Proof.
  pose proof (get_file_states_Some fs directory) as HSome.
  rewrite get_file_states_walked in *.
  pose proof (fold_record_mtime fs (walked fs directory) [] (NoDup_nil_2))
    as Hfold.
  destruct (fold_left _ _ _) as [d|]; [by apply HSome|done].
Qed.

Lemma filter_sublist_impl {A} (P Q : A → Prop)
  `{∀ x, Decision (P x)} `{∀ x, Decision (Q x)} (l : list A) :
  (∀ x, x ∈ l → P x → Q x) → filter P l `sublist_of` filter Q l.
Proof.
  induction l as [|x l IH]; intros Himpl; [done|].
  assert (IH' : filter P l `sublist_of` filter Q l).
  { apply IH. intros y Hy. apply Himpl. by right. }
  rewrite !filter_cons.
  destruct (decide (P x)) as [HP|HP].
  - rewrite decide_True by (apply Himpl; [left|done]).
    by apply sublist_skip.
  - destruct (decide (Q x)); [by apply sublist_cons|done].
Qed.

Lemma filter_nil_not {A} (P : A → Prop) `{∀ x, Decision (P x)} (l : list A) :
  (∀ x, x ∈ l → ¬ P x) → filter P l = [].
Proof.
  induction l as [|x l IH]; intros Hnot; [done|].
  rewrite filter_cons, decide_False by (apply Hnot; left).
  apply IH. intros y Hy. apply Hnot. by right.
Qed.

(** X24.  Whatever [get_new_files] reports, [get_modified_files] reports as
    well, in the same order: a file that [prev_states] does not have has no
    earlier time to compare equal with. *)
Theorem new_files_are_reported_modified fs directory prev_states new_files :
  get_new_files fs directory prev_states = Some new_files →
  ∃ modified_files,
    get_modified_files fs directory prev_states = Some modified_files ∧
    new_files `sublist_of` modified_files.
Proof.
  unfold get_new_files, get_modified_files.
  destruct (get_file_states fs directory) as [current|]; [|done].
  cbn. intros [= <-]. eexists. split; [done|].
  apply filter_sublist_impl. intros p Hp Hnew.
  apply get_None in Hnew. rewrite Hnew.
  destruct (get current p) eqn:Hget; [done|].
  by apply get_None in Hget.
Qed.


(** X25.  With [prev_states] taken by [get_file_states] at one time and the
    three reports at a later one: new are the files walked now and not then,
    removed the files walked then and not now, modified the files walked now
    that are new or whose time differs; no report lists a file twice. *)
Theorem reports_compare_two_walks fs0 fs1 directory prev_states current :
  get_file_states fs0 directory = Some prev_states →
  get_file_states fs1 directory = Some current →
  ∃ new_files modified_files removed_files,
    get_new_files fs1 directory prev_states = Some new_files ∧
    get_modified_files fs1 directory prev_states = Some modified_files ∧
    get_removed_files fs1 directory prev_states = Some removed_files ∧
    NoDup new_files ∧ NoDup modified_files ∧ NoDup removed_files ∧
    (∀ p, p ∈ new_files ↔
          p ∈ walked fs1 directory ∧ p ∉ walked fs0 directory) ∧
    (∀ p, p ∈ removed_files ↔
          p ∈ walked fs0 directory ∧ p ∉ walked fs1 directory) ∧
    (∀ p, p ∈ modified_files ↔
          p ∈ walked fs1 directory ∧
          (p ∉ walked fs0 directory ∨ getmtime fs0 p ≠ getmtime fs1 p)).
Proof.
  intros Hprev Hcur. unfold get_new_files, get_modified_files,
    get_removed_files. rewrite Hcur. cbn.
  destruct (get_file_states_Some _ _ _ Hprev) as (Hnd0 & Hkeys0 & Hget0).
  destruct (get_file_states_Some _ _ _ Hcur) as (Hnd1 & Hkeys1 & Hget1).
  eexists _, _, _. repeat (split; [done || by apply NoDup_filter|]).
  split; [|split].
  - intros p. rewrite list_elem_of_filter, Hkeys0, Hkeys1. naive_solver.
  - intros p. rewrite list_elem_of_filter, Hkeys0, Hkeys1. naive_solver.
  - intros p. rewrite list_elem_of_filter, Hkeys1. split.
    + intros [Hne Hp]. split; [done|].
      destruct (decide (p ∈ walked fs0 directory)) as [Hp0|Hp0]; [|by left].
      right. destruct (Hget0 p Hp0) as [_ <-].
      destruct (Hget1 p Hp) as [_ <-]. done.
    + intros [Hp Hdiff]. split; [|done].
      destruct (Hget1 p Hp) as [[t Ht] ->]. rewrite Ht.
      destruct Hdiff as [Hp0|Hdiff].
      * rewrite <- Hkeys0 in Hp0. apply get_None in Hp0. by rewrite Hp0.
      * destruct (decide (p ∈ walked fs0 directory)) as [Hp0|Hp0].
        -- destruct (Hget0 p Hp0) as [_ ->]. by rewrite <- Ht.
        -- rewrite <- Hkeys0 in Hp0. apply get_None in Hp0. by rewrite Hp0.
Qed.

(** Against the states [get_file_states] has just returned, with the
    directory as it was, the three reports are empty. *)
Corollary unchanged_directory_reports_nothing fs directory prev_states :
  get_file_states fs directory = Some prev_states →
  get_new_files fs directory prev_states = Some [] ∧
  get_modified_files fs directory prev_states = Some [] ∧
  get_removed_files fs directory prev_states = Some [].
Proof.
  intros Hprev. unfold get_new_files, get_modified_files, get_removed_files.
  rewrite Hprev. cbn.
  repeat split; f_equal; apply filter_nil_not; intros p Hp Hno; by apply Hno.
Qed.

End FilesystemFacts.

(* ===================================================================== *)
(** * The artifact store: the states of the files *)
(* ===================================================================== *)

Section ArtifactStoreFacts.
Import ArtifactStore.

Lemma fold_move from to self done files :
  (fold_left (move from to) files (self, done)).2
  = done ++ ((fun e => if decide (state e = from) then with_state to e else e)
             <$> files).
Proof.
  revert self done. induction files as [|e files IH]; intros self done; cbn.
  - by rewrite app_nil_r.
  - unfold move at 2. cbn. destruct (decide (state e = from));
      cbn; rewrite IH; by rewrite <- app_assoc.
Qed.

Lemma fold_move_node from to self done files :
  name (fold_left (move from to) files (self, done)).1 = name self ∧
  data_store_json (fold_left (move from to) files (self, done)).1
  = data_store_json self.
Proof.
  revert self done. induction files as [|e files IH]; intros self done; cbn.
  - done.
  - unfold move at 2 4. cbn. destruct (decide (state e = from)); cbn;
      by destruct (IH (log (name self ++ " " ++ from ++ " -> " ++ to ++ ": "
                            ++ filepath e) self) (done ++ [with_state to e]))
      || apply IH.
Qed.

(** X26.  [update_state] moves every entry one step and no further: new
    becomes current, current becomes old, any other state stays; the entries
    keep their number, order, path and creation time, and the rest of the
    document is as it was. *)
Theorem update_state_moves_one_step self json_data :
  data_store_json self = Some json_data →
  ∃ self' json_data',
    update_state self = (Returned, self') ∧
    data_store_json self' = Some json_data' ∧
    with_files [] json_data' = with_files [] json_data ∧
    length (files json_data') = length (files json_data) ∧
    ∀ i e, files json_data !! i = Some e →
      ∃ e', files json_data' !! i = Some e' ∧
            filepath e' = filepath e ∧ created_at e' = created_at e ∧
            state e' = (if decide (state e = "new") then "current"
                        else if decide (state e = "current") then "old"
                        else state e).
Proof.
  intros Hjson. unfold update_state.
  set (self0 := log _ self).
  assert (Hjson0 : data_store_json self0 = Some json_data) by done.
  rewrite Hjson0.
  destruct (fold_left (move "current" "old") _ _) as [self1 files1] eqn:H1.
  destruct (fold_left (move "new" "current") _ _) as [self2 files2] eqn:H2.
  eexists _, _. split; [done|]. split; [done|]. split; [done|].
  cbn [with_files files].
  pose proof (fold_move "new" "current" self1 [] files1) as Hf2.
  rewrite H2 in Hf2. cbn in Hf2.
  pose proof (fold_move "current" "old" self0 [] (files json_data)) as Hf1.
  rewrite H1 in Hf1. cbn in Hf1. subst files1 files2.
  split; [by rewrite !length_fmap|].
  intros i e He. rewrite !list_lookup_fmap, He. cbn.
  eexists. split; [done|].
  destruct e as [p s c]; cbn.
  destruct (decide (s = "current")) as [->|Hc]; cbn.
  - done.
  - destruct (decide (s = "new")) as [->|Hn]; cbn; [done|].
    done.
Qed.


(** X27.  The body of [on_modified], for a file: the entries already in the
    document stay as they are, no path is listed twice, a path that does not
    end in [.json] is listed afterwards, and the same event handled again,
    at whatever time, changes nothing. *)
Theorem on_modified_lists_a_file_once now now' event self json_data :
  is_directory event = false →
  data_store_json self = Some json_data →
  NoDup (filepath <$> files json_data) →
  ∃ self' json_data',
    on_modified now event self = (Returned, self') ∧
    data_store_json self' = Some json_data' ∧
    files json_data `prefix_of` files json_data' ∧
    NoDup (filepath <$> files json_data') ∧
    (endswith ".json" (src_path event) = false →
     src_path event ∈ filepath <$> files json_data') ∧
    on_modified now' event self' = (Returned, self').
Proof.
  intros Hfile Hjson Hnd. unfold on_modified. rewrite Hfile, Hjson. cbn.
  destruct (endswith ".json" (src_path event)) eqn:Hend; cbn.
  - eexists _, _. split; [done|]. split; [done|]. split; [done|].
    split; [done|]. split; [done|]. cbn. rewrite ?Hend. cbn.
    by destruct self.
  - destruct (decide (src_path event ∈ filepath <$> files json_data))
      as [Hin|Hin].
    + rewrite bool_decide_false by (by intros Hno; apply Hno).
      eexists _, _. split; [done|]. split; [done|]. split; [done|].
      split; [done|]. split; [done|]. cbn. rewrite ?Hend. cbn.
      rewrite bool_decide_false by (by intros Hno; apply Hno).
      by destruct self.
    + rewrite bool_decide_true by done.
      eexists _, _. split; [done|]. split; [done|]. cbn [with_files files].
      split; [by apply prefix_app_r|]. rewrite fmap_app. cbn. split.
      { apply NoDup_app. split; [done|]. split; [|apply NoDup_singleton].
        by intros x Hx ->%list_elem_of_singleton. }
      split.
      { intros _. apply elem_of_app. right. left. }
      cbn. rewrite ?Hend. cbn. rewrite fmap_app. cbn.
      rewrite bool_decide_false; [done|].
      intros Hno. apply Hno, elem_of_app. right. left.
Qed.

End ArtifactStoreFacts.

(* ===================================================================== *)
(** * The metadata store: the directory of the database *)
(* ===================================================================== *)

Section SqlMetadataStoreFacts.
Import Stdlib.Strings.Ascii SqlMetadataStore.

Lemma lstrip_spec chars s :
  ∃ w, s = w ++ lstrip chars s ∧ Forall (.∈ chars) w ∧
       (∀ c, head (lstrip chars s) = Some c → c ∉ chars).
Proof.
  induction s as [|c s (w & Hs & Hw & Hhd)]; cbn.
  - exists []. by repeat split.
  - destruct (decide (c ∈ chars)) as [Hc|Hc].
    + exists (c :: w). split; [by rewrite Hs at 1|]. split; [by constructor|done].
    + exists []. split; [done|]. split; [done|]. cbn. by intros ? [= <-].
Qed.

Lemma rstrip_spec chars s :
  ∃ w, s = rstrip chars s ++ w ∧ Forall (.∈ chars) w.
Proof.
  unfold rstrip. destruct (lstrip_spec chars (reverse s)) as (w & Hs & Hw & _).
  exists (reverse w). split.
  - rewrite <- reverse_app, <- Hs. by rewrite reverse_involutive.
  - by apply Forall_reverse.
Qed.

(** What [strip] leaves does not begin with one of the characters. *)
Lemma strip_head chars s c :
  head (strip chars s) = Some c → c ∉ chars.
Proof.
  unfold strip. destruct (lstrip_spec chars s) as (_ & _ & _ & Hhd).
  destruct (rstrip_spec chars (lstrip chars s)) as (w & Hs & _).
  intros Hc. apply Hhd. rewrite Hs.
  destruct (rstrip chars (lstrip chars s)); [done|]. done.
Qed.

(** Splitting at the separator and dropping the last word gives what stands
    before the last separator. *)
Lemma split_spec sep s :
  ∃ words word,
    split sep s = words ++ [word] ∧ (sep ∉ word) ∧
    ((words = [] ∧ s = word) ∨
     (words ≠ [] ∧ s = join [sep] words ++ sep :: word)).
Proof.
  induction s as [|c s (words & word & Hsplit & Hword & Hjoin)]; cbn.
  - exists [], []. split; [done|]. split; [apply not_elem_of_nil|]. by left.
  - destruct (decide (c = sep)) as [->|Hc].
    + exists ([] :: words), word. rewrite Hsplit. split; [done|].
      split; [done|]. right. split; [done|].
      destruct Hjoin as [[-> ->]|[Hne ->]]; [done|].
      cbn. destruct words; [done|]. done.
    + rewrite Hsplit. destruct words as [|w ws]; cbn.
      * exists [], (c :: word). split; [done|].
        split; [by intros [?|?]%elem_of_cons|]. left.
        destruct Hjoin as [[_ ->]|[? _]]; done.
      * exists ((c :: w) :: ws), word. split; [done|]. split; [done|].
        right. split; [done|].
        destruct Hjoin as [[? _]|[_ ->]]; [done|].
        cbn. by destruct ws.
Qed.


(** X28.  The directory [setup] works out is what stands before the last
    [/] of the stripped URI, and empty when there is none.  [strip] takes
    characters, not a prefix: the directory never begins with one of the
    characters of [sqlite:///], so never with [/]. *)
Theorem setup_path_follows_strip uri :
  let stripped := strip (literal "sqlite:///") uri in
  (∃ file, ("/"%char ∉ file) ∧
     ((setup_path uri = [] ∧ stripped = file) ∨
      stripped = setup_path uri ++ "/"%char :: file)) ∧
  (∀ c, head (setup_path uri) = Some c → c ∉ literal "sqlite:///").
Proof.
  intros stripped. unfold setup_path. fold stripped.
  destruct (split_spec "/"%char stripped)
    as (words & word & Hsplit & Hword & Hjoin).
  rewrite Hsplit, length_app. cbn [length].
  replace (length words + 1 - 1) with (length words) by lia.
  rewrite take_app_length.
  change (literal "/") with ["/"%char].
  split.
  - exists word. split; [done|].
    destruct Hjoin as [[-> Hs]|[_ Hs]]; [by left|by right].
  - intros c Hc. apply (strip_head _ uri). fold stripped.
    destruct Hjoin as [[-> _]|[_ ->]]; [done|].
    by destruct (join ["/"%char] words).
Qed.

End SqlMetadataStoreFacts.

(* ===================================================================== *)
(** * The further properties on concrete nodes, graphs and files *)
(* ===================================================================== *)

Section WorkerMoreExamples.
Import Python Constants Node Examples.

(** [evaluate_reads_only_its_nodes] on the gate [A]: what the node has heard
    from [B] makes no difference. *)
Lemma evaluate_reads_only_its_nodes_witness :
  evaluate (signal_ast listens_to_A) listens_to_A
  = evaluate (signal_ast listens_to_A) listens_to_A_heard_B.
Proof.
  apply (evaluate_reads_only_its_nodes (signal_ast listens_to_A)
           listens_to_A listens_to_A_heard_B).
  intros n Hn. assert (n = A) as -> by (vm_compute in Hn; set_solver).
  vm_compute; reflexivity.
Defined.

(** [xor_of_many_is_never_true] on the gate [A ^ B] of a node that has heard
    SUCCESS from [A] alone. *)
Lemma xor_of_many_is_never_true_witness :
  evaluate (XOr [inl A; inl B]) listens_to_A_xor_B ≠ Return true.
Proof.
  apply (xor_of_many_is_never_true [inl A; inl B] listens_to_A_xor_B).
  cbn. lia.
Defined.

(** [stopping_pass_exits] on a source node that was told to stop. *)
Lemma stopping_pass_exits_witness :
  ∃ w' : World nat,
    loop default_hooks 1 (world_of (with_status STOPPING source)) = Ok () w' ∧
    _status (self w') = EXITED ∧
    trace w' = [Call Hon_exit; SetStatus EXITED].
Proof.
  destruct (stopping_pass_exits default_hooks 0
              (world_of (with_status STOPPING source)) eq_refl)
    as [Hreturns _].
  destruct (Hreturns 0 eq_refl) as (w' & Hloop & Hst & Htr & _).
  exists w'. done.
Defined.

(** [run_returns_exited_or_error] on a source node that is told to stop
    during its first sleep. *)
Lemma run_returns_exited_or_error_witness :
  ∃ w' : World nat,
    run default_hooks 3 (world_with_pending source [[Cstop]]) = Ok () w' ∧
    (_status (self w') = EXITED ∨ _status (self w') = ERROR).
Proof.
  eexists. split; [vm_compute; reflexivity|].
  eapply (run_returns_exited_or_error default_hooks 3
            (world_with_pending source [[Cstop]])).
  vm_compute; reflexivity.
Defined.


(** [execute_result_decides_message] on a source node whose [execute]
    returns True: [B] and [C] are sent SUCCESS. *)
Lemma execute_result_decides_message_witness :
  ∃ w2 : World nat,
    try_execute default_hooks (world_of source) = Ok () w2 ∧
    trace w2 = [Call Hexecute; Call Hon_success; Call Hpost_execution;
                Put B (mkMessage "A" "DEFAULT_SIGNAL" 0 (Some SUCCESS));
                Put C (mkMessage "A" "DEFAULT_SIGNAL" 0 (Some SUCCESS))].
Proof.
  edestruct (execute_result_decides_message default_hooks (world_of source)
               true 0 0 0)
    as (w2 & Htry & Htrace & _).
  1-4: vm_compute; done.
  exists w2. split; [exact Htry|exact Htrace].
Defined.

(** [send_signals_appends] on a source node: the queue of [B] gets the
    message, the node's own queue keeps what it had. *)
Lemma send_signals_appends_witness :
  ∃ w' : World nat,
    send_signals FAILURE (world_with_queue source [message_from A SUCCESS])
    = Ok () w' ∧
    queues w' !!! 2 = [mkMessage "A" "DEFAULT_SIGNAL" 0 (Some FAILURE)] ∧
    queues w' !!! 1 = [message_from A SUCCESS].
Proof.
  edestruct (send_signals_appends FAILURE
               (world_with_queue source [message_from A SUCCESS]))
    as (w' & Hsend & Hq & _).
  { vm_compute; done. }
  exists w'. split; [exact Hsend|]. split; rewrite Hq; vm_compute; reflexivity.
Defined.

(** [check_signals_keeps_latest] on a queue holding FAILURE, then SUCCESS
    from [A]. *)
Lemma check_signals_keeps_latest_witness :
  ∃ w' : World nat,
    check_signals_body
      (world_with_queue listens_to_A_fresh
         [message_from A FAILURE; message_from A SUCCESS])
    = Ok true w' ∧
    incoming_signals w' = [] ∧
    received_signals (self w') !! "A" = Some (message_from A SUCCESS).
Proof.
  edestruct (check_signals_keeps_latest
               (world_with_queue listens_to_A_fresh
                  [message_from A FAILURE; message_from A SUCCESS]) "A")
    as (w' & Hres & Hempty & Hlatest).
  1-2: vm_compute; done.
  exists w'. split; [|split; [exact Hempty|exact Hlatest]].
  destruct Hres as [[r Hr]|[e He]].
  - rewrite Hr. revert Hr. vm_compute. by intros [= <- _].
  - exfalso. revert He. vm_compute. done.
Defined.

(** [failure_of_a_predecessor_closes_the_gate] on a queue holding SUCCESS,
    then FAILURE from [A]. *)
Lemma failure_of_a_predecessor_closes_the_gate_witness :
  check_signals_body
    (world_with_queue listens_to_A_fresh
       [message_from A SUCCESS; message_from A FAILURE])
  ≠ Ok true (drain_incoming_signals
               (world_with_queue listens_to_A_fresh
                  [message_from A SUCCESS; message_from A FAILURE])).
Proof.
  apply (failure_of_a_predecessor_closes_the_gate
           (world_with_queue listens_to_A_fresh
              [message_from A SUCCESS; message_from A FAILURE])
           [inl A] A (message_from A FAILURE)).
  - reflexivity.
  - vm_compute; done.
  - left.
  - vm_compute; reflexivity.
  - vm_compute; done.
Defined.

(** [closed_gate_runs_nothing] on a node that listens to [A] and has an
    empty queue. *)
Lemma closed_gate_runs_nothing_witness :
  ∃ w' : World nat,
    iteration default_hooks (world_of listens_to_A_fresh) = Ok Again w' ∧
    trace w' = [Call Hpre_trigger].
Proof.
  edestruct (closed_gate_runs_nothing default_hooks
               (world_of listens_to_A_fresh))
    as (w' & Hit & Htrace & _).
  1-2: vm_compute; reflexivity.
  exists w'. split; [exact Hit|exact Htrace].
Defined.

(** [idle_pass_calls_no_hook] on a paused node. *)
Lemma idle_pass_calls_no_hook_witness :
  ∃ w' : World nat,
    iteration default_hooks (world_of (with_status PAUSED source))
    = Ok Again w' ∧
    trace w' = [] ∧ user w' = 0.
Proof.
  edestruct (idle_pass_calls_no_hook default_hooks
               (world_of (with_status PAUSED source)))
    as (w' & Hit & Htrace & Huser).
  1-2: vm_compute; done.
  exists w'. split; [exact Hit|]. split; [exact Htrace|exact Huser].
Defined.

(** [manual_trigger_is_consumed] on a triggered node with
    [auto_trigger=False]. *)
Lemma manual_trigger_is_consumed_witness :
  ∃ w3 : World nat,
    iteration default_hooks (world_of manual_source) = Ok Again w3 ∧
    triggered (self w3) = false.
Proof.
  edestruct (manual_trigger_is_consumed default_hooks
               (world_of manual_source))
    as (w3 & Hit & Htrig).
  1-4: vm_compute; reflexivity.
  - intros batch Hbatch. vm_compute in Hbatch. done.
  - exists w3. split; [exact Hit|exact Htrig].
Defined.

(** [pausable_waits_for_resume] on a paused node that is resumed during the
    first sleep. *)
Lemma pausable_waits_for_resume_witness :
  pausable (call Hexecute (execute default_hooks))
           (world_with_pending (with_status PAUSED source) [[Cresume]])
  = call Hexecute (execute default_hooks)
         (sleep_world
            (world_with_pending (with_status PAUSED source) [[Cresume]])).
Proof.
  destruct (pausable_waits_for_resume
              (call Hexecute (execute default_hooks))
              (world_with_pending (with_status PAUSED source) [[Cresume]]))
    as [Hresumed _].
  apply (Hresumed 1).
  - cbn. lia.
  - intros j Hj. assert (j = 0) as -> by lia. reflexivity.
  - vm_compute. done.
Defined.

End WorkerMoreExamples.

Section ResourceMoreExamples.
Import Python Resource Examples.

(** [exeternally_accessible_counts] on a resource nobody else is reading:
    the method sees a count of one, and the event is set afterwards. *)
Lemma exeternally_accessible_counts_witness :
  ∃ n2,
    exeternally_accessible (fun n => (Return (reference_count n), n))
                           (mkResourceNode false 0 ())
    = (Return 1%Z, n2) ∧
    reference_count n2 = 0%Z ∧ event n2 = true.
Proof.
  destruct (exeternally_accessible_counts
              (fun n => (Return (reference_count n), n))
              (mkResourceNode false 0 ()))
    as [Hreturns _].
  destruct (Hreturns 1%Z (enter (mkResourceNode false 0 ())) eq_refl eq_refl)
    as (n2 & Hcall & Hcount & _ & Hevent).
  exists n2. split; [exact Hcall|]. split; [exact Hcount|exact Hevent].
Defined.

(** [await_references_ends_at_first_drain] on an idle resource: the method
    runs after the first reader has left, the second still to come. *)
Lemma await_references_ends_at_first_drain_witness :
  await_references (fun n => (Return (reference_count n), n)) resource_idle
  = Ok 0%Z (mkWorld (mkResourceNode false 0 ()) [Enter]
                    [Waited; Called; Cleared]).
Proof.
  rewrite (await_references_ends_at_first_drain
             (fun n => (Return (reference_count n), n)) resource_idle
             [Enter] eq_refl eq_refl eq_refl).
  reflexivity.
Defined.

End ResourceMoreExamples.

Section ControllerMoreExamples.
Import Python Constants NetworkX Examples.


(** [launch_nodes_topological] on the chain 1 → 2 → 3, handed over out of
    order. *)
Lemma launch_nodes_topological_witness :
  ∃ p heap1 nodes1,
    Pipeline.Pipeline_init (H := kahn_algorithms)
      (Pipeline.Sequence [3; 1; 2]) None chain_heap
    = (Return p, heap1, nodes1) ∧
    Pipeline.launch_nodes p
    = [Pipeline.Start 1; Pipeline.Start 2; Pipeline.Start 3] ∧
    Pipeline.precedes (Pipeline.Start 2) (Pipeline.Start 3)
                      (Pipeline.launch_nodes p).
Proof.
  eexists _, _, _. split; [reflexivity|]. split; [reflexivity|].
  eapply (launch_nodes_topological (A := kahn_algorithms)
            (Contract0 := kahn_contract)
            (Pipeline.Sequence [3; 1; 2]) None chain_heap);
    [reflexivity|]. cbn. unfold edge. cbn. set_solver.
Defined.

(** On the chain every node has a smaller number than the nodes that name
    it as predecessor. *)
Lemma chain_heap_ascends items u v :
  tc (Pipeline.depends chain_heap items) u v → u < v.
Proof.
  induction 1 as [u v [_ Hu]|u v w [_ Hu] _ IH].
  - destruct v as [|[|[|[|v]]]]; cbn in Hu; set_solver by lia.
  - assert (u < v); [|lia].
    destruct v as [|[|[|[|v]]]]; cbn in Hu; set_solver by lia.
Qed.

(** [Pipeline_init_accepts_dag] on the chain 1 → 2 → 3, handed over out of
    order. *)
Lemma Pipeline_init_accepts_dag_witness :
  ∃ p heap1 nodes1,
    Pipeline.Pipeline_init (H := kahn_algorithms)
      (Pipeline.Sequence [3; 1; 2]) None chain_heap
    = (Return p, heap1, nodes1) ∧
    before 1 2 (Pipeline.nodes p) ∧ before 2 3 (Pipeline.nodes p).
Proof.
  destruct (Pipeline_init_accepts_dag (A := kahn_algorithms)
              (Contract0 := kahn_contract) [3; 1; 2] None chain_heap)
    as (p & heap1 & nodes1 & Hinit & Hbefore).
  { intros [v Hv%chain_heap_ascends]. lia. }
  exists p, heap1, nodes1. split; [exact Hinit|].
  split; apply Hbefore; cbn; set_solver.
Defined.

End ControllerMoreExamples.

Section ConstructorExamples.
Import Python Constants Node Objects Examples.

(** [constructors_wire_successors] on three constructor calls: [A] ends up
    with the successors [B] and [C]. *)
Lemma constructors_wire_successors_witness :
  ∃ o,
    program three_constructions !! 1 = Some o ∧
    successors (node o) = [B; C] ∧
    num_successors o = 2 ∧
    NoDup (successors (node o)).
Proof.
  eexists. split; [vm_compute; reflexivity|]. split; [reflexivity|].
  edestruct (constructors_wire_successors three_constructions 1)
    as (Hnum & _ & Hnd & _).
  1-2: vm_compute; reflexivity.
  split; [exact Hnum|exact Hnd].
Defined.

End ConstructorExamples.

Section FilesystemExamples.
Import Filesystem Examples.

(** [new_files_are_reported_modified] on a directory that has gained
    [c.csv]. *)
Lemma new_files_are_reported_modified_witness :
  ∃ modified_files,
    get_modified_files directory_now "data" [("data/b.csv", 11%Z)]
    = Some modified_files ∧
    ["data/sub/c.csv"] `sublist_of` modified_files.
Proof.
  apply (new_files_are_reported_modified directory_now "data"
           [("data/b.csv", 11%Z)] ["data/sub/c.csv"]).
  vm_compute; reflexivity.
Defined.

(** [reports_compare_two_walks] on a directory at two times. *)
Lemma reports_compare_two_walks_witness :
  ∃ prev_states new_files modified_files removed_files,
    get_file_states directory_then "data" = Some prev_states ∧
    get_new_files directory_now "data" prev_states = Some new_files ∧
    get_modified_files directory_now "data" prev_states
    = Some modified_files ∧
    get_removed_files directory_now "data" prev_states
    = Some removed_files ∧
    NoDup modified_files ∧
    ("data/b.csv" ∈ modified_files ↔
     "data/b.csv" ∈ walked directory_now "data" ∧
     ("data/b.csv" ∉ walked directory_then "data" ∨
      getmtime directory_then "data/b.csv"
      ≠ getmtime directory_now "data/b.csv")).
Proof.
  edestruct (reports_compare_two_walks directory_then directory_now "data")
    as (new_files & modified_files & removed_files
        & Hnew & Hmod & Hrem & _ & Hnd & _ & _ & _ & Hiff).
  1-2: vm_compute; reflexivity.
  eexists _, new_files, modified_files, removed_files.
  split; [vm_compute; reflexivity|].
  split; [exact Hnew|]. split; [exact Hmod|]. split; [exact Hrem|].
  split; [exact Hnd|]. apply Hiff.
Defined.

End FilesystemExamples.

Section ArtifactStoreExamples.
Import ArtifactStore Examples.

(** [update_state_moves_one_step] on a store with an old, a current and a
    new file. *)
Lemma update_state_moves_one_step_witness :
  ∃ self' json_data',
    update_state artifact_store = (Returned, self') ∧
    data_store_json self' = Some json_data' ∧
    state <$> files json_data' = ["old"; "old"; "current"] ∧
    length (files json_data') = 3.
Proof.
  edestruct (update_state_moves_one_step artifact_store)
    as (self' & json_data' & Hupdate & Hjson & _ & Hlen & _).
  { reflexivity. }
  exists self', json_data'. split; [exact Hupdate|]. split; [exact Hjson|].
  split; [|exact Hlen].
  revert Hupdate Hjson. vm_compute. intros [= <-] [= <-]. reflexivity.
Defined.

(** [on_modified_lists_a_file_once] on a file the store has not listed. *)
Lemma on_modified_lists_a_file_once_witness :
  ∃ self' json_data',
    on_modified "t3" (mkFileSystemEvent false "/data/4.csv") artifact_store
    = (Returned, self') ∧
    data_store_json self' = Some json_data' ∧
    "/data/4.csv" ∈ filepath <$> files json_data' ∧
    on_modified "t4" (mkFileSystemEvent false "/data/4.csv") self'
    = (Returned, self').
Proof.
  edestruct (on_modified_lists_a_file_once "t3" "t4"
               (mkFileSystemEvent false "/data/4.csv") artifact_store)
    as (self' & json_data' & Hon & Hjson & _ & _ & Hin & Hagain).
  1-2: reflexivity.
  { vm_compute. repeat constructor; set_solver. }
  exists self', json_data'. split; [exact Hon|]. split; [exact Hjson|].
  split; [|exact Hagain]. apply Hin. vm_compute; reflexivity.
Defined.

End ArtifactStoreExamples.
